(** * HTMS (ht.mjs): a shallow embedding of the reactive scope engine

    The development follows [src/ht.mjs] function by function:
    [Signal], [createStateSignals] (the [get]/[set]/[has] traps of the
    scope proxy), [kebabToCamelCase], [createSetter], [setupAttribute],
    [createFetchHandler], [insertAtTarget], the [Component] constructor
    of [setupComponent], [setup], [undoSetup] and the callback of the
    [MutationObserver]; then the closures of a throttled event attribute
    and the three callbacks of [class Component].

    Modelling conventions.
    - JavaScript objects that are mutated and shared (Signal objects,
      the [childState] targets of the scope proxies, the [dependencies]
      sets of template bindings, [elem.cleanup] arrays, the three
      persisted stores) live in an explicit store, the record [World].
    - A scope proxy is the closure [new Proxy(childState, ...)] over its
      target and over [$parentstate]; it is modelled by the inductive
      [Proxy], so the traps recurse on it exactly as the source
      delegates to [$parentstate].
    - Property names are variable names: strings.  The plain object
      that ends a scope chain has no property of its own and inherits
      those of [Object.prototype]: their names are found there by the
      traps.  The three symbol keys are reached through the dedicated
      expression forms [EOld] and [EElement].
    - The host (JavaScript engine, document tree, console, timers,
      network, stores) is the record [js : Host].  A call into the tree
      or a store returns, throws, or calls back into the engine, as the
      host answers; a call that returns is recorded in [trace].  The
      trace also records the steps of the engine itself (listener
      invocations, signal writes, evaluations) so that statements about
      "is invoked" or "is evaluated once" can be made; the engine does
      not read it.
    - User-authored script text is run by the host's JavaScript engine,
      which reads a function body as an [Expr]: a small language of
      reads and writes of [this].
    - The callbacks [connectedCallback], [disconnectedCallback] and
      [attributeChangedCallback] of a component are called by the host;
      the model has their bodies, and when they run is the host's.  The
      timers of the event modifiers and the [#include] links are not
      part of the model.
    - [emit] may re-enter itself through listeners that write variables
      and the source has no cycle guard, so the functions that may run
      listeners take a [fuel] bound; [OutOfFuel] stands for a run that
      needs more steps than the bound.  [Beyond] stands for a run that
      the model does not follow: the host calls back into the engine
      before a call returns, or a script assigns to the plain object
      that ends a scope chain. *)

From stdpp Require Import gmap strings list fin_maps pretty.
From Stdlib Require Import ZArith Ascii.

Local Open Scope string_scope.
Local Open Scope list_scope.
Local Open Scope nat_scope.

(** ** JavaScript string helpers *)

Module JsString.

(** [s.startsWith(p)] *)
Fixpoint startsWith (p s : string) : bool :=
  match p, s with
  | EmptyString, _ => true
  | String a p', String b s' => bool_decide (a = b) && startsWith p' s'
  | String _ _, EmptyString => false
  end.

(** [s.slice(1)] and [s.substring(1)] *)
Definition dropFirst (s : string) : string :=
  match s with
  | EmptyString => EmptyString
  | String _ r => r
  end.

(** the last character of [s], if any *)
Fixpoint lastChar (s : string) : option ascii :=
  match s with
  | EmptyString => None
  | String c EmptyString => Some c
  | String _ r => lastChar r
  end.

(** [s.slice(0, -1)] *)
Fixpoint dropLast (s : string) : string :=
  match s with
  | EmptyString => EmptyString
  | String _ EmptyString => EmptyString
  | String c r => String c (dropLast r)
  end.

(** [s.endsWith(c)] for a one-character string *)
Definition endsWithChar (c : ascii) (s : string) : bool :=
  match lastChar s with
  | Some d => bool_decide (c = d)
  | None => false
  end.

(** [s.split(c)] for a one-character separator: never empty, the
    segments between the separators. *)
Fixpoint splitChar (c : ascii) (s : string) : list string :=
  match s with
  | EmptyString => [EmptyString]
  | String d r =>
      if bool_decide (c = d) then EmptyString :: splitChar c r
      else match splitChar c r with
           | seg :: segs => String d seg :: segs
           | [] => [String d EmptyString]
           end
  end.

(** The text before the first ["->"] and, when there is an arrow, the
    text after it. *)
Fixpoint cutArrow (s : string) : string * option string :=
  match s with
  | EmptyString => (EmptyString, None)
  | String c r =>
      if startsWith "->" s then (EmptyString, Some (dropFirst r))
      else let '(a, b) := cutArrow r in (String c a, b)
  end.

(** [s.split('->', 1)[0]] *)
Definition beforeArrow (s : string) : string := fst (cutArrow s).

(** [s.replace(s.split('->', 1)[0], '').replace('->', '')]: the prefix
    is its own first occurrence, so what remains starts at the first
    arrow, which the second call removes. *)
Definition afterArrow (s : string) : string :=
  match snd (cutArrow s) with
  | Some r => r
  | None => EmptyString
  end.

(** [s.split('->', 2)]: the first segment and, when there is an arrow,
    the second. *)
Definition splitArrow2 (s : string) : string * option string :=
  match cutArrow s with
  | (a, Some r) => (a, Some (beforeArrow r))
  | (a, None) => (a, None)
  end.

(** A string is the sequence of bytes of the UTF-8 form of a JavaScript
    string.  The separators and prefixes the engine looks for are ASCII
    characters, which occur in that form only as themselves; where a
    function looks at other characters ([trim], [kebabToCamelCase]) the
    bytes are read as the characters they encode. *)
Definition byte (c : ascii) : nat := nat_of_ascii c.

(** White space and line terminators within ASCII: tab, line feed,
    vertical tab, form feed, carriage return, space. *)
Definition isSpace (c : ascii) : bool :=
  bool_decide (byte c = 32 ∨ byte c = 9 ∨ byte c = 10 ∨ byte c = 11 ∨ byte c = 12 ∨ byte c = 13)%nat.

(** U+00A0, in two bytes. *)
Definition isSpace2 (a b : ascii) : bool := bool_decide (byte a = 194 ∧ byte b = 160)%nat.

(** U+2028 and U+2029, the line terminators outside ASCII. *)
Definition isLineSeparator (a b c : ascii) : bool :=
  bool_decide (byte a = 226 ∧ byte b = 128 ∧ (byte c = 168 ∨ byte c = 169))%nat.

(** The white space of three bytes: U+1680, U+2000 to U+200A, U+202F,
    U+205F, U+3000, U+FEFF, and the two line terminators. *)
Definition isSpace3 (a b c : ascii) : bool :=
  isLineSeparator a b c ||
  bool_decide ((byte a = 225 ∧ byte b = 154 ∧ byte c = 128) ∨
               (byte a = 226 ∧ byte b = 128 ∧ (128 ≤ byte c ≤ 138 ∨ byte c = 175)) ∨
               (byte a = 226 ∧ byte b = 129 ∧ byte c = 159) ∨
               (byte a = 227 ∧ byte b = 128 ∧ byte c = 128) ∨
               (byte a = 239 ∧ byte b = 187 ∧ byte c = 191))%nat.

(** [s.trimStart()] *)
Fixpoint trimStart (s : string) : string :=
  match s with
  | String a r =>
      if isSpace a then trimStart r
      else match r with
           | String b r2 =>
               if isSpace2 a b then trimStart r2
               else match r2 with
                    | String c r3 => if isSpace3 a b c then trimStart r3 else s
                    | EmptyString => s
                    end
           | EmptyString => s
           end
  | EmptyString => EmptyString
  end.

(** [trimStart] of the reversed string: the bytes of a character come
    last byte first. *)
Fixpoint trimReversed (s : string) : string :=
  match s with
  | String a r =>
      if isSpace a then trimReversed r
      else match r with
           | String b r2 =>
               if isSpace2 b a then trimReversed r2
               else match r2 with
                    | String c r3 => if isSpace3 c b a then trimReversed r3 else s
                    | EmptyString => s
                    end
           | EmptyString => s
           end
  | EmptyString => EmptyString
  end.

(** [s.trimEnd()] *)
Definition trimEnd (s : string) : string := String.rev (trimReversed (String.rev s)).

(** [s.trim()] *)
Definition trim (s : string) : string := trimEnd (trimStart s).

(** [c.toUpperCase()] within ASCII *)
Definition toUpper (c : ascii) : ascii :=
  let n := nat_of_ascii c in
  if bool_decide (97 ≤ n ≤ 122)%nat then ascii_of_nat (n - 32) else c.

(** [c.toLowerCase()] within ASCII *)
Definition toLower (c : ascii) : ascii :=
  let n := nat_of_ascii c in
  if bool_decide (65 ≤ n ≤ 90)%nat then ascii_of_nat (n + 32) else c.

Fixpoint lowercase (s : string) : string :=
  match s with
  | EmptyString => EmptyString
  | String c r => String (toLower c) (lowercase r)
  end.

(** The line terminators within ASCII, which the regular expression
    [.] refuses. *)
Definition isLineTerminator (c : ascii) : bool :=
  bool_decide (byte c = 10 ∨ byte c = 13)%nat.

(** Is there a ["}"] in [s] with at least one character before it, none
    of them a ["}"]: the tail [[^\}]+\}] of the template test. *)
Definition closesAfterOne (s : string) : bool :=
  match s with
  | EmptyString => false
  | String c r =>
      if bool_decide (c = "}"%char) then false
      else (fix scan (t : string) : bool :=
              match t with
              | EmptyString => false
              | String d t' => if bool_decide (d = "}"%char) then true else scan t'
              end) r
  end.

(** [/\$\{[^\}]+\}/.test(s)] *)
Fixpoint isTemplateLiteral (s : string) : bool :=
  match s with
  | EmptyString => false
  | String c r =>
      (startsWith "${" s && closesAfterOne (dropFirst r)) || isTemplateLiteral r
  end.

End JsString.

Import JsString.

(** ** Values and the objects of the engine *)

(** Objects of the store are named by their position in it, tree nodes
    by a number. *)
Abbreviation SigId := nat (only parsing).
Abbreviation TargetId := nat (only parsing).
Abbreviation ElemId := nat (only parsing).
Abbreviation DepsId := nat (only parsing).

(** JavaScript values that scope variables hold.  [VNum n] is the
    number [n] when [n] is an integer that a number holds exactly;
    [VElem] is a tree node; [VBuiltin name] is what [Object.prototype]
    holds under [name]; [VObj] is any other value of the host (a
    function, an array, a parsed body, a number that is not such an
    integer). *)
Inductive Value :=
  | VUndef
  | VNull
  | VBool (b : bool)
  | VNum (n : Z)
  | VStr (s : string)
  | VElem (e : ElemId)
  | VBuiltin (name : string)
  | VObj (o : nat).

(** The scope proxy [$childState]: a closure over its target
    [childState] and over [$parentstate].  The chain ends in a plain
    object: [{}] for the document root ([Plain None]) or
    [{ [component]: this }] for a component ([Plain (Some this)]);
    neither has a string-named property of its own, and both inherit
    those of [Object.prototype]. *)
Inductive Proxy :=
  | Plain (comp : option ElemId)
  | Prox (target : TargetId) (parent : Proxy).

(** The [parentstate] argument of [setup] and [setupAttribute]: either a
    fresh object built by [Object.assign({}, state, parentstate)] (its
    string-named properties are Signals) or a live [childState] object
    (the component constructor passes [this.state]). *)
Inductive PState :=
  | PSnap (m : gmap string SigId)
  | PLive (t : TargetId).

(** The function returned by [createSetter]. *)
Inductive Setter :=
  | SetProp (elem : ElemId) (path : string) (append : bool)
  | SetAttr (elem : ElemId) (name : string) (append : bool).

(** What a template binding's closures capture (ht.mjs 184-197). *)
Record TemplateBinding := {
  tb_setter : Setter;          (* _setter *)
  tb_value : string;           (* attr.value *)
  tb_state : Proxy;            (* $state, the scraper's target *)
  tb_parentstate : PState;     (* parentstate *)
  tb_own : TargetId;           (* state *)
  tb_deps : DepsId;            (* dependencies *)
}.

(** The functions handed to [Signal.addListener]. *)
Inductive Code :=
  | CSetter (s : Setter)                               (* _setter *)
  | CTemplate (b : TemplateBinding)                    (* val => _setter(scopedEval($dependencyScraper, ...)) *)
  | CRecompute (p : Proxy) (var script : string)       (* () => { $state[casedVarName] = scopedEval(...) } *)
  | CUrl (var : string)                                (* val => { urlParams.set(...); replaceState(...) } *)
  | CLocal (var : string)                              (* val => localStorage.setItem(...) *)
  | CSession (var : string).                           (* val => sessionStorage.setItem(...) *)

(** A function object: [l_id] is its identity (a [Set] compares
    functions by identity), [l_elem] the [elem] of the [setupAttribute]
    call whose body created it. *)
Record Listener := {
  l_id : nat;
  l_elem : ElemId;
  l_code : Code;
}.

Global Instance Proxy_eq_dec : EqDecision Proxy.
Proof. solve_decision. Defined.
Global Instance PState_eq_dec : EqDecision PState.
Proof. solve_decision. Defined.
Global Instance Setter_eq_dec : EqDecision Setter.
Proof. solve_decision. Defined.
Global Instance TemplateBinding_eq_dec : EqDecision TemplateBinding.
Proof. solve_decision. Defined.
Global Instance Code_eq_dec : EqDecision Code.
Proof. solve_decision. Defined.
Global Instance Listener_eq_dec : EqDecision Listener.
Proof. solve_decision. Defined.

(** [class Signal]: [listeners] is a [Set], kept in insertion order. *)
Record Signal := {
  value : Value;
  listeners : list Listener;
}.

(** A [childState] object: its Signals, [target[old]] and
    [target[element]]. *)
Record Target := {
  t_signals : gmap string SigId;
  t_old : gmap string Value;
  t_element : option ElemId;
}.

(** The thunk [() => this.removeListener(listener)] pushed on
    [elem.cleanup]. *)
Record Cleanup := {
  cl_signal : SigId;
  cl_listener : Listener;
}.

(** An attribute of a tree node. *)
Record Attr := {
  a_name : string;
  a_value : string;
}.

Set Warnings "-register-all".

(** A tree node: [children] is [elem.children]; [content] is the
    children of [elem.content], which only a template has. *)
Inductive Node :=
  | MkNode (id : ElemId) (tagName : string) (attributes : list Attr)
      (textContent : string) (children content : list Node).

Definition n_id (n : Node) : ElemId := let 'MkNode i _ _ _ _ _ := n in i.
Definition n_tagName (n : Node) : string := let 'MkNode _ t _ _ _ _ := n in t.
Definition n_attributes (n : Node) : list Attr := let 'MkNode _ _ a _ _ _ := n in a.
Definition n_textContent (n : Node) : string := let 'MkNode _ _ _ x _ _ := n in x.
Definition n_children (n : Node) : list Node := let 'MkNode _ _ _ _ c _ := n in c.
Definition n_content (n : Node) : list Node := let 'MkNode _ _ _ _ _ c := n in c.

(** The value of an event modifier: absent, [true], or its text. *)
Inductive ArgVal :=
  | AFalse
  | ATrue
  | AText (s : string).

(** The event handler of an [@] attribute: the function built by
    [createFetchHandler] or the value of the attribute's script. *)
Inductive Handler :=
  | HFetch (query : string) (p : Proxy) (datatype : option string)
  | HValue (v : Value).

(** What [class Component] closes over in [setupComponent]. *)
Record ComponentDef := {
  c_name : string;             (* componentName *)
  c_elem : Node;               (* elem, the template *)
  c_attributes : list string;  (* attributes *)
  c_state : Proxy;             (* $state, the template's scope proxy *)
}.

(** Calls into the host tree. *)
Inductive DomOp :=
  | DomSetProp (elem : ElemId) (path : string) (v : Value) (append : bool)   (* setDeep *)
  | DomSetAttr (elem : ElemId) (name : string) (v : Value) (append : bool)   (* setAttribute *)
  | DomAddEventListener (elem : ElemId) (event : string) (h : Handler)
      (delay throttle capture once passive : ArgVal)
  | DomSetInterval (elem : ElemId) (event : string) (ms : ArgVal)
  | DomReplaceState (var : string) (v : string)
  | DomSetItem (session : bool) (key value : string)                         (* localStorage.setItem, sessionStorage.setItem *)
  | DomSetOuterHTML (selector content : string)
  | DomSetTextContent (selector content : string)
  | DomInsertAdjacentHTML (selector position content : string)
  | DomSetInnerHTML (selector content : string)
  | DomAttachShadow (elem : ElemId) (content : list Node)
  | DomDefine (c : ComponentDef).                                            (* customElements.define *)

(** Errors thrown while the engine runs. *)
Inductive JsError :=
  | TypeError (what : string)
  | HostError (what : string)
  | UserError.

Inductive Event :=
  | EvDom (op : DomOp)
  | EvConsoleError (msg : string)
  | EvConsoleLog (v : Value)
  | EvEval (script : string)
  | EvNewSignal (t : TargetId) (key : string) (s : SigId)
  | EvAssign (s : SigId) (v : Value)
  | EvCall (l : Listener) (s : SigId) (v : Value)
  | EvRemove (c : Cleanup).

(** ** Script text and the host *)

Inductive Expr :=
  | EConst (v : Value)
  | EGet (key : string)                              (* this.key *)
  | ESet (key : string) (e : Expr)                   (* this.key = e *)
  | EOld (key : string)                              (* this[old].key *)
  | EElement                                         (* this[element] *)
  | EOp (f : Value → Value → Value) (a b : Expr)     (* a pure operator *)
  | EIf (c a b : Expr)                               (* c ? a : b *)
  | EThrow.                                          (* a script that faults *)

(** How a call into the host ends: it returns, it throws, or, before it
    returns, the host calls back into the engine (a custom element is
    upgraded or connected, an observed attribute changes, an inserted
    script runs). *)
Inductive Answer :=
  | Returns
  | Throws (e : JsError)
  | Reenters.

(** The host: its JavaScript engine and its tree.
    - [parse script]: the function body [script] as an expression over
      [this];
    - [upperCase c]: [c.toUpperCase()] for a character [c] outside ASCII;
    - [stringOf v]: [String(v)] for a value that is not a primitive the
      model prints;
    - [answer tr op]: how the call [op] ends after the events [tr]. *)
Record Host := {
  parse : string → Expr;
  upperCase : string → string;
  stringOf : Value → string;
  answer : list Event → DomOp → Answer;
}.

(** ** kebabToCamelCase (ht.mjs 107-109)

    [str.replace(/-./g, x => (x[1] == '-' ? '-' : x[1].toUpperCase()))]:
    scanning from the left, a hyphen followed by a character that is not
    a line terminator is replaced, together with that character, by a
    hyphen (when the character is a hyphen) or by the character in upper
    case.  The character after the hyphen is one UTF-16 unit: a
    character of two or three bytes is upper-cased by the host, and of a
    character of four bytes the unit is a surrogate, which upper-casing
    leaves as it is. *)
Fixpoint kebabToCamelCase (js : Host) (str : string) : string :=
  match str with
  | EmptyString => EmptyString
  | String c r =>
      if bool_decide (c = "-"%char) then
        match r with
        | EmptyString => String c EmptyString
        | String d r1 =>
            if isLineTerminator d then String c (String d (kebabToCamelCase js r1))
            else if bool_decide (d = "-"%char) then String "-" (kebabToCamelCase js r1)
            else if bool_decide (byte d < 128) then String (toUpper d) (kebabToCamelCase js r1)
            else
              match r1 with
              | EmptyString => String d EmptyString
              | String e r2 =>
                  if bool_decide (192 ≤ byte d < 224) then
                    upperCase js (String d (String e EmptyString)) +:+ kebabToCamelCase js r2
                  else
                    match r2 with
                    | EmptyString => String d (String e EmptyString)
                    | String f r3 =>
                        if isLineSeparator d e f then
                          String c (String d (String e (String f (kebabToCamelCase js r3))))
                        else if bool_decide (224 ≤ byte d < 240) then
                          upperCase js (String d (String e (String f EmptyString)))
                            +:+ kebabToCamelCase js r3
                        else String d (String e (String f (kebabToCamelCase js r3)))
                    end
              end
        end
      else String c (kebabToCamelCase js r)
  end.

(** The integers that a number holds exactly and prints in full. *)
Definition safeInteger (n : Z) : bool := (Z.abs n <? 2 ^ 53)%Z.

(** [String(v)], as the stores and [setAttribute] apply it. *)
Definition toStr (js : Host) (v : Value) : string :=
  match v with
  | VUndef => "undefined"
  | VNull => "null"
  | VBool true => "true"
  | VBool false => "false"
  | VNum n => if safeInteger n then pretty n else stringOf js v
  | VStr s => s
  | VElem _ | VBuiltin _ | VObj _ => stringOf js v
  end.

(** [Boolean(v)] *)
Definition truthyValue (v : Value) : bool :=
  match v with
  | VUndef | VNull | VBool false | VNum 0 | VStr EmptyString => false
  | _ => true
  end.

Record World := {
  signals : list Signal;
  targets : list Target;
  depsets : list (list string);
  cleanup : gmap ElemId (list Cleanup);
  elemState : gmap ElemId (TargetId * Proxy);
  urlParams : gmap string string;
  localStorage : gmap string string;
  sessionStorage : gmap string string;
  jsvars : gmap string Proxy;
  nextListener : nat;
  trace : list Event;
}.

Definition emptyWorld : World :=
  {| signals := []; targets := []; depsets := []; cleanup := ∅; elemState := ∅;
     urlParams := ∅; localStorage := ∅; sessionStorage := ∅; jsvars := ∅;
     nextListener := 0; trace := [] |}.

(** Field updates. *)
Definition withSignals (f : list Signal → list Signal) (w : World) : World :=
  {| signals := f (signals w); targets := targets w; depsets := depsets w;
     cleanup := cleanup w; elemState := elemState w; urlParams := urlParams w;
     localStorage := localStorage w; sessionStorage := sessionStorage w;
     jsvars := jsvars w; nextListener := nextListener w; trace := trace w |}.

Definition withTargets (f : list Target → list Target) (w : World) : World :=
  {| signals := signals w; targets := f (targets w); depsets := depsets w;
     cleanup := cleanup w; elemState := elemState w; urlParams := urlParams w;
     localStorage := localStorage w; sessionStorage := sessionStorage w;
     jsvars := jsvars w; nextListener := nextListener w; trace := trace w |}.

Definition withDepsets (f : list (list string) → list (list string)) (w : World) : World :=
  {| signals := signals w; targets := targets w; depsets := f (depsets w);
     cleanup := cleanup w; elemState := elemState w; urlParams := urlParams w;
     localStorage := localStorage w; sessionStorage := sessionStorage w;
     jsvars := jsvars w; nextListener := nextListener w; trace := trace w |}.

Definition withCleanup (f : gmap ElemId (list Cleanup) → gmap ElemId (list Cleanup))
    (w : World) : World :=
  {| signals := signals w; targets := targets w; depsets := depsets w;
     cleanup := f (cleanup w); elemState := elemState w; urlParams := urlParams w;
     localStorage := localStorage w; sessionStorage := sessionStorage w;
     jsvars := jsvars w; nextListener := nextListener w; trace := trace w |}.

Definition withElemState (f : gmap ElemId (TargetId * Proxy) → gmap ElemId (TargetId * Proxy))
    (w : World) : World :=
  {| signals := signals w; targets := targets w; depsets := depsets w;
     cleanup := cleanup w; elemState := f (elemState w); urlParams := urlParams w;
     localStorage := localStorage w; sessionStorage := sessionStorage w;
     jsvars := jsvars w; nextListener := nextListener w; trace := trace w |}.

Definition withUrlParams (f : gmap string string → gmap string string) (w : World) : World :=
  {| signals := signals w; targets := targets w; depsets := depsets w;
     cleanup := cleanup w; elemState := elemState w; urlParams := f (urlParams w);
     localStorage := localStorage w; sessionStorage := sessionStorage w;
     jsvars := jsvars w; nextListener := nextListener w; trace := trace w |}.

Definition withLocalStorage (f : gmap string string → gmap string string) (w : World) : World :=
  {| signals := signals w; targets := targets w; depsets := depsets w;
     cleanup := cleanup w; elemState := elemState w; urlParams := urlParams w;
     localStorage := f (localStorage w); sessionStorage := sessionStorage w;
     jsvars := jsvars w; nextListener := nextListener w; trace := trace w |}.

Definition withSessionStorage (f : gmap string string → gmap string string) (w : World) : World :=
  {| signals := signals w; targets := targets w; depsets := depsets w;
     cleanup := cleanup w; elemState := elemState w; urlParams := urlParams w;
     localStorage := localStorage w; sessionStorage := f (sessionStorage w);
     jsvars := jsvars w; nextListener := nextListener w; trace := trace w |}.

Definition withJsvars (f : gmap string Proxy → gmap string Proxy) (w : World) : World :=
  {| signals := signals w; targets := targets w; depsets := depsets w;
     cleanup := cleanup w; elemState := elemState w; urlParams := urlParams w;
     localStorage := localStorage w; sessionStorage := sessionStorage w;
     jsvars := f (jsvars w); nextListener := nextListener w; trace := trace w |}.

Definition withNextListener (n : nat) (w : World) : World :=
  {| signals := signals w; targets := targets w; depsets := depsets w;
     cleanup := cleanup w; elemState := elemState w; urlParams := urlParams w;
     localStorage := localStorage w; sessionStorage := sessionStorage w;
     jsvars := jsvars w; nextListener := n; trace := trace w |}.

(** Append to the trace. *)
Definition record (e : Event) (w : World) : World :=
  {| signals := signals w; targets := targets w; depsets := depsets w;
     cleanup := cleanup w; elemState := elemState w; urlParams := urlParams w;
     localStorage := localStorage w; sessionStorage := sessionStorage w;
     jsvars := jsvars w; nextListener := nextListener w; trace := trace w ++ [e] |}.

(** ** The monad of the engine: state, exceptions and a step bound *)

(** [OutOfFuel]: the run needs more steps than the bound.  [Beyond]:
    the run leaves what the model describes (the host calls back into
    the engine before a call returns, or a script assigns to the plain
    object that ends a scope chain). *)
Inductive Outcome (A : Type) :=
  | OutOfFuel
  | Beyond
  | Threw (err : JsError) (w : World)
  | Ret (a : A) (w : World).
Arguments OutOfFuel {A}.
Arguments Beyond {A}.
Arguments Threw {A} err w.
Arguments Ret {A} a w.

Definition M (A : Type) : Type := World → Outcome A.

Global Instance M_ret : MRet M := λ A a w, Ret a w.

Global Instance M_bind : MBind M := λ A B f m w,
  match m w with
  | OutOfFuel => OutOfFuel
  | Beyond => Beyond
  | Threw e w' => Threw e w'
  | Ret a w' => f a w'
  end.

Definition throw {A} (e : JsError) : M A := λ w, Threw e w.
Definition modify (f : World → World) : M unit := λ w, Ret () (f w).
Definition gets {A} (f : World → A) : M A := λ w, Ret (f w) w.

(** A call into the host: recorded when it returns. *)
Definition hostCall (js : Host) (op : DomOp) : M unit := λ w,
  match answer js (trace w) op with
  | Returns => Ret () (record (EvDom op) w)
  | Throws e => Threw e w
  | Reenters => Beyond
  end.

(** [for (const x of xs) body(x)] over an array that the body does not
    change. *)
Fixpoint forEach {A} (body : A → M unit) (xs : list A) : M unit :=
  match xs with
  | [] => mret ()
  | x :: r => _ ← body x; forEach body r
  end.

(** ** class Signal (ht.mjs 21-47) *)

Definition newSignalObject : Signal := {| value := VUndef; listeners := [] |}.

Definition emptyTarget : Target := {| t_signals := ∅; t_old := ∅; t_element := None |}.

Definition sigAt (w : World) (s : SigId) : Signal := default newSignalObject (signals w !! s).
Definition sigValue (w : World) (s : SigId) : Value := value (sigAt w s).
Definition sigListeners (w : World) (s : SigId) : list Listener := listeners (sigAt w s).

Definition targetAt (w : World) (t : TargetId) : Target := default emptyTarget (targets w !! t).

(** [target[key]] for a string key: a Signal or [undefined]. *)
Definition own (w : World) (t : TargetId) (key : string) : option SigId :=
  t_signals (targetAt w t) !! key.

Definition setValue (v : Value) (s : Signal) : Signal :=
  {| value := v; listeners := listeners s |}.

Definition setListeners (f : list Listener → list Listener) (s : Signal) : Signal :=
  {| value := value s; listeners := f (listeners s) |}.

(** Two function objects are the same object when they carry the same
    identity, and then they are the same closure: the comparison of a
    [Set] is equality of the records. *)
Definition sameFunction (a b : Listener) : bool := bool_decide (a = b).

(** [Set.prototype.add] *)
Definition setAdd (l : Listener) (ls : list Listener) : list Listener :=
  if existsb (sameFunction l) ls then ls else ls ++ [l].

(** [Set.prototype.delete] *)
Definition setDelete (l : Listener) (ls : list Listener) : list Listener :=
  List.filter (λ x, negb (sameFunction l x)) ls.

Definition pushCleanup (e : ElemId) (c : Cleanup) (m : gmap ElemId (list Cleanup)) :
    gmap ElemId (list Cleanup) :=
  <[e := default [] (m !! e) ++ [c]]> m.

(** [addListener(listener, elem_to_clean_up = undefined)] *)
Definition addListener (s : SigId) (l : Listener) (elem_to_clean_up : option ElemId) : M unit :=
  _ ← modify (withSignals (alter (setListeners (setAdd l)) s));
  match elem_to_clean_up with
  | Some e => modify (withCleanup (pushCleanup e {| cl_signal := s; cl_listener := l |}))
  | None => mret ()
  end.

(** [removeListener(listener)] *)
Definition removeListener (s : SigId) (l : Listener) : World → World :=
  withSignals (alter (setListeners (setDelete l)) s).

(** ** createStateSignals (ht.mjs 56-89) *)

Definition addSignal (key : string) (s : SigId) (t : Target) : Target :=
  {| t_signals := <[key := s]> (t_signals t); t_old := t_old t; t_element := t_element t |}.

Definition setOld (key : string) (v : Value) (t : Target) : Target :=
  {| t_signals := t_signals t; t_old := <[key := v]> (t_old t); t_element := t_element t |}.

Definition setElement (e : ElemId) (t : Target) : Target :=
  {| t_signals := t_signals t; t_old := t_old t; t_element := Some e |}.

(** [if (!target[key]) { target[key] = new Signal(); }], returning
    [target[key]]. *)
Definition ensureSignal (t : TargetId) (key : string) (w : World) : SigId * World :=
  match own w t key with
  | Some s => (s, w)
  | None =>
      let s := length (signals w) in
      (s, record (EvNewSignal t key s)
            (withTargets (alter (addSignal key s) t)
               (withSignals (λ l, l ++ [newSignalObject]) w)))
  end.

(** The names of the properties of [Object.prototype]. *)
Definition objectPrototype : list string :=
  ["constructor"; "__defineGetter__"; "__defineSetter__"; "hasOwnProperty";
   "__lookupGetter__"; "__lookupSetter__"; "isPrototypeOf"; "propertyIsEnumerable";
   "toString"; "valueOf"; "__proto__"; "toLocaleString"].

(** [key in {}]: the name is inherited by every plain object. *)
Definition inherited (key : string) : bool := bool_decide (key ∈ objectPrototype).

(** The [has] trap: [key in $parentstate || key in target].  At the
    plain object that ends the chain the names of [Object.prototype]
    are found. *)
Fixpoint hasP (w : World) (p : Proxy) (key : string) : bool :=
  match p with
  | Plain _ => inherited key
  | Prox t parent => hasP w parent key || bool_decide (is_Some (own w t key))
  end.

(** Some scope of the chain has a Signal under the name. *)
Fixpoint declaredIn (w : World) (p : Proxy) (key : string) : bool :=
  match p with
  | Plain _ => false
  | Prox t parent => declaredIn w parent key || bool_decide (is_Some (own w t key))
  end.

(** The [get] trap for a string key; at the end of the chain,
    [$parentstate[key]] on the plain object. *)
Fixpoint proxyGet (p : Proxy) (key : string) : M Value :=
  match p with
  | Plain _ => mret (if inherited key then VBuiltin key else VUndef)
  | Prox t parent => λ w,
      if hasP w parent key then proxyGet parent key w
      else let '(s, w1) := ensureSignal t key w in Ret (sigValue w1 s) w1
  end.

(** The assignments of the [set] trap once the name is not found in
    [$parentstate]; what remains is [target[key].emit()]. *)
Definition assignLocal (t : TargetId) (key : string) (v : Value) (w : World) : SigId * World :=
  let '(s, w1) := ensureSignal t key w in
  let w2 := withTargets (alter (setOld key (sigValue w1 s)) t) w1 in
  (s, record (EvAssign s v) (withSignals (alter (setValue v) s) w2)).

(** The [set] trap.  The assignment to the plain object that ends the
    chain is reached for the names of [Object.prototype]; the model
    keeps no properties for that object and does not follow the run. *)
Fixpoint proxySet (emit : SigId → M unit) (p : Proxy) (key : string) (v : Value) : M unit :=
  match p with
  | Plain _ => λ _, Beyond
  | Prox t parent => λ w,
      if hasP w parent key then proxySet emit parent key v w
      else let '(s, w1) := assignLocal t key v w in emit s w1
  end.

(** ** createSetter (ht.mjs 118-132) *)

Definition createSetter (js : Host) (name : string) (elem : ElemId) : Setter :=
  let append := endsWithChar "+" name in
  let name := if append then dropLast name else name in
  if startsWith ":" name then
    let name := kebabToCamelCase js (dropFirst name) in
    let name := if bool_decide (name = "text") then "textContent" else name in
    let name := if bool_decide (name = "html") then "innerHTML" else name in
    SetProp elem name append
  else SetAttr elem name append.

(** The call a setter makes: [setDeep(elem, name, val, append)] or
    [elem.setAttribute(...)]. *)
Definition setterOp (s : Setter) (val : Value) : DomOp :=
  match s with
  | SetProp e path append => DomSetProp e path val append
  | SetAttr e name append => DomSetAttr e name val append
  end.

(** Calling a setter. *)
Definition applySetter (js : Host) (s : Setter) (val : Value) : M unit :=
  hostCall js (setterOp s val).

(** The [this] of a script: a scope proxy or the [$dependencyScraper]
    of a template binding, whose [setter] is the listener running. *)
Inductive This :=
  | ThisState (p : Proxy)
  | ThisScraper (b : TemplateBinding) (setter : Listener).

(** [parentstate[key]] *)
Definition lookupP (w : World) (ps : PState) (key : string) : option SigId :=
  match ps with
  | PSnap m => m !! key
  | PLive t => own w t key
  end.

(** [parentstate[key] || state[key]], when it is a Signal.  Both are
    plain objects: under a name of [Object.prototype] that
    [parentstate] does not have itself, the inherited value is found,
    which is not a Signal. *)
Definition lookupSignal (w : World) (ps : PState) (state : TargetId) (key : string) :
    option SigId :=
  match lookupP w ps key with
  | Some s => Some s
  | None => if inherited key then None else own w state key
  end.

(** [s.addListener(listener, elem)] where [s] may be no Signal. *)
Definition subscribe (s : option SigId) (l : Listener) (elem : ElemId) : M unit :=
  match s with
  | Some sid => addListener sid l (Some elem)
  | None => throw (TypeError "s is undefined")
  end.

(** The [get] trap of [$dependencyScraper] (ht.mjs 187-195). *)
Definition scraperGet (b : TemplateBinding) (setter : Listener) (key : string) : M Value :=
  val ← proxyGet (tb_state b) key;
  deps ← gets (λ w, default [] (depsets w !! tb_deps b));
  if bool_decide (key ∈ deps) then mret val
  else
    s ← gets (λ w, lookupSignal w (tb_parentstate b) (tb_own b) key);
    _ ← subscribe s setter (l_elem setter);
    _ ← modify (withDepsets (alter (λ d, d ++ [key]) (tb_deps b)));
    mret val.

Definition thisGet (this : This) (key : string) : M Value :=
  match this with
  | ThisState p => proxyGet p key
  | ThisScraper b setter => scraperGet b setter key
  end.

(** The scraper has no [set] trap: the assignment reaches [$state]. *)
Definition thisSet (emit : SigId → M unit) (this : This) (key : string) (v : Value) : M unit :=
  match this with
  | ThisState p => proxySet emit p key v
  | ThisScraper b _ => proxySet emit (tb_state b) key v
  end.

(** [this[old].key]: the [get] trap returns [target[old]] of the proxy
    itself.  Through the scraper the symbol is looked up like a
    dependency, finds an object that is not a Signal and faults. *)
Definition thisOld (this : This) (key : string) : M Value :=
  match this with
  | ThisState (Prox t _) => gets (λ w, default VUndef (t_old (targetAt w t) !! key))
  | ThisState (Plain _) => throw (TypeError "this[old] is undefined")
  | ThisScraper _ _ => throw (TypeError "s.addListener is not a function")
  end.

(** [this[element]] *)
Definition thisElement (this : This) : M Value :=
  match this with
  | ThisState (Prox t _) =>
      gets (λ w, match t_element (targetAt w t) with Some e => VElem e | None => VUndef end)
  | ThisState (Plain _) => mret VUndef
  | ThisScraper _ _ => throw (TypeError "s.addListener is not a function")
  end.

Fixpoint evalExpr (emit : SigId → M unit) (this : This) (e : Expr) : M Value :=
  match e with
  | EConst v => mret v
  | EGet key => thisGet this key
  | ESet key e1 => v ← evalExpr emit this e1; _ ← thisSet emit this key v; mret v
  | EOld key => thisOld this key
  | EElement => thisElement this
  | EOp f a b => x ← evalExpr emit this a; y ← evalExpr emit this b; mret (f x y)
  | EIf c a b =>
      x ← evalExpr emit this c;
      if truthyValue x then evalExpr emit this a else evalExpr emit this b
  | EThrow => throw UserError
  end.

Section Engine.

Variable js : Host.

(** ** scopedEval (ht.mjs 16-19) *)
Definition scopedEval (emit : SigId → M unit) (scope : This) (script : string) : M Value :=
  _ ← modify (record (EvEval script));
  evalExpr emit scope (parse js script).

(** Calling a listener with [val]. *)
Definition callListener (emit : SigId → M unit) (l : Listener) (val : Value) : M unit :=
  match l_code l with
  | CSetter s => applySetter js s val
  | CTemplate b =>
      v ← scopedEval emit (ThisScraper b l) ("return `" +:+ tb_value b +:+ "`");
      applySetter js (tb_setter b) v
  | CRecompute p var script =>
      v ← scopedEval emit (ThisState p) ("return " +:+ script);
      proxySet emit p var v
  | CUrl var =>
      _ ← modify (withUrlParams (<[var := toStr js val]>));
      hostCall js (DomReplaceState var (toStr js val))
  | CLocal var =>
      _ ← hostCall js (DomSetItem false var (toStr js val));
      modify (withLocalStorage (<[var := toStr js val]>))
  | CSession var =>
      _ ← hostCall js (DomSetItem true var (toStr js val));
      modify (withSessionStorage (<[var := toStr js val]>))
  end.

(** [emit()] (ht.mjs 42-46): the loop over the live [Set], from its
    [i]-th entry on.  Each listener receives [this.value] as it is when
    its turn comes, and listeners added while the loop runs are visited.
    Nothing deletes from a Set while an [emit] runs (the cleanup thunks
    run in [undoSetup] only), so the position is an index. *)
Fixpoint emitFrom (fuel : nat) (s : SigId) (i : nat) : M unit :=
  match fuel with
  | 0 => λ _, OutOfFuel
  | S fuel' => λ w,
      match sigListeners w s !! i with
      | None => Ret () w
      | Some l =>
          (_ ← modify (record (EvCall l s (sigValue w s)));
           _ ← callListener (λ s', emitFrom fuel' s' 0) l (sigValue w s);
           emitFrom fuel' s (S i)) w
      end
  end.

Definition emit (fuel : nat) (s : SigId) : M unit := emitFrom fuel s 0.

(** ** setupAttribute (ht.mjs 142-249) *)

(** One [|]-separated event modifier: its name and
    [v.split(':').at(1) || true]. *)
Definition parseArg (v : string) : string * ArgVal :=
  match splitChar ":" v with
  | k :: x :: _ => (k, if bool_decide (x = "") then ATrue else AText x)
  | k :: [] => (k, ATrue)
  | [] => ("", ATrue)
  end.

(** [args[k]] after the [reduce]: the last modifier named [k], or the
    default [false]. *)
Definition argOf (rawArgs : list string) (k : string) : ArgVal :=
  fold_left (λ a v, let '(k', x) := parseArg v in if bool_decide (k' = k) then x else a)
    rawArgs AFalse.

Definition truthy (a : ArgVal) : bool :=
  match a with
  | AFalse => false
  | _ => true
  end.

(** A fresh function object closing over [elem]. *)
Definition newListener (elem : ElemId) (c : Code) : M Listener := λ w,
  Ret {| l_id := nextListener w; l_elem := elem; l_code := c |}
      (withNextListener (S (nextListener w)) w).

(** [new Set()] for the dependencies of a template binding. *)
Definition newDepset : M DepsId := λ w,
  Ret (length (depsets w)) (withDepsets (λ l, l ++ [[]]) w).

(** [s.addListener(f, elem)] where [f] is a function expression: [s] is
    dereferenced before the function object is created. *)
Definition subscribeNew (s : option SigId) (elem : ElemId) (c : Code) : M unit :=
  match s with
  | Some sid => l ← newListener elem c; addListener sid l (Some elem)
  | None => throw (TypeError "s is undefined")
  end.

(** Which store a [#let] attribute names. *)
Inductive Persist :=
  | UseURL
  | UseLocalStorage
  | UseSessionStorage
  | NoStore.

(** The chain of conditionals of ht.mjs 211-217 on the three flags. *)
Definition readStore (name : string) : Persist :=
  if startsWith "#let-url" name then UseURL
  else if startsWith "#let-local" name then UseLocalStorage
  else if startsWith "#let-session" name then UseSessionStorage
  else NoStore.

(** [urlParams.get], [localStorage.getItem], [sessionStorage.getItem],
    or [null]. *)
Definition storedValue (w : World) (p : Persist) (key : string) : option string :=
  match p with
  | UseURL => urlParams w !! key
  | UseLocalStorage => localStorage w !! key
  | UseSessionStorage => sessionStorage w !! key
  | NoStore => None
  end.

(** The chain of conditionals of ht.mjs 228-245.  Its last test is
    [sessionStorage], the global object, which is always truthy; the
    flag [useSessionStorage] is not consulted. *)
Definition writeThrough (name : string) (casedVarName : string) : Code :=
  if startsWith "#let-url" name then CUrl casedVarName
  else if startsWith "#let-local" name then CLocal casedVarName
  else CSession casedVarName.

Definition setupEvent (emit : SigId → M unit) (elem : ElemId) (attr : Attr) (pstate : Proxy) :
    M unit :=
  match splitChar "|" (dropFirst (a_name attr)) with
  | [] => mret ()
  | rawEventName :: rawArgs =>
      let arg := argOf rawArgs in
      let eventName := kebabToCamelCase js rawEventName in
      eventHandler ←
        (if truthy (arg "fetch") then
           mret (HFetch (a_value attr) pstate
                   match arg "fetch" with AText d => Some d | _ => None end)
         else
           v ← scopedEval emit (ThisState pstate) ("return " +:+ a_value attr);
           mret (HValue v));
      _ ← hostCall js (DomAddEventListener elem eventName eventHandler
             (arg "delay") (arg "throttle") (arg "capture") (arg "once") (arg "passive"));
      if truthy (arg "throttle") then
        hostCall js (DomSetInterval elem eventName (arg "throttle"))
      else mret ()
  end.

Definition setupBinding (emit : SigId → M unit) (elem : ElemId) (attr : Attr)
    (parentstate : PState) (state : TargetId) (pstate : Proxy) : M unit :=
  let _setter := createSetter js (dropFirst (a_name attr)) elem in
  setter ←
    (if isTemplateLiteral (a_value attr) then
       dependencies ← newDepset;
       newListener elem (CTemplate
         {| tb_setter := _setter; tb_value := a_value attr; tb_state := pstate;
            tb_parentstate := parentstate; tb_own := state; tb_deps := dependencies |})
     else
       setter ← newListener elem (CSetter _setter);
       s ← gets (λ w, lookupSignal w parentstate state (a_value attr));
       _ ← subscribe s setter elem;
       mret setter);
  v ← proxyGet pstate (a_value attr);
  callListener emit setter v.

Definition setupLet (emit : SigId → M unit) (elem : ElemId) (attr : Attr)
    (parentstate : PState) (state : TargetId) (pstate : Proxy) : M unit :=
  match splitChar ":" (a_name attr) with
  | _ :: decl :: _ =>
      match splitChar "|" decl with
      | [] => mret ()
      | varName :: dependencies =>
          let casedVarName := kebabToCamelCase js varName in
          value ← gets (λ w, storedValue w (readStore (a_name attr)) casedVarName);
          v ← match value with
              | Some stored => mret (VStr stored)
              | None => scopedEval emit (ThisState pstate) ("return " +:+ a_value attr)
              end;
          _ ← proxySet emit pstate casedVarName v;
          _ ← forEach (λ dependency,
                 s ← gets (λ w, lookupSignal w parentstate state dependency);
                 subscribeNew s elem (CRecompute pstate casedVarName (a_value attr)))
               dependencies;
          s ← gets (λ w, lookupSignal w parentstate state casedVarName);
          subscribeNew s elem (writeThrough (a_name attr) casedVarName)
      end
  | _ => throw (TypeError "attr.name.split(':')[1] is undefined")
  end.

Definition setupAttribute (emit : SigId → M unit) (elem : ElemId) (attr : Attr)
    (parentstate : PState) (state : TargetId) (pstate : Proxy) : M unit :=
  if startsWith "@" (a_name attr) then setupEvent emit elem attr pstate
  else if startsWith ":" (a_name attr) then setupBinding emit elem attr parentstate state pstate
  else if startsWith "#let" (a_name attr) then setupLet emit elem attr parentstate state pstate
  else if bool_decide (a_name attr = "#jsvar") then modify (withJsvars (<[a_value attr := pstate]>))
  else mret ().

(** ** createFetchHandler (ht.mjs 258-285) *)

(** The host's answer to [fetch]: [res.status], [res.statusText], the
    result of the body methods [res[method]()] ([None]: not a function
    or a rejected parse) and [Object.entries(await res.json())]. *)
Record Response := {
  status : Z;
  statusText : string;
  body : string → option Value;
  jsonEntries : option (list (string * Value));
}.

(** [res.ok]: the status is in the range 200-299. *)
Definition ok (res : Response) : bool := (200 <=? status res)%Z && (status res <=? 299)%Z.

(** [insertAtTarget(target, content)] (ht.mjs 292-305).  The insertion
    point is compared as [split] leaves it, before it is trimmed; an
    empty one is falsy. *)
Definition insertAtTarget (target content : string) : M unit :=
  let '(targetQuery, insertionPoint) := splitArrow2 target in
  hostCall js
    match insertionPoint with
    | Some point =>
        if bool_decide (point = "outerHTML") then DomSetOuterHTML (trim targetQuery) content
        else if bool_decide (point = "textContent") then
          DomSetTextContent (trim targetQuery) content
        else if bool_decide (point = "") then DomSetInnerHTML (trim targetQuery) content
        else DomInsertAdjacentHTML (trim targetQuery) (trim point) content
    | None => DomSetInnerHTML (trim targetQuery) content
    end.

Definition failureMessage (fetchargs : string) (res : Response) : string :=
  "Failed to fetch(" +:+ fetchargs +:+ "), got status " +:+ pretty (status res) +:+ " - "
    +:+ statusText res +:+ ": function text() { [native code] }".

(** [res[datatype ?? 'text']()] *)
Definition readBody (res : Response) (datatype : option string) : M Value :=
  match body res (default "text" datatype) with
  | Some content => mret content
  | None => throw (HostError "body")
  end.

(** The handler, run to completion on the response [res] that the host
    gives to the request. *)
Definition fetchHandler (emit : SigId → M unit) (query : string) (pstate : Proxy)
    (datatype : option string) (res : Response) : M unit :=
  let fetchargs := beforeArrow query in
  _ ← scopedEval emit (ThisState pstate) ("return fetch(" +:+ fetchargs +:+ ")");
  if negb (ok res) then modify (record (EvConsoleError (failureMessage fetchargs res)))
  else
    let target := trim (afterArrow query) in
    if bool_decide (target = "this") then
      match jsonEntries res with
      | Some entries => forEach (λ kv, proxySet emit pstate kv.1 kv.2) entries
      | None => throw (HostError "json")
      end
    else if bool_decide (target = "console") then
      content ← readBody res datatype;
      modify (record (EvConsoleLog content))
    else
      inState ← gets (λ w, hasP w pstate target);
      if (inState : bool) then
        content ← readBody res datatype;
        proxySet emit pstate target content
      else
        content ← readBody res None;
        insertAtTarget target (toStr js content).

(** ** setupComponent (ht.mjs 312-371) *)

(** [elem.hasAttribute(name)]: an HTML element compares the name in
    lower case. *)
Definition hasAttribute (name : string) (attrs : list Attr) : bool :=
  existsb (λ a, bool_decide (a_name a = lowercase name)) attrs.

(** The members of [NamedNodeMap.prototype] with a string name. *)
Definition namedNodeMapMembers : list string :=
  ["length"; "item"; "getNamedItem"; "getNamedItemNS"; "setNamedItem"; "setNamedItemNS";
   "removeNamedItem"; "removeNamedItemNS"].

(** The number a property name is when it is an array index: decimal
    digits without a leading zero, below [2^32 - 1]. *)
Fixpoint decimal (s : string) (acc : N) : option N :=
  match s with
  | EmptyString => Some acc
  | String c r =>
      if bool_decide (48 ≤ byte c ≤ 57) then decimal r (10 * acc + N.of_nat (byte c - 48))%N
      else None
  end.

Definition arrayIndex (name : string) : option N :=
  match name with
  | EmptyString => None
  | String c r =>
      if bool_decide (byte c = 48) && negb (bool_decide (r = EmptyString)) then None
      else match decimal name 0 with
           | Some n => if (n <? 4294967295)%N then Some n else None
           | None => None
           end
  end.

Fixpoint hasUpper (s : string) : bool :=
  match s with
  | EmptyString => false
  | String c r => bool_decide (65 ≤ byte c ≤ 90) || hasUpper r
  end.

(** [elem.attributes[name].value], as ['return ' + ...] reads it.  The
    collection answers an array index by position and a name of its
    prototype chain by that member, whose [value] is [undefined];
    otherwise it answers the attribute of that name, and none for a name
    with an upper-case letter. *)
Definition attributeValue (name : string) (attrs : list Attr) : option string :=
  match arrayIndex name with
  | Some i =>
      if (i <? N.of_nat (length attrs))%N then a_value <$> attrs !! N.to_nat i else None
  | None =>
      if bool_decide (name ∈ namedNodeMapMembers) || inherited name then Some "undefined"
      else if hasUpper name then None
      else a_value <$> List.find (λ a, bool_decide (a_name a = name)) attrs
  end.

(** [!['#', ':', '@'].includes(name[0])] *)
Definition isExternal (name : string) : bool :=
  negb (startsWith "#" name || startsWith ":" name || startsWith "@" name).

Definition setupComponent (elem : Node) (pstate : Proxy) : M unit :=
  match attributeValue "#component" (n_attributes elem) with
  | None => throw (TypeError "elem.attributes['#component'] is undefined")
  | Some componentName =>
      let attributes := List.filter isExternal (a_name <$> n_attributes elem) in
      hostCall js (DomDefine
        {| c_name := componentName; c_elem := elem; c_attributes := attributes;
           c_state := pstate |})
  end.

(** [createStateSignals($parentstate)]: the fresh target [{ [old]: {} }]
    and its proxy. *)
Definition createStateSignals (parent : Proxy) : M (TargetId * Proxy) := λ w,
  let t := length (targets w) in
  Ret (t, Prox t parent) (withTargets (λ l, l ++ [emptyTarget]) w).

(** The loops of the constructor of [class Component] (ht.mjs 326-346)
    for the element [this], whose scope is [state], [pstate].  Scripts
    tagged [#onConnected] or [#onDisconnected] are kept for the two
    callbacks ([onConnectedScripts] and [onDisconnectedScripts]
    below). *)
Definition constructLoops (emit : SigId → M unit) (c : ComponentDef) (this : ElemId)
    (state : TargetId) (pstate : Proxy) : M unit :=
  let elem := c_elem c in
  _ ← forEach (λ attr,
         match attributeValue attr (n_attributes elem) with
         | None => throw (TypeError "elem.attributes[attr] is undefined")
         | Some script =>
             value ← scopedEval emit (ThisState (c_state c)) ("return " +:+ script);
             _ ← hostCall js (DomSetAttr this attr value false);
             proxySet emit pstate attr value
         end) (c_attributes c);
  _ ← forEach (λ attr, setupAttribute emit (n_id elem) attr (PLive state) state pstate)
        (n_attributes elem);
  forEach (λ child,
      if bool_decide (n_tagName child = "SCRIPT") then
        if hasAttribute "#onConnected" (n_attributes child) then mret ()
        else if hasAttribute "#onDisconnected" (n_attributes child) then mret ()
        else _ ← scopedEval emit (ThisState pstate) (n_textContent child); mret ()
      else mret ()) (n_content elem).

(** The constructor of [class Component] (ht.mjs 320-347). *)
Definition construct (emit : SigId → M unit) (c : ComponentDef) (this : ElemId) : M unit :=
  _ ← hostCall js (DomAttachShadow this (n_content (c_elem c)));
  '(state, pstate) ← createStateSignals (Plain (Some this));
  _ ← modify (withElemState (<[this := (state, pstate)]>));
  _ ← modify (withTargets (alter (setElement this) state));
  constructLoops emit c this state pstate.

(** ** setup and setupChildren (ht.mjs 379-407) *)

(** [Object.assign({}, state, parentstate)]: the properties of
    [parentstate] replace those of [state]. *)
Definition assign (w : World) (state : TargetId) (parentstate : PState) : PState :=
  PSnap (match parentstate with
         | PSnap m => m ∪ t_signals (targetAt w state)
         | PLive t => t_signals (targetAt w t) ∪ t_signals (targetAt w state)
         end).

Fixpoint setup (fuel : nat) (elem : Node) (parentstate : PState) (pparentstate : Proxy) :
    M unit :=
  let 'MkNode id tagName attributes _ children _ := elem in
  '(state, pstate) ← createStateSignals pparentstate;
  _ ← modify (withElemState (<[id := (state, pstate)]>));
  _ ← modify (withTargets (alter (setElement id) state));
  if bool_decide (tagName = "TEMPLATE") && hasAttribute "#component" attributes then
    setupComponent elem pstate
  else
    _ ← forEach (λ attr, setupAttribute (emit fuel) id attr parentstate state pstate) attributes;
    merged ← gets (λ w, assign w state parentstate);
    (fix setupChildren (cs : list Node) : M unit :=
       match cs with
       | [] => mret ()
       | child :: rest => _ ← setup fuel child merged pstate; setupChildren rest
       end) children.

End Engine.

(** ** undoSetup (ht.mjs 424-433) *)

(** One cleanup thunk: [() => this.removeListener(listener)]. *)
Definition runCleanup (c : Cleanup) (w : World) : World :=
  record (EvRemove c) (removeListener (cl_signal c) (cl_listener c) w).

Fixpoint undoSetup (elem : Node) (w : World) : World :=
  let 'MkNode id _ _ _ children _ := elem in
  let w1 := (fix undoChildren (cs : list Node) (w : World) : World :=
               match cs with
               | [] => w
               | child :: rest => undoChildren rest (undoSetup child w)
               end) children w in
  let w2 := fold_left (λ w c, runCleanup c w) (default [] (cleanup w1 !! id)) w1 in
  withElemState (delete id) w2.

(** ** The MutationObserver callback (ht.mjs 438-453) *)

(** One mutation record, restricted to element nodes: the nodes added,
    each with its [parentElement] ([None] for [null]), and the nodes
    removed. *)
Record Mutation := {
  addedNodes : list (option ElemId * Node);
  removedNodes : list Node;
}.

(** [setup(addedNode, addedNode.parentElement.state,
    addedNode.parentElement.$state)]: the live state object of the
    parent is passed, and a parent that was never set up leaves both
    arguments [undefined], which take their defaults. *)
Definition setupAdded (js : Host) (fuel : nat) (added : option ElemId * Node) : M unit :=
  match added.1 with
  | None => throw (TypeError "addedNode.parentElement is null")
  | Some parent =>
      st ← gets (λ w, elemState w !! parent);
      match st with
      | Some (state, pstate) => setup js fuel added.2 (PLive state) pstate
      | None => setup js fuel added.2 (PSnap ∅) (Plain None)
      end
  end.

Definition onMutations (js : Host) (fuel : nat) (mutations : list Mutation) : M unit :=
  forEach (λ mutation,
      _ ← forEach (setupAdded js fuel) (addedNodes mutation);
      forEach (λ removedNode, modify (undoSetup removedNode)) (removedNodes mutation))
    mutations.

(** The elements of a tree that [setup] and [undoSetup] visit: the node
    and, through [children], its descendants. *)
Fixpoint nodeIds (elem : Node) : list ElemId :=
  let 'MkNode id _ _ _ children _ := elem in
  id :: (fix ids (cs : list Node) : list ElemId :=
           match cs with
           | [] => []
           | child :: rest => nodeIds child ++ ids rest
           end) children.

(** Induction on a tree along [children]. *)
Section NodeInduction.

Variable P : Node → Prop.
Hypothesis step : ∀ id tagName attributes textContent children content,
  Forall P children → P (MkNode id tagName attributes textContent children content).

Fixpoint Node_children_ind (n : Node) : P n :=
  let 'MkNode id tagName attributes textContent children content := n in
  step id tagName attributes textContent children content
    ((fix all (cs : list Node) : Forall P cs :=
        match cs with
        | [] => @List.Forall_nil Node P
        | c :: r => @List.Forall_cons Node P c r (Node_children_ind c) (all r)
        end) children).

End NodeInduction.

(** * The vocabulary of the statements *)

(** The world that an outcome leaves behind, when there is one. *)
Definition after {A} (P : A → World → Prop) (Q : World → Prop) (o : Outcome A) : Prop :=
  match o with
  | OutOfFuel | Beyond => True
  | Threw _ w => Q w
  | Ret a w => P a w
  end.

(** The events that are steps of the engine on a Signal are recorded by
    the engine's own primitives; the others are plain. *)
Definition plainEvent (e : Event) : Prop :=
  match e with
  | EvDom _ | EvConsoleError _ | EvConsoleLog _ | EvEval _ => True
  | _ => False
  end.

(** ** Invariants of every run

    A property [I] of worlds that the primitive updates keep is kept by
    every function of the engine, whatever the script engine is and
    whether the run returns or throws.  [okElem] restricts the elements
    on whose behalf listeners may be registered. *)
Record Kept (I : World → Prop) (okElem : ElemId → Prop) : Prop := {
  k_listener : ∀ w s l, I w → l ∈ sigListeners w s → okElem (l_elem l);
  k_event : ∀ e w, plainEvent e → I w → I (record e w);
  k_call : ∀ w s i l,
    sigListeners w s !! i = Some l → I w → I (record (EvCall l s (sigValue w s)) w);
  k_newSignal : ∀ t key w,
    own w t key = None → I w →
    I (record (EvNewSignal t key (length (signals w)))
         (withTargets (alter (addSignal key (length (signals w))) t)
            (withSignals (λ l, l ++ [newSignalObject]) w)));
  k_assign : ∀ t key s v w,
    I w →
    I (record (EvAssign s v)
         (withSignals (alter (setValue v) s)
            (withTargets (alter (setOld key (sigValue w s)) t) w)));
  k_addListener : ∀ s l w,
    okElem (l_elem l) → I w →
    I (withCleanup (pushCleanup (l_elem l) {| cl_signal := s; cl_listener := l |})
         (withSignals (alter (setListeners (setAdd l)) s) w));
  k_depsets : ∀ f w, I w → I (withDepsets f w);
  k_urlParams : ∀ f w, I w → I (withUrlParams f w);
  k_localStorage : ∀ f w, I w → I (withLocalStorage f w);
  k_sessionStorage : ∀ f w, I w → I (withSessionStorage f w);
}.

(** What [setupAttribute] does besides: it creates function objects and
    exports scopes. *)
Record KeptAttr (I : World → Prop) : Prop := {
  k_jsvars : ∀ f w, I w → I (withJsvars f w);
  k_nextListener : ∀ w, I w → I (withNextListener (S (nextListener w)) w);
}.

(** What [setup] and the component constructor do besides: they create
    scopes and attach them to elements. *)
Record KeptTree (I : World → Prop) : Prop := {
  k_elemState : ∀ f w, I w → I (withElemState f w);
  k_newTarget : ∀ w, I w → I (withTargets (λ l, l ++ [emptyTarget]) w);
  k_setElement : ∀ e t w, I w → I (withTargets (alter (setElement e) t) w);
}.

(** [m] keeps the property [I] of worlds, whether it returns or
    throws. *)
Definition keeps (I : World → Prop) {A} (m : M A) : Prop :=
  ∀ w, I w → after (λ _, I) I (m w).

(** The [this] of a script registers listeners only on behalf of an
    allowed element. *)
Definition okThis (okElem : ElemId → Prop) (this : This) : Prop :=
  match this with
  | ThisState _ => True
  | ThisScraper _ setter => okElem (l_elem setter)
  end.

(** Every name of every target is bound to a Signal of the store. *)
Definition wfNames (w : World) : Prop :=
  ∀ t key s, own w t key = Some s → s < length (signals w).

(** ** How a run changes the world

    [evolves w0 w]: [w] is reached from [w0] by steps of the engine
    other than [undoSetup].  The trace, every Set of listeners and
    every cleanup array only grow at their end, a name keeps its Signal,
    and a Signal keeps its value unless an assignment to it is
    recorded. *)
Record evolves (w0 w : World) : Prop := {
  ev_trace : trace w0 `prefix_of` trace w;
  ev_listeners : ∀ s, sigListeners w0 s `prefix_of` sigListeners w s;
  ev_own : ∀ t key s, own w0 t key = Some s → own w t key = Some s;
  ev_signals : length (signals w0) ≤ length (signals w);
  ev_targets : length (targets w0) ≤ length (targets w);
  ev_value : ∀ s tr,
    trace w = trace w0 ++ tr → (∀ v, EvAssign s v ∉ tr) → sigValue w s = sigValue w0 s;
  ev_nextListener : nextListener w0 ≤ nextListener w;
  ev_cleanup : ∀ e, default [] (cleanup w0 !! e) `prefix_of` default [] (cleanup w !! e);
  ev_wfNames : wfNames w0 → wfNames w;
}.

(** * A small script engine for the examples

    [Demo.read] reads the few script forms the examples below use:
    ['text'], a decimal number, [this.name], [`${this.name}`],
    [a + b] of two of these, and [fetch(...)]. *)
Module Demo.

Fixpoint dropN (n : nat) (s : string) : string :=
  match n, s with
  | S n', String _ r => dropN n' r
  | _, _ => s
  end.

(** [s] cut at its first [" + "]. *)
Fixpoint cutPlus (s : string) : option (string * string) :=
  match s with
  | EmptyString => None
  | String c r =>
      if startsWith " + " s then Some (EmptyString, dropN 3 s)
      else match cutPlus r with
           | Some (a, b) => Some (String c a, b)
           | None => None
           end
  end.

Fixpoint digits (s : string) (acc : Z) : option Z :=
  match s with
  | EmptyString => Some acc
  | String c r =>
      let n := nat_of_ascii c in
      if bool_decide (48 ≤ n ≤ 57) then digits r (10 * acc + Z.of_nat (n - 48))%Z else None
  end.

(** The text of the values the examples use. *)
Definition show (v : Value) : string :=
  match v with
  | VStr s => s
  | VNum n => pretty n
  | VUndef => "undefined"
  | _ => "[object Object]"
  end.

(** The operator [+] on the values the examples use. *)
Definition plus (a b : Value) : Value :=
  match a, b with
  | VNum x, VNum y => VNum (x + y)
  | _, _ => VStr (show a +:+ show b)
  end.

Definition atom (s : string) : Expr :=
  if startsWith "'" s then EConst (VStr (dropLast (dropFirst s)))
  else if startsWith "this." s then EGet (dropN 5 s)
  else if startsWith "`${this." s then EOp plus (EConst (VStr "")) (EGet (dropLast (dropLast (dropN 8 s))))
  else if startsWith "fetch(" s then EConst (VObj 0)
  else match s with
       | EmptyString => EConst VUndef
       | _ => match digits s 0 with Some n => EConst (VNum n) | None => EThrow end
       end.

Definition read (script : string) : Expr :=
  let body := if startsWith "return " script then dropN 7 script else script in
  match cutPlus body with
  | Some (a, b) => EOp plus (atom a) (atom b)
  | None => atom body
  end.

(** A host whose calls all return. *)
Definition js : Host :=
  {| parse := read; upperCase := λ c, c; stringOf := show; answer := λ _ _, Returns |}.

Definition attr (name value : string) : Attr := {| a_name := name; a_value := value |}.

Definition node (id : ElemId) (tag : string) (attrs : list Attr) (children : list Node) : Node :=
  MkNode id tag attrs "" children [].

(** [setup(document.body)] *)
Definition boot (fuel : nat) (body : Node) (w : World) : Outcome unit :=
  setup js fuel body (PSnap ∅) (Plain None) w.

End Demo.

(** The targets of a proxy and of its ancestors, innermost first. *)
Fixpoint chainTargets (p : Proxy) : list TargetId :=
  match p with
  | Plain _ => []
  | Prox t parent => t :: chainTargets parent
  end.

(** [n + 1] reads in a row; the value of the last one. *)
Fixpoint readAgain (n : nat) (p : Proxy) (key : string) : M Value :=
  match n with
  | 0 => proxyGet p key
  | S n' => _ ← proxyGet p key; readAgain n' p key
  end.

(** [parentstate] holds Signals of the scope chain only: whatever it
    maps a name to is the Signal some target of the chain has under that
    name. *)
Definition withinChain (w : World) (parentstate : PState) (pstate : Proxy) : Prop :=
  ∀ key s, lookupP w parentstate key = Some s →
    ∃ t, t ∈ chainTargets pstate ∧ own w t key = Some s.


(** The world right after the assignments of the [set] trap on an
    existing Signal [s] of the target [t], before [emit]. *)
Definition assigned (t : TargetId) (key : string) (s : SigId) (v : Value) (w : World) : World :=
  record (EvAssign s v)
    (withSignals (alter (setValue v) s)
       (withTargets (alter (setOld key (sigValue w s)) t) w)).


(** The world an outcome leaves. *)
Definition worldAfter {A} (o : Outcome A) : World :=
  match o with
  | Ret _ w | Threw _ w => w
  | OutOfFuel | Beyond => emptyWorld
  end.

(** Every listener of every Signal has its cleanup thunk on the element
    on whose behalf it was registered. *)
Definition covered (w : World) : Prop :=
  ∀ s l, l ∈ sigListeners w s →
    {| cl_signal := s; cl_listener := l |} ∈ default [] (cleanup w !! l_elem l).

(** [w'] is reached from [w] by running cleanup thunks: listeners are
    only removed, the cleanup arrays stay, the trace grows. *)
Record shrinks (w w' : World) : Prop := {
  sh_listeners : ∀ s l, l ∈ sigListeners w' s → l ∈ sigListeners w s;
  sh_cleanup : cleanup w' = cleanup w;
  sh_trace : trace w `prefix_of` trace w';
}.

(** Between [w] and [w'] the thunk [c] ran, and in [w'] its listener is
    not in its Signal. *)
Definition cleaned (w w' : World) (c : Cleanup) : Prop :=
  (∃ tr, trace w' = trace w ++ tr ∧ EvRemove c ∈ tr) ∧
  cl_listener c ∉ sigListeners w' (cl_signal c).

(** From [w0] on, no listener of an element of [removed] is in a Set or
    has been called. *)
Definition outside (removed : list ElemId) (w0 w : World) : Prop :=
  (∀ s l, l ∈ sigListeners w s → l_elem l ∉ removed) ∧
  ∃ tr, trace w = trace w0 ++ tr ∧ ∀ l s v, EvCall l s v ∈ tr → l_elem l ∉ removed.

(** The world after [s.addListener(l, l_elem l)]. *)
Definition registered (s : SigId) (l : Listener) (w : World) : World :=
  withCleanup (pushCleanup (l_elem l) {| cl_signal := s; cl_listener := l |})
    (withSignals (alter (setListeners (setAdd l)) s) w).


(** The body of the loop over the dependencies of a [#let]. *)
Definition subscribeDependency (elem : ElemId) (parentstate : PState) (state : TargetId)
    (pstate : Proxy) (casedVarName script dependency : string) : M unit :=
  s ← gets (λ w, lookupSignal w parentstate state dependency);
  subscribeNew s elem (CRecompute pstate casedVarName script).





(** The three stores. *)
Definition stores (w : World) : gmap string string * gmap string string * gmap string string :=
  (urlParams w, localStorage w, sessionStorage w).

(** The value a run returns. *)
Definition returned {A} (o : Outcome A) : option A :=
  match o with
  | Ret a _ => Some a
  | _ => None
  end.

(** The world in which the loops of the constructor start. *)
Definition constructed (c : ComponentDef) (this : ElemId) (w : World) : World :=
  withTargets (alter (setElement this) (length (targets w)))
    (withElemState (<[this := (length (targets w), Prox (length (targets w)) (Plain (Some this)))]>)
       (withTargets (λ l, l ++ [emptyTarget])
          (record (EvDom (DomAttachShadow this (n_content (c_elem c)))) w))).

(** The documents and worlds of the examples. *)
Module Docs.

Import Demo.

(** [<div #let:var1="'hello'"><input :placeholder="var1"></div>], set up
    as the body of a document. *)
Definition c1_body : Node :=
  Demo.node 1 "DIV" [Demo.attr "#let:var1" "'hello'"]
    [Demo.node 2 "INPUT" [Demo.attr ":placeholder" "var1"] []].

Definition c1_world : World := worldAfter (Demo.boot 3 c1_body emptyWorld).

(** The world in which the attributes of a lone root element are set
    up: its scope has just been created. *)
Definition rootWorld : World := withTargets (λ l, l ++ [emptyTarget]) emptyWorld.
Definition rootScope : Proxy := Prox 0 (Plain None).








(** The input of [c1_body], as the tree watcher finds it removed. *)
Definition c3_input : Node := node 2 "INPUT" [attr ":placeholder" "var1"] [].




(** [<div #let-local:val="'a'"><p #let-local:val="'b'"></p></div>]: the
    inner declaration names a variable that the root has declared. *)
Definition c5_nested_body : Node :=
  node 1 "DIV" [attr "#let-local:val" "'a'"] [node 2 "P" [attr "#let-local:val" "'b'"] []].

(** A plain declaration and a later write of its variable. *)
Definition c6_body : Node := node 1 "DIV" [attr "#let:count" "0"] [].

Definition c6_world : World := worldAfter (boot 3 c6_body emptyWorld).

Definition c6_after : World :=
  worldAfter (proxySet (emit Demo.js 3) rootScope "count" (VNum 5) c6_world).

(** [#let:var1="'hello'" #let:var2|var1="this.var1 + '!'"] on a root
    element: the world after the first attribute, then the second. *)
Definition c7_world : World :=
  worldAfter (setupAttribute Demo.js (emit Demo.js 3) 1 (attr "#let:var1" "'hello'")
                (PSnap ∅) 0 rootScope rootWorld).

Definition c7_attr : Attr := attr "#let:var2|var1" "this.var1 + '!'".

Definition c7_after : World :=
  worldAfter (setupLet Demo.js (emit Demo.js 3) 1 c7_attr (PSnap ∅) 0 rootScope c7_world).




(** [<body #let:v1="'hello'"><div></div></body>], and a [span] with
    [#let:v2|v1="this.v1 + '!'"] that a script adds to the [div]. *)
Definition c7_outer_body : Node := node 1 "BODY" [attr "#let:v1" "'hello'"] [node 2 "DIV" [] []].

Definition c7_outer_world : World := worldAfter (boot 3 c7_outer_body emptyWorld).

Definition c7_added : Mutation :=
  {| addedNodes := [(Some 2, node 3 "SPAN" [attr "#let:v2|v1" "this.v1 + '!'"] [])];
     removedNodes := [] |}.

(** A component template whose default reads a variable of the
    document around it, the component it defines, and an instance [7]
    constructed from it. *)
Definition c8_template : Node :=
  MkNode 2 "TEMPLATE" [attr "#component" "x-card"; attr "msg" "this.greeting"] "" [] [].

Definition c8_body : Node := node 1 "BODY" [attr "#let:greeting" "'hi'"] [c8_template].

Definition c8_world : World := worldAfter (boot 3 c8_body emptyWorld).

Definition c8_def : ComponentDef :=
  {| c_name := "x-card"; c_elem := c8_template; c_attributes := ["msg"];
     c_state := Prox 1 (Prox 0 (Plain None)) |}.

Definition c8_after : World := worldAfter (construct Demo.js (emit Demo.js 3) c8_def 7 c8_world).

(** The world in which the attributes of a child of the root are set
    up. *)
Definition c10_world : World :=
  withTargets (λ l, l ++ [emptyTarget]) rootWorld.

End Docs.

(** * The rest of the engine

    The parts of [src/ht.mjs] that the host runs on its own: the
    closures of a throttled event attribute and the three callbacks of
    [class Component]. *)

(** ** The closures of a throttled event attribute (ht.mjs 164-179)

    The listener [e => { pending = e; }] and the callback of
    [setInterval] share the variable [pending].  The host runs them in
    some order; [throttle] gives the events handed to
    [handlerWithDelay], in order, and the [pending] that is left. *)
Section Throttle.

(** Event objects. *)
Variable Ev : Type.

(** Whether [handlerWithDelay(e)] throws: the statement [pending = null]
    after it is then not reached. *)
Variable throws : Ev → bool.

Inductive HostStep :=
  | Dispatch (e : Ev)      (* the event listener runs *)
  | Interval.              (* the callback of setInterval runs *)

Definition throttleStep (pending : option Ev) (step : HostStep) : option Ev * list Ev :=
  match step with
  | Dispatch e => (Some e, [])
  | Interval =>
      match pending with
      | Some e => (if throws e then Some e else None, [e])
      | None => (None, [])
      end
  end.

Fixpoint throttle (pending : option Ev) (steps : list HostStep) : list Ev * option Ev :=
  match steps with
  | [] => ([], pending)
  | step :: rest =>
      let '(pending', handled) := throttleStep pending step in
      let '(later, final) := throttle pending' rest in
      (handled ++ later, final)
  end.

End Throttle.

Arguments Dispatch {Ev} e.
Arguments Interval {Ev}.
Arguments throttleStep {Ev} throws pending step.
Arguments throttle {Ev} throws pending steps.

(** ** The callbacks of class Component (ht.mjs 348-368)

    The host calls them on an instance [this]; [shadow] is
    [this.shadowRoot.children] at the time of the call.  [this.state]
    and [this.$state] are the properties [state] and [$state] of the
    element, the same that [setup] assigns and [undoSetup] deletes. *)

(** A script run while [this] is [undefined] (the function is strict):
    every access to [this] faults. *)
Fixpoint evalDetached (e : Expr) : M Value :=
  match e with
  | EConst v => mret v
  | EGet _ | EOld _ | EElement => throw (TypeError "this is undefined")
  | ESet _ e1 => _ ← evalDetached e1; throw (TypeError "this is undefined")
  | EOp f a b => x ← evalDetached a; y ← evalDetached b; mret (f x y)
  | EIf c a b => x ← evalDetached c; if truthyValue x then evalDetached a else evalDetached b
  | EThrow => throw UserError
  end.

(** [this.onConnectedScripts] and [this.onDisconnectedScripts] as the
    loop of the constructor fills them (ht.mjs 334-346). *)
Definition onConnectedScripts (c : ComponentDef) : list string :=
  n_textContent <$>
    List.filter (λ child, bool_decide (n_tagName child = "SCRIPT")
                          && hasAttribute "#onConnected" (n_attributes child))
      (n_content (c_elem c)).

Definition onDisconnectedScripts (c : ComponentDef) : list string :=
  n_textContent <$>
    List.filter (λ child, bool_decide (n_tagName child = "SCRIPT")
                          && negb (hasAttribute "#onConnected" (n_attributes child))
                          && hasAttribute "#onDisconnected" (n_attributes child))
      (n_content (c_elem c)).

Section Callbacks.

Variable js : Host.

(** [scopedEval(this.$state, script)] *)
Definition evalInstance (emit : SigId → M unit) (this : ElemId) (script : string) : M unit :=
  st ← gets (λ w, elemState w !! this);
  match st with
  | Some (_, pstate) => _ ← scopedEval js emit (ThisState pstate) script; mret ()
  | None => _ ← modify (record (EvEval script)); _ ← evalDetached (parse js script); mret ()
  end.

(** [connectedCallback()]: [setupChildren(this.shadowRoot, this.state,
    this.$state)], where arguments that are [undefined] take the
    defaults of [setup]; the registration of the shadow root with the
    tree watcher is the host's; then the scripts. *)
Definition connectedCallback (fuel : nat) (c : ComponentDef) (this : ElemId)
    (shadow : list Node) : M unit :=
  st ← gets (λ w, elemState w !! this);
  _ ← forEach (λ child,
         match st with
         | Some (state, pstate) => setup js fuel child (PLive state) pstate
         | None => setup js fuel child (PSnap ∅) (Plain None)
         end) shadow;
  forEach (evalInstance (emit js fuel) this) (onConnectedScripts c).

(** [disconnectedCallback()]; [undoSetup(this.shadowRoot)] finds no
    [cleanup] and no state on the shadow root itself. *)
Definition disconnectedCallback (fuel : nat) (c : ComponentDef) (this : ElemId)
    (shadow : list Node) : M unit :=
  _ ← forEach (evalInstance (emit js fuel) this) (onDisconnectedScripts c);
  _ ← modify (withElemState (delete this));
  forEach (λ child, modify (undoSetup child)) shadow.

(** [attributeChangedCallback(name, oldValue, newValue)] *)
Definition attributeChangedCallback (fuel : nat) (this : ElemId) (name : string)
    (newValue : Value) : M unit :=
  st ← gets (λ w, elemState w !! this);
  match st with
  | Some (_, pstate) => proxySet (emit js fuel) pstate name newValue
  | None => throw (TypeError "this.$state is undefined")
  end.

End Callbacks.

(** ** More vocabulary *)

(** The character [c] occurs in [s]. *)
Fixpoint occurs (c : ascii) (s : string) : bool :=
  match s with
  | EmptyString => false
  | String d r => bool_decide (c = d) || occurs c r
  end.

(** ["->"] occurs in [s]. *)
Fixpoint hasArrow (s : string) : bool :=
  match s with
  | EmptyString => false
  | String _ r => startsWith "->" s || hasArrow r
  end.

(** A word of a name in kebab case that follows a hyphen: it has no
    hyphen and starts with an ASCII character that is not a line
    terminator. *)
Definition kebabWord (word : string) : bool :=
  match word with
  | EmptyString => false
  | String c _ =>
      bool_decide (byte c < 128) && negb (isLineTerminator c) && negb (occurs "-" word)
  end.

(** The word with its first character in upper case. *)
Definition capitalize (word : string) : string :=
  match word with
  | EmptyString => EmptyString
  | String c r => String (toUpper c) r
  end.

(** [first-word1-word2-...] and [firstWord1Word2...]. *)
Definition kebabCase (first : string) (words : list string) : string :=
  first +:+ foldr (λ word rest, "-" +:+ word +:+ rest) "" words.

Definition camelCase (first : string) (words : list string) : string :=
  first +:+ foldr (λ word rest, capitalize word +:+ rest) "" words.

(** The outermost scope of the chain that has a Signal under the name,
    with that Signal. *)
Fixpoint outermost (w : World) (p : Proxy) (key : string) : option (TargetId * SigId) :=
  match p with
  | Plain _ => None
  | Prox t parent =>
      match outermost w parent key with
      | Some r => Some r
      | None => (λ s, (t, s)) <$> own w t key
      end
  end.

(** The scope and the Signal a name resolves to through a proxy: the
    traps ask [$parentstate] first.  A name of [Object.prototype]
    resolves to no Signal: it is found in the plain object that ends
    the chain. *)
Definition resolve (w : World) (p : Proxy) (key : string) : option (TargetId * SigId) :=
  if inherited key then None else outermost w p key.

(** The call into the host that a listener running no script makes when
    it is called with [val]. *)
Definition hostOp (js : Host) (l : Listener) (val : Value) : option DomOp :=
  match l_code l with
  | CSetter s => Some (setterOp s val)
  | CUrl var => Some (DomReplaceState var (toStr js val))
  | CLocal var => Some (DomSetItem false var (toStr js val))
  | CSession var => Some (DomSetItem true var (toStr js val))
  | CTemplate _ | CRecompute _ _ _ => None
  end.

(** The listener runs no script, and its call into the host with [val]
    returns whatever happened before. *)
Definition hostReturns (js : Host) (l : Listener) (val : Value) : Prop :=
  ∃ op, hostOp js l val = Some op ∧ ∀ tr, answer js tr op = Returns.

(** What a listener does first when it is called with [val]: its call
    into the host, or the evaluation of its script. *)
Definition opening (js : Host) (l : Listener) (val : Value) : list Event :=
  match l_code l with
  | CTemplate b => [EvEval ("return `" +:+ tb_value b +:+ "`")]
  | CRecompute _ _ script => [EvEval ("return " +:+ script)]
  | _ => match hostOp js l val with Some op => [EvDom op] | None => [] end
  end.

(** Every cleanup thunk of an element removes a listener that was
    registered on behalf of that element. *)
Definition tidy (w : World) : Prop :=
  ∀ e c, c ∈ default [] (cleanup w !! e) → l_elem (cl_listener c) = e.

(** Every target of the chain of [p] is an object of the store. *)
Definition wfChain (w : World) (p : Proxy) : Prop :=
  ∀ t, t ∈ chainTargets p → t < length (targets w).

(** The cleanup thunks [cs], run in order on the Signals [sigs]. *)
Definition removeAll (cs : list Cleanup) (sigs : list Signal) : list Signal :=
  fold_left (λ sg c, alter (setListeners (setDelete (cl_listener c))) (cl_signal c) sg) cs sigs.

(** Outside [ids] the elements carry the scopes of [m]. *)
Definition keptOutside (ids : list ElemId) (m : gmap ElemId (TargetId * Proxy)) (w : World) :
    Prop :=
  ∀ e, e ∉ ids → elemState w !! e = m !! e.

(** The collection answers by name a name that is no array index, no
    member of its prototype chain and has no upper-case letter. *)
Definition plainName (name : string) : Prop :=
  arrayIndex name = None ∧ (name ∉ namedNodeMapMembers) ∧ inherited name = false ∧
  hasUpper name = false.

(** A listener that runs no script, as a test. *)
Definition leafb (l : Listener) : bool :=
  match l_code l with
  | CSetter _ | CUrl _ | CLocal _ | CSession _ => true
  | CTemplate _ | CRecompute _ _ _ => false
  end.

(** Further documents and worlds for the examples. *)
Module MoreDocs.

Import Demo Docs.

(** Two scopes, the root and a child, whose child owns [x]. *)
Definition nested_world : World :=
  worldAfter (proxySet (emit Demo.js 3) (Prox 1 rootScope) "x" (VNum 1) c10_world).

(** A template binding on a root element that has declared [var1], its
    [dependencies] still empty, and the world after its first read of
    [var1]. *)
Definition scraper_world : World := withDepsets (λ l, l ++ [[]]) c7_world.

Definition scraper_binding : TemplateBinding :=
  {| tb_setter := SetAttr 1 "title" false; tb_value := "${this.var1}"; tb_state := rootScope;
     tb_parentstate := PSnap ∅; tb_own := 0; tb_deps := 0 |}.

Definition scraper_setter : Listener :=
  {| l_id := 9; l_elem := 1; l_code := CTemplate scraper_binding |}.

Definition scraper_after : World :=
  worldAfter (scraperGet scraper_binding scraper_setter "var1" scraper_world).

(** A host that refuses a position that [insertAdjacentHTML] does not
    know. *)
Definition strict : Host :=
  {| parse := Demo.read; upperCase := λ c, c; stringOf := Demo.show;
     answer := λ _ op,
       match op with
       | DomInsertAdjacentHTML _ position _ =>
           if bool_decide (lowercase position
                             ∈ ["beforebegin"; "afterbegin"; "beforeend"; "afterend"])
           then Returns else Throws (HostError "SyntaxError")
       | _ => Returns
       end |}.

(** A declaration whose name has a hyphen, set up on a root
    element. *)
Definition hyphen_attr : Attr := attr "#let:my-var" "'a'".

Definition hyphen_after : World :=
  worldAfter (setupLet Demo.js (emit Demo.js 3) 1 hyphen_attr (PSnap ∅) 0 rootScope rootWorld).

(** A response with a text body. *)
Definition fetch_res : Response :=
  {| status := 200; statusText := "OK"; body := λ _, Some (VStr "<li></li>");
     jsonEntries := None |}.

(** The instance of [c8_after], disconnected while its shadow root is
    empty. *)
Definition c8_disconnected : World :=
  worldAfter (disconnectedCallback Demo.js 3 c8_def 7 [] c8_after).

(** A document that declares [greeting] and [title], and a component
    with an external attribute [greeting]; an instance [7] of the
    component, inserted into the body as markup: it is constructed and
    connected, and the tree watcher then finds it among the nodes added;
    a later change of its attribute. *)
Definition c4_template : Node :=
  MkNode 2 "TEMPLATE" [attr "#component" "x-card"; attr "greeting" "'inner'"] "" [] [].

Definition c4_body : Node :=
  node 1 "BODY" [attr "#let:greeting" "'hi'"; attr "#let:title" "'doc'"] [c4_template].

Definition c4_world : World := worldAfter (boot 3 c4_body emptyWorld).

Definition c4_def : ComponentDef :=
  {| c_name := "x-card"; c_elem := c4_template; c_attributes := ["greeting"];
     c_state := Prox 1 rootScope |}.

Definition c4_constructed : World :=
  worldAfter (construct Demo.js (emit Demo.js 3) c4_def 7 c4_world).

Definition c4_added : Mutation :=
  {| addedNodes := [(Some 1, node 7 "X-CARD" [attr "greeting" "inner"] [])];
     removedNodes := [] |}.

Definition c4_watched : World := worldAfter (onMutations Demo.js 3 [c4_added] c4_constructed).

Definition c4_changed : World :=
  worldAfter (attributeChangedCallback Demo.js 3 7 "greeting" (VStr "x") c4_watched).

End MoreDocs.

(** * Properties of the string helpers *)

Example kebab_background js : kebabToCamelCase js "background-color" = "backgroundColor".
Proof. reflexivity. Qed.

Example kebab_escape js : kebabToCamelCase js "a--b" = "a-b".
Proof. reflexivity. Qed.

Example split_let : splitChar ":" "#let:v2|v1" = ["#let"; "v2|v1"].
Proof. reflexivity. Qed.

Example template_test :
  isTemplateLiteral "color: ${this.c};" = true ∧ isTemplateLiteral "${}" = false
  ∧ isTemplateLiteral "var1" = false.
Proof. repeat split; reflexivity. Qed.

Example arrow_target : trim (afterArrow "'u' -> #hello -> afterEnd") = "#hello -> afterEnd".
Proof. reflexivity. Qed.

(** * Reasoning about runs *)

Lemma after_bind {A B} (m : M A) (f : A → M B) (w : World)
    (P : A → World → Prop) (R : B → World → Prop) (Q : World → Prop) :
  after P Q (m w) →
  (∀ a w', P a w' → after R Q (f a w')) →
  after R Q ((m ≫= f) w).
Proof.
  intros Hm Hf. unfold mbind, M_bind.
  destruct (m w) as [| |e w'|a w']; simpl in *; auto.
Qed.

Lemma after_weaken {A} (P P' : A → World → Prop) (Q Q' : World → Prop) (o : Outcome A) :
  after P Q o → (∀ a w, P a w → P' a w) → (∀ w, Q w → Q' w) → after P' Q' o.
Proof. destruct o; simpl; auto. Qed.

Lemma bind_Ret {A B} (m : M A) (f : A → M B) (w w' : World) (b : B) :
  (m ≫= f) w = Ret b w' → ∃ a w1, m w = Ret a w1 ∧ f a w1 = Ret b w'.
Proof.
  unfold mbind, M_bind. destruct (m w) as [| |e w1|a w1]; try discriminate. eauto.
Qed.

Section Invariant.

Variable js : Host.
Variable I : World → Prop.
Variable okElem : ElemId → Prop.
Hypothesis kept : Kept I okElem.
Hypothesis keptAttr : KeptAttr I.
Hypothesis keptTree : KeptTree I.

Let I_listener := k_listener I okElem kept.
Let I_event := k_event I okElem kept.
Let I_call := k_call I okElem kept.
Let I_newSignal := k_newSignal I okElem kept.
Let I_assign := k_assign I okElem kept.
Let I_addListener := k_addListener I okElem kept.
Let I_depsets := k_depsets I okElem kept.
Let I_urlParams := k_urlParams I okElem kept.
Let I_localStorage := k_localStorage I okElem kept.
Let I_sessionStorage := k_sessionStorage I okElem kept.
Let I_jsvars := k_jsvars I keptAttr.
Let I_nextListener := k_nextListener I keptAttr.
Let I_elemState := k_elemState I keptTree.
Let I_newTarget := k_newTarget I keptTree.
Let I_setElement := k_setElement I keptTree.

Lemma keeps_ret {A} (a : A) : keeps I (mret a).
Proof. intros w Hw. exact Hw. Qed.

Lemma keeps_throw {A} (e : JsError) : keeps I (@throw A e).
Proof. intros w Hw. exact Hw. Qed.

Lemma keeps_gets {A} (f : World → A) : keeps I (gets f).
Proof. intros w Hw. exact Hw. Qed.

Lemma keeps_bind {A B} (m : M A) (f : A → M B) :
  keeps I m → (∀ a, keeps I (f a)) → keeps I (m ≫= f).
Proof.
  intros Hm Hf w Hw. eapply after_bind; [apply Hm, Hw|].
  intros a w' Hw'. apply Hf, Hw'.
Qed.

Lemma keeps_modify (f : World → World) : (∀ w, I w → I (f w)) → keeps I (modify f).
Proof. intros Hf w Hw. apply Hf, Hw. Qed.

Lemma keeps_forEach {A} (body : A → M unit) (xs : list A) :
  (∀ x, x ∈ xs → keeps I (body x)) → keeps I (forEach body xs).
Proof.
  induction xs as [|x r IH]; intros Hb; simpl.
  - apply keeps_ret.
  - apply keeps_bind; [apply Hb; left|].
    intros _. apply IH. intros y Hy. apply Hb. by right.
Qed.

Lemma keeps_hostCall op : keeps I (hostCall js op).
Proof.
  intros w Hw. unfold hostCall. destruct (answer js (trace w) op); simpl; auto.
  by apply I_event.
Qed.

Lemma keeps_ensureSignal t key w :
  I w → I (ensureSignal t key w).2.
Proof.
  intros Hw. unfold ensureSignal. destruct (own w t key) eqn:E; simpl; [exact Hw|].
  by apply I_newSignal.
Qed.

Lemma keeps_proxyGet p key : keeps I (proxyGet p key).
Proof.
  induction p as [c|t parent IH]; intros w Hw; simpl.
  - exact Hw.
  - destruct (hasP w parent key); [by apply IH|].
    pose proof (keeps_ensureSignal t key w Hw) as H.
    destruct (ensureSignal t key w) as [s w1]. exact H.
Qed.

Lemma keeps_assignLocal t key v w : I w → I (assignLocal t key v w).2.
Proof.
  intros Hw. unfold assignLocal.
  pose proof (keeps_ensureSignal t key w Hw) as H.
  destruct (ensureSignal t key w) as [s w1]. simpl in *. by apply I_assign.
Qed.

Lemma keeps_addListener s l : okElem (l_elem l) → keeps I (addListener s l (Some (l_elem l))).
Proof. intros Hok w Hw. unfold addListener. simpl. by apply I_addListener. Qed.

Lemma keeps_subscribe s l : okElem (l_elem l) → keeps I (subscribe s l (l_elem l)).
Proof.
  intros Hok. destruct s as [sid|]; simpl; [by apply keeps_addListener|apply keeps_throw].
Qed.

Lemma keeps_newListener elem c w :
  I w → after (λ l w', I w' ∧ l_elem l = elem) I (newListener elem c w).
Proof. intros Hw. simpl. split; [by apply I_nextListener|done]. Qed.

Lemma keeps_subscribeNew s elem c : okElem elem → keeps I (subscribeNew s elem c).
Proof.
  intros Hok w Hw. destruct s as [sid|]; simpl; [|exact Hw].
  by apply I_addListener; [|apply I_nextListener].
Qed.

Lemma keeps_applySetter s v : keeps I (applySetter js s v).
Proof. apply keeps_hostCall. Qed.

Section WithEmit.

Variable emit : SigId → M unit.
Hypothesis keeps_emit : ∀ s, keeps I (emit s).

Lemma keeps_proxySet p key v : keeps I (proxySet emit p key v).
Proof.
  induction p as [c|t parent IH]; intros w Hw; simpl.
  - done.
  - destruct (hasP w parent key); [by apply IH|].
    pose proof (keeps_assignLocal t key v w Hw) as H.
    destruct (assignLocal t key v w) as [s w1]. by apply keeps_emit.
Qed.

Lemma keeps_scraperGet b setter key :
  okElem (l_elem setter) → keeps I (scraperGet b setter key).
Proof.
  intros Hok. unfold scraperGet.
  apply keeps_bind; [apply keeps_proxyGet|]. intros val.
  apply keeps_bind; [apply keeps_gets|]. intros deps.
  case_bool_decide; [apply keeps_ret|].
  apply keeps_bind; [apply keeps_gets|]. intros s.
  apply keeps_bind; [by apply keeps_subscribe|]. intros _.
  apply keeps_bind; [apply keeps_modify; intros w; apply I_depsets|]. intros _.
  apply keeps_ret.
Qed.

Lemma keeps_thisGet this key : okThis okElem this → keeps I (thisGet this key).
Proof.
  destruct this as [p|b setter]; simpl; intros Hok;
    [apply keeps_proxyGet|by apply keeps_scraperGet].
Qed.

Lemma keeps_thisSet this key v : keeps I (thisSet emit this key v).
Proof. destruct this; apply keeps_proxySet. Qed.

Lemma keeps_thisOld this key : keeps I (thisOld this key).
Proof.
  destruct this as [[c|t p]|b setter]; simpl;
    first [apply keeps_gets|apply keeps_throw].
Qed.

Lemma keeps_thisElement this : keeps I (thisElement this).
Proof.
  destruct this as [[c|t p]|b setter]; simpl;
    first [apply keeps_gets|apply keeps_throw|apply keeps_ret].
Qed.

Lemma keeps_evalExpr this e : okThis okElem this → keeps I (evalExpr emit this e).
Proof.
  intros Hok. induction e as [v|key|key e IH|key| |f a IHa b IHb|c IHc a IHa b IHb|]; simpl.
  - apply keeps_ret.
  - by apply keeps_thisGet.
  - apply keeps_bind; [exact IH|]. intros v.
    apply keeps_bind; [apply keeps_thisSet|]. intros _. apply keeps_ret.
  - apply keeps_thisOld.
  - apply keeps_thisElement.
  - apply keeps_bind; [exact IHa|]. intros x.
    apply keeps_bind; [exact IHb|]. intros y. apply keeps_ret.
  - apply keeps_bind; [exact IHc|]. intros x. by destruct (truthyValue x).
  - apply keeps_throw.
Qed.

Lemma keeps_scopedEval this script : okThis okElem this → keeps I (scopedEval js emit this script).
Proof.
  intros Hok. unfold scopedEval.
  apply keeps_bind; [apply keeps_modify; intros w; by apply I_event|].
  intros _. by apply keeps_evalExpr.
Qed.

Lemma keeps_callListener l v : okElem (l_elem l) → keeps I (callListener js emit l v).
Proof.
  intros Hok. unfold callListener. destruct (l_code l) as [s|b|p var script|var|var|var].
  - apply keeps_applySetter.
  - apply keeps_bind; [by apply keeps_scopedEval|]. intros x. apply keeps_applySetter.
  - apply keeps_bind; [by apply keeps_scopedEval|]. intros x. apply keeps_proxySet.
  - apply keeps_bind; [apply keeps_modify; intros w; apply I_urlParams|]. intros _.
    apply keeps_hostCall.
  - apply keeps_bind; [apply keeps_hostCall|]. intros _.
    apply keeps_modify; intros w; apply I_localStorage.
  - apply keeps_bind; [apply keeps_hostCall|]. intros _.
    apply keeps_modify; intros w; apply I_sessionStorage.
Qed.

End WithEmit.

Lemma keeps_emitFrom fuel : ∀ s i, keeps I (emitFrom js fuel s i).
Proof.
  induction fuel as [|fuel IH]; intros s i w Hw; simpl; [done|].
  destruct (sigListeners w s !! i) as [l|] eqn:El; [|exact Hw].
  assert (okElem (l_elem l)) as Hok.
  { eapply I_listener; [exact Hw|]. eapply list_elem_of_lookup_2, El. }
  eapply after_bind with (P := λ _ w', I w').
  { simpl. by eapply I_call. }
  intros _ w1 Hw1. eapply after_bind with (P := λ _ w', I w').
  { apply keeps_callListener; [|exact Hok|exact Hw1]. intros s'. apply IH. }
  intros _ w2 Hw2. apply IH, Hw2.
Qed.

Lemma keeps_emit fuel s : keeps I (emit js fuel s).
Proof. apply keeps_emitFrom. Qed.

Section WithEmit'.

Variable emit : SigId → M unit.
Hypothesis keeps_emit' : ∀ s, keeps I (emit s).

Lemma keeps_setupEvent elem attr pstate : keeps I (setupEvent js emit elem attr pstate).
Proof.
  unfold setupEvent. destruct (splitChar _ _) as [|rawEventName rawArgs]; [apply keeps_ret|].
  apply keeps_bind.
  { destruct (truthy _); [apply keeps_ret|].
    apply keeps_bind; [by apply keeps_scopedEval|]. intros v. apply keeps_ret. }
  intros h. apply keeps_bind; [apply keeps_hostCall|].
  intros _. destruct (truthy _); [|apply keeps_ret].
  apply keeps_hostCall.
Qed.

Lemma keeps_setupBinding elem attr parentstate state pstate :
  okElem elem → keeps I (setupBinding js emit elem attr parentstate state pstate).
Proof.
  intros Hok w Hw. unfold setupBinding.
  eapply after_bind with (P := λ l w', I w' ∧ l_elem l = elem).
  { destruct (isTemplateLiteral _).
    - eapply after_bind with (P := λ _ w', I w'); [by apply I_depsets|].
      intros d w1 Hw1. by apply keeps_newListener.
    - eapply after_bind; [by apply keeps_newListener|].
      intros l w1 [Hw1 <-]. eapply after_bind with (P := λ _ w', I w'); [exact Hw1|].
      intros sg w2 Hw2. eapply after_bind with (P := λ _ w', I w').
      + by apply keeps_subscribe.
      + intros _ w3 Hw3. by split. }
  intros l w1 [Hw1 <-]. eapply after_bind; [by apply keeps_proxyGet|].
  intros v w2 Hw2. by apply keeps_callListener.
Qed.

Lemma keeps_setupLet elem attr parentstate state pstate :
  okElem elem → keeps I (setupLet js emit elem attr parentstate state pstate).
Proof.
  intros Hok. unfold setupLet.
  destruct (splitChar ":" _) as [|? [|decl ?]]; try apply keeps_throw.
  destruct (splitChar "|" decl) as [|varName dependencies]; [apply keeps_ret|].
  apply keeps_bind; [apply keeps_gets|]. intros value.
  apply keeps_bind.
  { destruct value; [apply keeps_ret|by apply keeps_scopedEval]. }
  intros v. apply keeps_bind; [by apply keeps_proxySet|]. intros _.
  apply keeps_bind.
  { apply keeps_forEach. intros dependency _.
    apply keeps_bind; [apply keeps_gets|]. intros sg. by apply keeps_subscribeNew. }
  intros _. apply keeps_bind; [apply keeps_gets|]. intros sg. by apply keeps_subscribeNew.
Qed.

Lemma keeps_setupAttribute elem attr parentstate state pstate :
  okElem elem → keeps I (setupAttribute js emit elem attr parentstate state pstate).
Proof.
  intros Hok. unfold setupAttribute.
  destruct (startsWith "@" _); [apply keeps_setupEvent|].
  destruct (startsWith ":" _); [by apply keeps_setupBinding|].
  destruct (startsWith "#let" _); [by apply keeps_setupLet|].
  case_bool_decide; [|apply keeps_ret].
  apply keeps_modify; intros w; apply I_jsvars.
Qed.

Lemma keeps_readBody res datatype : keeps I (readBody res datatype).
Proof. unfold readBody. destruct (body res _); [apply keeps_ret|apply keeps_throw]. Qed.

Lemma keeps_insertAtTarget target content : keeps I (insertAtTarget js target content).
Proof.
  unfold insertAtTarget. destruct (splitArrow2 target) as [targetQuery insertionPoint].
  apply keeps_hostCall.
Qed.

Lemma keeps_fetchHandler query pstate datatype res :
  keeps I (fetchHandler js emit query pstate datatype res).
Proof.
  unfold fetchHandler.
  apply keeps_bind; [by apply keeps_scopedEval|]. intros _.
  destruct (negb (ok res)); [apply keeps_modify; intros w; by apply I_event|].
  case_bool_decide.
  { destruct (jsonEntries res); [|apply keeps_throw].
    apply keeps_forEach. intros kv _. by apply keeps_proxySet. }
  case_bool_decide.
  { apply keeps_bind; [apply keeps_readBody|]. intros content.
    apply keeps_modify; intros w; by apply I_event. }
  apply keeps_bind; [apply keeps_gets|]. intros [|].
  - apply keeps_bind; [apply keeps_readBody|]. intros content. by apply keeps_proxySet.
  - apply keeps_bind; [apply keeps_readBody|]. intros content.
    apply keeps_insertAtTarget.
Qed.

Lemma keeps_createStateSignals parent : keeps I (createStateSignals parent).
Proof. intros w Hw. simpl. by apply I_newTarget. Qed.

Lemma keeps_setupComponent elem pstate : keeps I (setupComponent js elem pstate).
Proof.
  unfold setupComponent. destruct (attributeValue _ _); [|apply keeps_throw].
  apply keeps_hostCall.
Qed.

Lemma keeps_constructLoops c this state pstate :
  okElem (n_id (c_elem c)) → keeps I (constructLoops js emit c this state pstate).
Proof.
  intros Hok. unfold constructLoops.
  apply keeps_bind.
  { apply keeps_forEach. intros attr _. destruct (attributeValue _ _); [|apply keeps_throw].
    apply keeps_bind; [by apply keeps_scopedEval|]. intros value.
    apply keeps_bind; [apply keeps_hostCall|]. intros _.
    by apply keeps_proxySet. }
  intros _. apply keeps_bind.
  { apply keeps_forEach. intros attr _. by apply keeps_setupAttribute. }
  intros _. apply keeps_forEach. intros child _.
  case_bool_decide; [|apply keeps_ret].
  destruct (hasAttribute _ _); [apply keeps_ret|].
  destruct (hasAttribute _ _); [apply keeps_ret|].
  apply keeps_bind; [by apply keeps_scopedEval|]. intros _. apply keeps_ret.
Qed.

Lemma keeps_construct c this :
  okElem (n_id (c_elem c)) → keeps I (construct js emit c this).
Proof.
  intros Hok. unfold construct.
  apply keeps_bind; [apply keeps_hostCall|]. intros _.
  apply keeps_bind; [apply keeps_createStateSignals|]. intros [state pstate].
  apply keeps_bind; [apply keeps_modify; intros w; apply I_elemState|]. intros _.
  apply keeps_bind; [apply keeps_modify; intros w; apply I_setElement|]. intros _.
  by apply keeps_constructLoops.
Qed.

End WithEmit'.

Lemma keeps_setup fuel elem :
  (∀ e, okElem e) → ∀ parentstate pparentstate, keeps I (setup js fuel elem parentstate pparentstate).
Proof.
  intros Hok. induction elem as [id tagName attributes textContent children content IH]
    using Node_children_ind.
  intros parentstate pparentstate. cbn [setup].
  apply keeps_bind; [apply keeps_createStateSignals|]. intros [state pstate].
  apply keeps_bind; [apply keeps_modify; intros w; apply I_elemState|]. intros _.
  apply keeps_bind; [apply keeps_modify; intros w; apply I_setElement|]. intros _.
  destruct (_ && _); [apply keeps_setupComponent|].
  apply keeps_bind.
  { apply keeps_forEach. intros attr _. apply keeps_setupAttribute; [|apply Hok].
    intros s. apply keeps_emit. }
  intros _. apply keeps_bind; [apply keeps_gets|]. intros merged.
  induction IH as [|child rest Hchild _ IHrest]; [apply keeps_ret|].
  apply keeps_bind; [apply Hchild|]. intros _. exact IHrest.
Qed.

End Invariant.

(** ** Reading the store after an update *)

Lemma sigAt_alter (f : Signal → Signal) (s s' : SigId) (w : World) :
  sigAt (withSignals (alter f s) w) s' =
    if decide (s = s') then default newSignalObject (f <$> signals w !! s) else sigAt w s'.
Proof.
  unfold sigAt; simpl. destruct (decide (s = s')) as [->|Hne].
  - by rewrite list_lookup_alter_eq.
  - by rewrite list_lookup_alter_ne.
Qed.

Lemma sigListeners_setValue v s s' w :
  sigListeners (withSignals (alter (setValue v) s) w) s' = sigListeners w s'.
Proof.
  unfold sigListeners. rewrite sigAt_alter. case_decide; [subst s'|done].
  unfold sigAt. by destruct (signals w !! s).
Qed.

Lemma sigListeners_setListeners f s s' w :
  f [] = [] ∨ s < length (signals w) →
  sigListeners (withSignals (alter (setListeners f) s) w) s' =
    if decide (s = s') then f (sigListeners w s') else sigListeners w s'.
Proof.
  intros Hf. unfold sigListeners. rewrite sigAt_alter.
  case_decide; [subst s'|done].
  unfold sigAt. destruct (signals w !! s) eqn:E; [done|]. simpl.
  destruct Hf as [Hf|Hlt]; [done|]. apply lookup_ge_None in E. lia.
Qed.

Lemma sigValue_setListeners f s s' w :
  sigValue (withSignals (alter (setListeners f) s) w) s' = sigValue w s'.
Proof.
  unfold sigValue. rewrite sigAt_alter. case_decide; [subst s'|done].
  unfold sigAt. by destruct (signals w !! s).
Qed.


Lemma sigValue_setValue_ne v s s' w :
  s ≠ s' → sigValue (withSignals (alter (setValue v) s) w) s' = sigValue w s'.
Proof. intros Hne. unfold sigValue. rewrite sigAt_alter. by case_decide. Qed.

Lemma sigAt_new s w :
  sigAt (withSignals (λ l, l ++ [newSignalObject]) w) s = sigAt w s.
Proof.
  unfold sigAt; simpl. destruct (decide (s < length (signals w))) as [Hlt|Hge].
  - by rewrite lookup_app_l.
  - rewrite (proj2 (lookup_ge_None (signals w) s)); [|lia].
    destruct (decide (s = length (signals w))) as [->|Hne].
    + by rewrite list_lookup_middle.
    + rewrite (proj2 (lookup_ge_None _ s)); [done|]. rewrite length_app; simpl; lia.
Qed.

Lemma setAdd_prefix l ls : ls `prefix_of` setAdd l ls.
Proof. unfold setAdd. destruct (existsb _ _); [done|]. by apply prefix_app_r. Qed.

Lemma setAdd_elem l x ls : x ∈ setAdd l ls → x ∈ ls ∨ x = l.
Proof.
  unfold setAdd. destruct (existsb _ _); [by left|].
  rewrite elem_of_app, list_elem_of_singleton. tauto.
Qed.

Lemma targetAt_alter (f : Target → Target) (t t' : TargetId) (w : World) :
  f emptyTarget = emptyTarget ∨ t < length (targets w) ∨ t ≠ t' →
  targetAt (withTargets (alter f t) w) t' = if decide (t = t') then f (targetAt w t') else targetAt w t'.
Proof.
  intros Hf. unfold targetAt; simpl. destruct (decide (t = t')) as [->|Hne].
  - rewrite list_lookup_alter_eq. destruct (targets w !! t') eqn:E; [done|]. simpl.
    destruct Hf as [Hf|[Hlt|Hne]]; [done| |done]. apply lookup_ge_None in E. lia.
  - by rewrite list_lookup_alter_ne.
Qed.

Lemma own_setOld key v t t' k w :
  own (withTargets (alter (setOld key v) t) w) t' k = own w t' k.
Proof.
  unfold own, targetAt; simpl. destruct (decide (t = t')) as [->|Hne].
  - rewrite list_lookup_alter_eq. by destruct (targets w !! t').
  - by rewrite list_lookup_alter_ne.
Qed.

Lemma own_setElement e t t' k w :
  own (withTargets (alter (setElement e) t) w) t' k = own w t' k.
Proof.
  unfold own, targetAt; simpl. destruct (decide (t = t')) as [->|Hne].
  - rewrite list_lookup_alter_eq. by destruct (targets w !! t').
  - by rewrite list_lookup_alter_ne.
Qed.

Lemma own_addSignal key s t t' k w :
  own (withTargets (alter (addSignal key s) t) w) t' k =
    if decide (t = t' ∧ key = k ∧ t < length (targets w)) then Some s else own w t' k.
Proof.
  unfold own, targetAt; simpl. destruct (decide (t = t')) as [->|Hne].
  - rewrite list_lookup_alter_eq. destruct (targets w !! t') eqn:E; simpl.
    + apply lookup_lt_Some in E. destruct (decide (key = k)) as [->|Hk].
      * rewrite lookup_insert_eq. by rewrite decide_True.
      * rewrite lookup_insert_ne by done. rewrite decide_False; [done|tauto].
    + apply lookup_ge_None in E. rewrite decide_False; [done|lia].
  - rewrite list_lookup_alter_ne by done. rewrite decide_False; [done|tauto].
Qed.

Lemma own_newTarget t k w :
  own (withTargets (λ l, l ++ [emptyTarget]) w) t k = own w t k.
Proof.
  unfold own, targetAt; simpl. destruct (decide (t < length (targets w))) as [Hlt|Hge].
  - by rewrite lookup_app_l.
  - rewrite (proj2 (lookup_ge_None (targets w) t)); [|lia].
    destruct (decide (t = length (targets w))) as [->|Hne].
    + by rewrite list_lookup_middle.
    + rewrite (proj2 (lookup_ge_None _ t)); [done|]. rewrite length_app; simpl; lia.
Qed.

Lemma wfNames_kept : Kept wfNames (λ _, True).
Proof.
  split; try done.
  - intros t key w Hnone Hw t' k s.
    change (own (withTargets (alter (addSignal key (length (signals w))) t)
                   (withSignals (λ l, l ++ [newSignalObject]) w)) t' k = Some s
            → s < length (signals w ++ [newSignalObject])).
    rewrite own_addSignal, length_app; simpl. case_decide.
    + intros [= <-]. lia.
    + intros Hs. apply Hw in Hs. lia.
  - intros t key s v w Hw t' k s'.
    change (own (withTargets (alter (setOld key (sigValue w s)) t) w) t' k = Some s'
            → s' < length (alter (setValue v) s (signals w))).
    rewrite own_setOld, length_alter. apply Hw.
  - intros s l w _ Hw t' k s'.
    change (own w t' k = Some s' → s' < length (alter (setListeners (setAdd l)) s (signals w))).
    rewrite length_alter. apply Hw.
Qed.

Lemma wfNames_keptAttr : KeptAttr wfNames.
Proof. split; intros; assumption. Qed.

Lemma wfNames_keptTree : KeptTree wfNames.
Proof.
  split; try done.
  - intros w Hw t k s.
    change (own (withTargets (λ l, l ++ [emptyTarget]) w) t k = Some s → s < length (signals w)).
    rewrite own_newTarget. apply Hw.
  - intros e t w Hw t' k s.
    change (own (withTargets (alter (setElement e) t) w) t' k = Some s → s < length (signals w)).
    rewrite own_setElement. apply Hw.
Qed.

Lemma wfNames_emptyWorld : wfNames emptyWorld.
Proof. intros t key s. unfold own, targetAt; simpl. by rewrite lookup_empty. Qed.

Lemma evolves_refl w : evolves w w.
Proof. split; try done. Qed.

Lemma evolves_trans w0 w1 w2 : evolves w0 w1 → evolves w1 w2 → evolves w0 w2.
Proof.
  intros [T1 L1 O1 S1 G1 V1 N1 C1 W1] [T2 L2 O2 S2 G2 V2 N2 C2 W2]. split.
  - etrans; eassumption.
  - intros s. etrans; [apply L1|apply L2].
  - eauto.
  - lia.
  - lia.
  - intros s tr Htr Hno. destruct T1 as [a Ha], T2 as [b Hb].
    assert (tr = a ++ b) as ->.
    { rewrite Hb, Ha, <- app_assoc in Htr. by apply app_inv_head in Htr. }
    rewrite (V2 s b Hb), (V1 s a Ha); [done| |];
      intros v Hv; apply (Hno v); rewrite elem_of_app; tauto.
  - lia.
  - intros e. etrans; [apply C1|apply C2].
  - auto.
Qed.

(** A step that leaves the Signals, the names and the cleanup arrays as
    they are and records events that are not assignments. *)
Lemma evolves_frame w w' tr :
  trace w' = trace w ++ tr →
  (∀ s v, EvAssign s v ∉ tr) →
  signals w' = signals w →
  targets w' = targets w →
  cleanup w' = cleanup w →
  nextListener w ≤ nextListener w' →
  evolves w w'.
Proof.
  intros Ht Hno Hs Hg Hc Hn. split; try done.
  - by exists tr.
  - intros s. unfold sigListeners, sigAt. by rewrite Hs.
  - intros t key s. unfold own, targetAt. by rewrite Hg.
  - by rewrite Hs.
  - by rewrite Hg.
  - intros s tr' _ _. unfold sigValue, sigAt. by rewrite Hs.
  - intros e. by rewrite Hc.
  - intros Hwf t key s. unfold own, targetAt. rewrite Hg, Hs. apply Hwf.
Qed.

Lemma evolves_record e w : (∀ s v, e ≠ EvAssign s v) → evolves w (record e w).
Proof.
  intros He. apply evolves_frame with (tr := [e]); try done.
  intros s v Hin. apply list_elem_of_singleton in Hin. by apply (He s v).
Qed.

Lemma evolves_plain e w : plainEvent e → evolves w (record e w).
Proof. intros He. apply evolves_record. intros s v ->. exact He. Qed.

Lemma evolves_newSignal t key w :
  own w t key = None →
  evolves w (record (EvNewSignal t key (length (signals w)))
               (withTargets (alter (addSignal key (length (signals w))) t)
                  (withSignals (λ l, l ++ [newSignalObject]) w))).
Proof.
  intros Hnone. split; simpl.
  - by apply prefix_app_r.
  - intros s. unfold sigListeners. by rewrite <- (sigAt_new s w).
  - intros t' k s Hs.
    change (own (withTargets (alter (addSignal key (length (signals w))) t) w) t' k = Some s).
    rewrite own_addSignal. case_decide as Hd; [|done].
    destruct Hd as (-> & -> & _). congruence.
  - rewrite length_app; simpl; lia.
  - by rewrite length_alter.
  - intros s tr _ _. unfold sigValue. by rewrite <- (sigAt_new s w).
  - done.
  - done.
  - by apply (k_newSignal _ _ wfNames_kept).
Qed.

Lemma evolves_assign t key s v w :
  evolves w (record (EvAssign s v)
               (withSignals (alter (setValue v) s)
                  (withTargets (alter (setOld key (sigValue w s)) t) w))).
Proof.
  split; simpl.
  - by apply prefix_app_r.
  - intros s'.
    change (sigListeners w s' `prefix_of`
      sigListeners (withSignals (alter (setValue v) s) w) s').
    by rewrite sigListeners_setValue.
  - intros t' k s' Hs.
    change (own (withTargets (alter (setOld key (sigValue w s)) t) w) t' k = Some s').
    by rewrite own_setOld.
  - by rewrite length_alter.
  - by rewrite length_alter.
  - intros s' tr Htr Hno. apply app_inv_head in Htr. subst tr.
    change (sigValue (withSignals (alter (setValue v) s) w) s' = sigValue w s').
    apply sigValue_setValue_ne. intros ->. apply (Hno v). by left.
  - done.
  - done.
  - apply (k_assign _ _ wfNames_kept).
Qed.

Lemma evolves_addListener s l e w :
  evolves w (withCleanup (pushCleanup e {| cl_signal := s; cl_listener := l |})
               (withSignals (alter (setListeners (setAdd l)) s) w)).
Proof.
  split; simpl; try done.
  - intros s'.
    change (sigListeners w s' `prefix_of`
      sigListeners (withSignals (alter (setListeners (setAdd l)) s) w) s').
    unfold sigListeners. rewrite sigAt_alter. case_decide; [subst s'|done].
    unfold sigAt. destruct (signals w !! s); simpl; [apply setAdd_prefix|done].
  - by rewrite length_alter.
  - intros s' tr _ _.
    change (sigValue (withSignals (alter (setListeners (setAdd l)) s) w) s' = sigValue w s').
    apply sigValue_setListeners.
  - intros e'. unfold pushCleanup. destruct (decide (e = e')) as [->|Hne].
    + rewrite lookup_insert_eq. simpl. by apply prefix_app_r.
    + by rewrite lookup_insert_ne.
  - intros Hwf t' k s'.
    change (own w t' k = Some s' → s' < length (alter (setListeners (setAdd l)) s (signals w))).
    rewrite length_alter. apply Hwf.
Qed.

Lemma evolves_newTarget w : evolves w (withTargets (λ l, l ++ [emptyTarget]) w).
Proof.
  split; simpl; try done.
  - intros t k s Hs.
    change (own (withTargets (λ l, l ++ [emptyTarget]) w) t k = Some s).
    by rewrite own_newTarget.
  - rewrite length_app; simpl; lia.
  - apply (k_newTarget _ wfNames_keptTree).
Qed.

Lemma evolves_setElement e t w : evolves w (withTargets (alter (setElement e) t) w).
Proof.
  split; simpl; try done.
  - intros t' k s Hs.
    change (own (withTargets (alter (setElement e) t) w) t' k = Some s).
    by rewrite own_setElement.
  - by rewrite length_alter.
  - apply (k_setElement _ wfNames_keptTree).
Qed.

Lemma evolves_nextListener w : evolves w (withNextListener (S (nextListener w)) w).
Proof. split; simpl; try done. lia. Qed.

(** An update of a field that [evolves] does not read. *)
Lemma evolves_other w w' :
  trace w' = trace w → signals w' = signals w → targets w' = targets w →
  cleanup w' = cleanup w → nextListener w' = nextListener w → evolves w w'.
Proof.
  intros Ht Hs Hg Hc Hn. apply evolves_frame with (tr := []); try done.
  - by rewrite app_nil_r.
  - intros s v Hin. by apply not_elem_of_nil in Hin.
  - lia.
Qed.

(** Every function of the engine makes the world evolve. *)
Lemma evolves_kept w0 : Kept (evolves w0) (λ _, True).
Proof.
  split; try done; intros; (eapply evolves_trans; [eassumption|]).
  - by apply evolves_plain.
  - by apply evolves_record.
  - by apply evolves_newSignal.
  - apply evolves_assign.
  - apply evolves_addListener.
  - by apply evolves_other.
  - by apply evolves_other.
  - by apply evolves_other.
  - by apply evolves_other.
Qed.

Lemma evolves_keptAttr w0 : KeptAttr (evolves w0).
Proof.
  split; intros; (eapply evolves_trans; [eassumption|]).
  - by apply evolves_other.
  - apply evolves_nextListener.
Qed.

Lemma evolves_keptTree w0 : KeptTree (evolves w0).
Proof.
  split; intros; (eapply evolves_trans; [eassumption|]).
  - by apply evolves_other.
  - apply evolves_newTarget.
  - apply evolves_setElement.
Qed.

(** * The scope chain *)

Lemma declaredIn_false w p key :
  declaredIn w p key = false ↔ ∀ t, t ∈ chainTargets p → own w t key = None.
Proof.
  induction p as [c|t parent IH]; simpl.
  - split; [|done]. intros _ t Ht. by apply not_elem_of_nil in Ht.
  - rewrite orb_false_iff, IH, bool_decide_eq_false. split.
    + intros [Hp Ht] t' Ht'. apply elem_of_cons in Ht' as [->|Ht'].
      * destruct (own w t key); [|done]. exfalso. eauto.
      * by apply Hp.
    + intros H. split.
      * intros t' Ht'. apply H. by right.
      * rewrite (H t); [|by left]. by intros [x Hx].
Qed.

Lemma declaredIn_true w p key :
  declaredIn w p key = true ↔ ∃ t s, t ∈ chainTargets p ∧ own w t key = Some s.
Proof.
  induction p as [c|t parent IH]; simpl.
  - split; [done|]. intros (t & s & Ht & _). by apply not_elem_of_nil in Ht.
  - rewrite orb_true_iff, IH, bool_decide_eq_true. split.
    + intros [(t' & s & Ht' & Hs)|[s Hs]].
      * exists t', s. split; [by right|done].
      * exists t, s. split; [by left|done].
    + intros (t' & s & Ht' & Hs). apply elem_of_cons in Ht' as [->|Ht'].
      * right. by exists s.
      * left. by exists t', s.
Qed.

(** The [has] trap finds the names of [Object.prototype] and the names
    declared in the chain. *)
Lemma hasP_declaredIn w p key : hasP w p key = inherited key || declaredIn w p key.
Proof.
  induction p as [c|t parent IH]; simpl; [by rewrite orb_false_r|].
  rewrite IH. by rewrite orb_assoc.
Qed.

Lemma hasP_false w p key :
  hasP w p key = false → ∀ t, t ∈ chainTargets p → own w t key = None.
Proof.
  rewrite hasP_declaredIn, orb_false_iff. intros [_ H]. by apply declaredIn_false.
Qed.

Lemma hasP_inherited w p key : hasP w p key = false → inherited key = false.
Proof. rewrite hasP_declaredIn, orb_false_iff. by intros [H _]. Qed.

Lemma hasP_fresh w p key :
  inherited key = false → (∀ t, t ∈ chainTargets p → own w t key = None) →
  hasP w p key = false.
Proof.
  intros Hi H. rewrite hasP_declaredIn, Hi. simpl. by apply declaredIn_false.
Qed.

Lemma hasP_true w p key :
  (∃ t s, t ∈ chainTargets p ∧ own w t key = Some s) → hasP w p key = true.
Proof.
  intros H. rewrite hasP_declaredIn. apply orb_true_iff. right. by apply declaredIn_true.
Qed.

Lemma hasP_owner w p key :
  inherited key = false → hasP w p key = true →
  ∃ t s, t ∈ chainTargets p ∧ own w t key = Some s.
Proof.
  intros Hi. rewrite hasP_declaredIn, Hi. simpl. by rewrite declaredIn_true.
Qed.

(** A read of a declared name whose Signals along the chain all hold
    [v] returns [v] and changes nothing. *)
Lemma proxyGet_stable w p key v :
  inherited key = false →
  hasP w p key = true →
  (∀ t s, t ∈ chainTargets p → own w t key = Some s → sigValue w s = v) →
  proxyGet p key w = Ret v w.
Proof.
  intros Hi. induction p as [c|t parent IH]; simpl; [by rewrite Hi|].
  intros Hhas Hval. destruct (hasP w parent key) eqn:Hp.
  - apply IH; [done|]. intros t' s Ht'. apply Hval. by right.
  - simpl in Hhas. apply bool_decide_eq_true in Hhas as [s Hs].
    unfold ensureSignal. rewrite Hs. f_equal. apply (Hval t s); [by left|done].
Qed.

(** C2 (amended).  In a scope [Prox t parent] that does not have [key]
    ([key in $state] is false: no scope of the chain declares it, and it
    is not the name of a property of [Object.prototype], which the plain
    object that ends the chain inherits), the first read returns
    [undefined] and creates exactly one Signal, attached to the scope's
    own target under [key]: the store of Signals grows by one fresh
    Signal and no other name of any target changes.  Any number of
    further reads return the same value and leave the whole world, hence
    the Signals, as the first read left it. *)
Theorem C2_first_read_creates_one_signal
    (w : World) (t : TargetId) (parent : Proxy) (key : string) :
  t < length (targets w) →
  hasP w (Prox t parent) key = false →
  ∃ w1,
    proxyGet (Prox t parent) key w = Ret VUndef w1 ∧
    signals w1 = signals w ++ [newSignalObject] ∧
    own w1 t key = Some (length (signals w)) ∧
    (∀ t' k, (t', k) ≠ (t, key) → own w1 t' k = own w t' k) ∧
    (∀ n, readAgain n (Prox t parent) key w1 = Ret VUndef w1).
Proof.
  intros Ht Hhas.
  pose proof (hasP_false _ _ _ Hhas) as Hnone.
  pose proof (hasP_inherited _ _ _ Hhas) as Hi.
  simpl in Hhas. apply orb_false_iff in Hhas as [Hp Ho].
  assert (own w t key = None) as Hown by (apply Hnone; by left).
  set (w1 := record (EvNewSignal t key (length (signals w)))
               (withTargets (alter (addSignal key (length (signals w))) t)
                  (withSignals (λ l, l ++ [newSignalObject]) w))).
  assert (∀ t' k, own w1 t' k =
            if decide (t = t' ∧ key = k ∧ t < length (targets w))
            then Some (length (signals w)) else own w t' k) as Hown1.
  { intros t' k. apply (own_addSignal key (length (signals w)) t t' k
      (withSignals (λ l, l ++ [newSignalObject]) w)). }
  assert (sigValue w1 (length (signals w)) = VUndef) as Hval.
  { unfold sigValue, sigAt, w1; simpl. by rewrite list_lookup_middle. }
  assert (proxyGet (Prox t parent) key w1 = Ret VUndef w1) as Hagain.
  { apply proxyGet_stable; [exact Hi| |].
    - apply hasP_true. exists t, (length (signals w)). split; [by left|].
      rewrite Hown1. by rewrite decide_True.
    - intros t' s Ht' Hs. rewrite Hown1 in Hs. case_decide as Hd.
      + by injection Hs as <-.
      + rewrite (Hnone t' Ht') in Hs. discriminate. }
  exists w1. split; [|split; [|split; [|split]]].
  - simpl. rewrite Hp. unfold ensureSignal. rewrite Hown. fold w1. by rewrite Hval.
  - done.
  - rewrite Hown1. by rewrite decide_True.
  - intros t' k Hne. rewrite Hown1. rewrite decide_False; [done|].
    intros (-> & -> & _). by apply Hne.
  - intros n. induction n as [|n IH]; [exact Hagain|].
    cbn [readAgain]. unfold mbind, M_bind. rewrite Hagain. exact IH.
Qed.

(** C2 at work: the first read of [x] in a fresh root scope. *)
Lemma C2_witness :
  ∃ w1,
    proxyGet (Prox 0 (Plain None)) "x" (withTargets (λ l, l ++ [emptyTarget]) emptyWorld)
      = Ret VUndef w1 ∧
    signals w1 = [newSignalObject] ∧
    own w1 0 "x" = Some 0 ∧
    (∀ n, readAgain n (Prox 0 (Plain None)) "x" w1 = Ret VUndef w1).
Proof.
  destruct (C2_first_read_creates_one_signal
              (withTargets (λ l, l ++ [emptyTarget]) emptyWorld) 0 (Plain None) "x")
    as (w1 & H1 & H2 & H3 & _ & H5); [simpl; lia|reflexivity|].
  exists w1. repeat split; assumption.
Defined.

(** * The fetch handler on a failed response *)

Section Fetch.

Variable js : Host.

(** C9.  When the response has a non-success status, the fetch handler
    returns without throwing, and the world it leaves is the world in
    which the response arrived (after the request's arguments were
    evaluated) with one more [console.error], whose message carries the
    status and the status text: no Signal is assigned, no variable is
    created, nothing is inserted in the tree. *)
Theorem C9_failed_fetch_only_logs
    (emit : SigId → M unit) (query : string) (pstate : Proxy) (datatype : option string)
    (res : Response) (w w1 : World) (request : Value) :
  ok res = false →
  scopedEval js emit (ThisState pstate) ("return fetch(" +:+ beforeArrow query +:+ ")") w
    = Ret request w1 →
  ∃ w',
    fetchHandler js emit query pstate datatype res w = Ret () w' ∧
    w' = record (EvConsoleError (failureMessage (beforeArrow query) res)) w1 ∧
    signals w' = signals w1 ∧ targets w' = targets w1 ∧
    trace w' = trace w1 ++
      [EvConsoleError ("Failed to fetch(" +:+ beforeArrow query +:+ "), got status "
         +:+ pretty (status res) +:+ " - " +:+ statusText res
         +:+ ": function text() { [native code] }")].
Proof.
  intros Hok Hreq. eexists. split; [|repeat split].
  unfold fetchHandler, mbind, M_bind. rewrite Hreq, Hok. reflexivity.
Qed.

End Fetch.

(** C9 at work: a 404 answer to a fetch into the variable [hello]. *)
Lemma C9_witness :
  let res := {| status := 404; statusText := "Not Found"; body := λ _, Some (VStr "x");
                jsonEntries := None |} in
  let w := withTargets (λ l, l ++ [emptyTarget]) emptyWorld in
  ∃ w',
    fetchHandler Demo.js (emit Demo.js 3) "'/api' -> hello" (Prox 0 (Plain None)) None res w
      = Ret () w' ∧
    signals w' = [] ∧
    trace w' = [EvEval "return fetch('/api' )";
                EvConsoleError
                  "Failed to fetch('/api' ), got status 404 - Not Found: function text() { [native code] }"].
Proof.
  intros res w.
  destruct (C9_failed_fetch_only_logs Demo.js (emit Demo.js 3) "'/api' -> hello"
              (Prox 0 (Plain None)) None res w (record (EvEval "return fetch('/api' )") w)
              (VObj 0))
    as (w' & H1 & H2 & _); [reflexivity|reflexivity|].
  exists w'. split; [exact H1|]. rewrite H2. split; reflexivity.
Defined.

(** * Bindings to undeclared names *)

Lemma lookupSignal_undeclared w parentstate state parent key :
  declaredIn w (Prox state parent) key = false →
  withinChain w parentstate (Prox state parent) →
  lookupSignal w parentstate state key = None.
Proof.
  intros Hhas Hin. pose proof (proj1 (declaredIn_false _ _ _) Hhas) as Hnone.
  unfold lookupSignal. destruct (lookupP w parentstate key) as [s|] eqn:E.
  - destruct (Hin key s E) as (t & Ht & Hs). rewrite (Hnone t Ht) in Hs. discriminate.
  - destruct (inherited key); [done|]. apply Hnone. by left.
Qed.

(** What [setup] hands to the children of an element stays within the
    chain of each child. *)
Lemma withinChain_assign w parentstate state parent child :
  withinChain w parentstate (Prox state parent) →
  withinChain w (assign w state parentstate) (Prox child (Prox state parent)).
Proof.
  intros Hin key s Hs. unfold assign in Hs; simpl in Hs.
  assert (lookupP w parentstate key = Some s ∨ own w state key = Some s) as [H|H].
  { destruct parentstate as [m|t]; simpl in *; apply lookup_union_Some_raw in Hs;
      unfold own; tauto. }
  - destruct (Hin key s H) as (t & Ht & Hown). exists t. split; [by right|done].
  - exists state. split; [right; by left|done].
Qed.

Lemma withinChain_evolves w w' m pstate :
  evolves w w' → withinChain w (PSnap m) pstate → withinChain w' (PSnap m) pstate.
Proof.
  intros Hev Hin key s Hs. destruct (Hin key s Hs) as (t & Ht & Hown).
  exists t. split; [done|]. by apply (ev_own _ _ Hev).
Qed.

Lemma startsWith_colon_not_at name : startsWith ":" name = true → startsWith "@" name = false.
Proof.
  destruct name as [|c r]; [done|]. simpl.
  case_bool_decide as Hc; [subst c|done]. done.
Qed.

Section Binding.

Variable js : Host.

(** C10.  For a [:name] or [::name] attribute whose value contains no
    [${...}] template and names a variable that has no Signal in the
    element's own scope or in any ancestor scope, [setupAttribute]
    throws a [TypeError] at the subscription step.  The world it leaves
    differs from the one it found only by the identity given to the
    setter function: no Signal was created, no listener registered. *)
Theorem C10_binding_to_undeclared_name_faults
    (emit : SigId → M unit) (elem : ElemId) (attr : Attr) (parentstate : PState)
    (state : TargetId) (parent : Proxy) (w : World) :
  startsWith ":" (a_name attr) = true →
  isTemplateLiteral (a_value attr) = false →
  declaredIn w (Prox state parent) (a_value attr) = false →
  withinChain w parentstate (Prox state parent) →
  ∃ w',
    setupAttribute js emit elem attr parentstate state (Prox state parent) w
      = Threw (TypeError "s is undefined") w' ∧
    signals w' = signals w ∧ targets w' = targets w ∧ cleanup w' = cleanup w ∧
    trace w' = trace w ∧
    (∀ t key, own w' t key = own w t key).
Proof.
  intros Hcolon Htpl Hhas Hin.
  exists (withNextListener (S (nextListener w)) w). split; [|done].
  unfold setupAttribute. rewrite (startsWith_colon_not_at _ Hcolon), Hcolon.
  unfold setupBinding. rewrite Htpl. unfold mbind, M_bind, newListener, gets. simpl.
  change (lookupSignal (withNextListener (S (nextListener w)) w) parentstate state (a_value attr))
    with (lookupSignal w parentstate state (a_value attr)).
  by rewrite (lookupSignal_undeclared _ _ _ _ _ Hhas Hin).
Qed.

End Binding.

(** * Writes through the scope chain *)




Section Emit.

Variable js : Host.

Lemma run_evolves {A} (m : M A) (w w' : World) (a : A) :
  keeps (evolves w) m → m w = Ret a w' → evolves w w'.
Proof. intros Hk Hm. specialize (Hk w (evolves_refl w)). by rewrite Hm in Hk. Qed.




Lemma hostCall_Ret op w w' :
  hostCall js op w = Ret () w' →
  answer js (trace w) op = Returns ∧ w' = record (EvDom op) w.
Proof.
  unfold hostCall. destruct (answer js (trace w) op); [|done..]. by intros [= <-].
Qed.

Lemma hostCall_returns op w :
  answer js (trace w) op = Returns → hostCall js op w = Ret () (record (EvDom op) w).
Proof. unfold hostCall. by intros ->. Qed.




End Emit.

Section Write.

Variable js : Host.



End Write.

Lemma c1_world_run : Demo.boot 3 Docs.c1_body emptyWorld = Ret () Docs.c1_world.
Proof. vm_compute. reflexivity. Qed.

Lemma c1_world_wf : wfNames Docs.c1_world.
Proof.
  pose proof (keeps_setup Demo.js wfNames (λ _, True) wfNames_kept wfNames_keptAttr
                wfNames_keptTree 3 Docs.c1_body (λ _, Logic.I) (PSnap ∅) (Plain None)
                emptyWorld wfNames_emptyWorld) as H.
  change (setup Demo.js 3 Docs.c1_body (PSnap ∅) (Plain None) emptyWorld)
    with (Demo.boot 3 Docs.c1_body emptyWorld) in H.
  rewrite c1_world_run in H. exact H.
Qed.



(** * Teardown *)

Lemma sigListeners_add_elem l s s' x w :
  x ∈ sigListeners (withSignals (alter (setListeners (setAdd l)) s) w) s' →
  x ∈ sigListeners w s' ∨ (s' = s ∧ x = l).
Proof.
  unfold sigListeners. rewrite sigAt_alter. case_decide; [subst s'|by left].
  unfold sigAt. destruct (signals w !! s); simpl.
  - intros Hx. apply setAdd_elem in Hx as [Hx| ->]; [by left|by right].
  - intros Hx. by apply not_elem_of_nil in Hx.
Qed.

Lemma pushCleanup_mono e c0 m e' (c : Cleanup) :
  c ∈ default [] (m !! e') → c ∈ default [] (pushCleanup e c0 m !! e').
Proof.
  unfold pushCleanup. destruct (decide (e = e')) as [->|Hne].
  - rewrite lookup_insert_eq. simpl. intros Hc. apply elem_of_app. by left.
  - by rewrite lookup_insert_ne.
Qed.

Lemma pushCleanup_new e c0 m : c0 ∈ default [] (pushCleanup e c0 m !! e).
Proof.
  unfold pushCleanup. rewrite lookup_insert_eq. simpl.
  apply elem_of_app. right. by left.
Qed.

Lemma covered_kept : Kept covered (λ _, True).
Proof.
  split; try done.
  - intros t key w _ Hw s l.
    change (l ∈ sigListeners (withSignals (λ l, l ++ [newSignalObject]) w) s →
            {| cl_signal := s; cl_listener := l |} ∈ default [] (cleanup w !! l_elem l)).
    unfold sigListeners. rewrite sigAt_new. apply Hw.
  - intros t key s v w Hw s' l.
    change (l ∈ sigListeners (withSignals (alter (setValue v) s)
                  (withTargets (alter (setOld key (sigValue w s)) t) w)) s' →
            {| cl_signal := s'; cl_listener := l |} ∈ default [] (cleanup w !! l_elem l)).
    rewrite sigListeners_setValue. apply Hw.
  - intros s l w _ Hw s' x.
    change (x ∈ sigListeners (withSignals (alter (setListeners (setAdd l)) s) w) s' →
            {| cl_signal := s'; cl_listener := x |}
              ∈ default [] (pushCleanup (l_elem l) {| cl_signal := s; cl_listener := l |}
                              (cleanup w) !! l_elem x)).
    intros Hx. apply sigListeners_add_elem in Hx as [Hx|[-> ->]].
    + apply pushCleanup_mono, Hw, Hx.
    + apply pushCleanup_new.
Qed.

Lemma covered_keptAttr : KeptAttr covered.
Proof. split; intros; assumption. Qed.

Lemma covered_keptTree : KeptTree covered.
Proof. split; intros; assumption. Qed.

Lemma covered_emptyWorld : covered emptyWorld.
Proof. intros s l Hl. unfold sigListeners, sigAt in Hl; simpl in Hl. by apply not_elem_of_nil in Hl. Qed.

Lemma outside_kept removed w0 : Kept (outside removed w0) (λ e, e ∉ removed).
Proof.
  split.
  - intros w s l [Hw _]. apply Hw.
  - intros e w He [Hl (tr & Htr & Hc)]. split; [exact Hl|].
    exists (tr ++ [e]). simpl. split; [by rewrite Htr, app_assoc|].
    intros l s v Hin. apply elem_of_app in Hin as [Hin|Hin]; [by eapply Hc|].
    apply list_elem_of_singleton in Hin. subst e. done.
  - intros w s i l Hi [Hl (tr & Htr & Hc)]. split; [exact Hl|].
    exists (tr ++ [EvCall l s (sigValue w s)]). simpl. split; [by rewrite Htr, app_assoc|].
    intros l' s' v' Hin. apply elem_of_app in Hin as [Hin|Hin]; [by eapply Hc|].
    apply list_elem_of_singleton in Hin. injection Hin as -> _ _.
    eapply Hl, list_elem_of_lookup_2, Hi.
  - intros t key w _ [Hl (tr & Htr & Hc)]. split.
    + intros s l.
      change (l ∈ sigListeners (withSignals (λ l, l ++ [newSignalObject]) w) s →
              l_elem l ∉ removed).
      unfold sigListeners. rewrite sigAt_new. apply Hl.
    + exists (tr ++ [EvNewSignal t key (length (signals w))]). simpl.
      split; [by rewrite Htr, app_assoc|].
      intros l s v Hin. apply elem_of_app in Hin as [Hin|Hin]; [by eapply Hc|].
      apply list_elem_of_singleton in Hin. discriminate.
  - intros t key s v w [Hl (tr & Htr & Hc)]. split.
    + intros s' l.
      change (l ∈ sigListeners (withSignals (alter (setValue v) s)
                    (withTargets (alter (setOld key (sigValue w s)) t) w)) s' →
              l_elem l ∉ removed).
      rewrite sigListeners_setValue. apply Hl.
    + exists (tr ++ [EvAssign s v]). simpl. split; [by rewrite Htr, app_assoc|].
      intros l s' v' Hin. apply elem_of_app in Hin as [Hin|Hin]; [by eapply Hc|].
      apply list_elem_of_singleton in Hin. discriminate.
  - intros s l w Hok [Hl Hc]. split; [|exact Hc].
    intros s' x.
    change (x ∈ sigListeners (withSignals (alter (setListeners (setAdd l)) s) w) s' →
            l_elem x ∉ removed).
    intros Hx. apply sigListeners_add_elem in Hx as [Hx|[-> ->]]; [by eapply Hl|done].
  - intros f w H. exact H.
  - intros f w H. exact H.
  - intros f w H. exact H.
  - intros f w H. exact H.
Qed.

Lemma shrinks_refl w : shrinks w w.
Proof. by split. Qed.

Lemma shrinks_trans w0 w1 w2 : shrinks w0 w1 → shrinks w1 w2 → shrinks w0 w2.
Proof.
  intros [L1 C1 T1] [L2 C2 T2]. split.
  - eauto.
  - by rewrite C2.
  - etrans; eassumption.
Qed.

Lemma setDelete_elem l x ls : x ∈ setDelete l ls → x ∈ ls ∧ x ≠ l.
Proof.
  unfold setDelete. rewrite list_elem_of_In, filter_In, <- list_elem_of_In.
  intros [Hx Hne]. split; [done|].
  unfold sameFunction in Hne. apply negb_true_iff, bool_decide_eq_false in Hne. congruence.
Qed.

Lemma sigListeners_remove_elem l s s' x w :
  x ∈ sigListeners (removeListener s l w) s' →
  x ∈ sigListeners w s' ∧ (s' = s → x ≠ l).
Proof.
  unfold removeListener, sigListeners. rewrite sigAt_alter. case_decide; [subst s'|done].
  unfold sigAt. destruct (signals w !! s); simpl.
  - intros Hx. apply setDelete_elem in Hx as [Hx Hne]. done.
  - intros Hx. by apply not_elem_of_nil in Hx.
Qed.

Lemma runCleanup_shrinks c w : shrinks w (runCleanup c w).
Proof.
  split; simpl.
  - intros s l Hl.
    change (l ∈ sigListeners (removeListener (cl_signal c) (cl_listener c) w) s) in Hl.
    by apply sigListeners_remove_elem in Hl as [Hl _].
  - done.
  - by apply prefix_app_r.
Qed.

Lemma runCleanup_cleaned c w : cleaned w (runCleanup c w) c.
Proof.
  split.
  - exists [EvRemove c]. split; [done|by left].
  - intros Hx.
    change (cl_listener c
              ∈ sigListeners (removeListener (cl_signal c) (cl_listener c) w) (cl_signal c)) in Hx.
    apply sigListeners_remove_elem in Hx as [_ Hne]. by apply Hne.
Qed.

Lemma cleaned_later w w1 w2 c : cleaned w w1 c → shrinks w1 w2 → cleaned w w2 c.
Proof.
  intros [(tr & Htr & Hin) Hgone] [L C [tr' Htr']]. split.
  - exists (tr ++ tr'). split; [by rewrite Htr', Htr, app_assoc|].
    apply elem_of_app. by left.
  - intros Hx. apply Hgone, L, Hx.
Qed.

Lemma cleaned_earlier w w1 w2 c : shrinks w w1 → cleaned w1 w2 c → cleaned w w2 c.
Proof.
  intros [L C [tr' Htr']] [(tr & Htr & Hin) Hgone]. split; [|exact Hgone].
  exists (tr' ++ tr). split; [by rewrite Htr, Htr', app_assoc|].
  apply elem_of_app. by right.
Qed.

Lemma runCleanups_spec cs : ∀ w,
  shrinks w (fold_left (λ w c, runCleanup c w) cs w) ∧
  ∀ c, c ∈ cs → cleaned w (fold_left (λ w c, runCleanup c w) cs w) c.
Proof.
  induction cs as [|c0 cs IH]; intros w; simpl.
  - split; [apply shrinks_refl|]. intros c Hc. by apply not_elem_of_nil in Hc.
  - destruct (IH (runCleanup c0 w)) as [Hsh Hcl]. split.
    + eapply shrinks_trans; [apply runCleanup_shrinks|exact Hsh].
    + intros c Hc. apply elem_of_cons in Hc as [->|Hc].
      * eapply cleaned_later; [apply runCleanup_cleaned|exact Hsh].
      * eapply cleaned_earlier; [apply runCleanup_shrinks|by apply Hcl].
Qed.

Lemma shrinks_elemState f w : shrinks w (withElemState f w).
Proof. by split. Qed.

(** [undoSetup] runs every cleanup thunk of the node and of its
    descendants. *)
Lemma undoSetup_spec elem : ∀ w,
  shrinks w (undoSetup elem w) ∧
  ∀ e c, e ∈ nodeIds elem → c ∈ default [] (cleanup w !! e) → cleaned w (undoSetup elem w) c.
Proof.
  induction elem as [id tagName attributes textContent children content IH]
    using Node_children_ind.
  intros w. cbn [undoSetup nodeIds].
  set (undoChildren := fix undoChildren (cs : list Node) (w : World) : World :=
         match cs with
         | [] => w
         | child :: rest => undoChildren rest (undoSetup child w)
         end).
  set (ids := fix ids (cs : list Node) : list ElemId :=
         match cs with
         | [] => []
         | child :: rest => nodeIds child ++ ids rest
         end).
  assert (∀ w, shrinks w (undoChildren children w) ∧
           ∀ e c, e ∈ ids children → c ∈ default [] (cleanup w !! e) →
             cleaned w (undoChildren children w) c) as Hchildren.
  { clear w. induction IH as [|child rest Hchild _ IHrest]; intros w; simpl.
    - split; [apply shrinks_refl|]. intros e c He. by apply not_elem_of_nil in He.
    - destruct (Hchild w) as [Hsh1 Hcl1].
      destruct (IHrest (undoSetup child w)) as [Hsh2 Hcl2]. split.
      + eapply shrinks_trans; eassumption.
      + intros e c He Hc. apply elem_of_app in He as [He|He].
        * eapply cleaned_later; [by eapply Hcl1|exact Hsh2].
        * eapply cleaned_earlier; [exact Hsh1|]. eapply Hcl2; [exact He|].
          by rewrite (sh_cleanup _ _ Hsh1). }
  destruct (Hchildren w) as [Hsh1 Hcl1].
  set (w1 := undoChildren children w) in *.
  destruct (runCleanups_spec (default [] (cleanup w1 !! id)) w1) as [Hsh2 Hcl2].
  set (w2 := fold_left (λ w c, runCleanup c w) (default [] (cleanup w1 !! id)) w1) in *.
  assert (shrinks w (withElemState (delete id) w2)) as Hsh.
  { eapply shrinks_trans; [exact Hsh1|].
    eapply shrinks_trans; [exact Hsh2|apply shrinks_elemState]. }
  split; [exact Hsh|].
  intros e c He Hc. apply elem_of_cons in He as [->|He].
  - eapply cleaned_later; [|apply shrinks_elemState].
    eapply cleaned_earlier; [exact Hsh1|]. apply Hcl2.
    by rewrite (sh_cleanup _ _ Hsh1).
  - eapply cleaned_later; [by eapply Hcl1|].
    eapply shrinks_trans; [exact Hsh2|apply shrinks_elemState].
Qed.

Lemma covered_undoSetup elem w : covered w → covered (undoSetup elem w).
Proof.
  intros Hw s l Hl. destruct (undoSetup_spec elem w) as [[L C _] _].
  rewrite C. apply Hw, L, Hl.
Qed.

(** The invariant of teardown holds in every world the tree watcher
    produces. *)
Lemma covered_onMutations js fuel mutations : keeps covered (onMutations js fuel mutations).
Proof.
  assert (∀ elem ps pp, keeps covered (setup js fuel elem ps pp)) as Hsetup.
  { intros elem ps pp.
    by apply (keeps_setup js covered (λ _, True) covered_kept covered_keptAttr
                covered_keptTree). }
  apply keeps_forEach. intros mutation _. apply keeps_bind.
  - apply keeps_forEach. intros [parent added] _. unfold setupAdded; simpl.
    destruct parent as [parent|]; [|apply keeps_throw].
    apply keeps_bind; [apply keeps_gets|]. intros [[state pstate]|]; apply Hsetup.
  - intros _. apply keeps_forEach. intros removed _.
    apply keeps_modify. intros w. apply covered_undoSetup.
Qed.

Section Teardown.

Variable js : Host.

(** C3.  In a world where every listener has its cleanup thunk on the
    element it was registered for (which [setup] and every later step
    maintain), tearing down a node runs every cleanup thunk of the node
    and of its descendants; afterwards no Set of listeners holds a
    listener registered for one of these elements, and an [emit] of any
    Signal, however it ends, calls no such listener and registers none
    again. *)
Theorem C3_teardown_unsubscribes (elem : Node) (w : World) :
  covered w →
  (∀ e c, e ∈ nodeIds elem → c ∈ default [] (cleanup w !! e) →
     cleaned w (undoSetup elem w) c) ∧
  (∀ s l, l ∈ sigListeners (undoSetup elem w) s → l_elem l ∉ nodeIds elem) ∧
  (∀ fuel s,
     after (λ _, outside (nodeIds elem) (undoSetup elem w))
           (outside (nodeIds elem) (undoSetup elem w))
           (emit js fuel s (undoSetup elem w))).
Proof.
  intros Hcov. destruct (undoSetup_spec elem w) as [Hsh Hcl].
  assert (∀ s l, l ∈ sigListeners (undoSetup elem w) s → l_elem l ∉ nodeIds elem) as Hgone.
  { intros s l Hl He.
    pose proof (Hcov s l (sh_listeners _ _ Hsh s l Hl)) as Hc.
    destruct (Hcl (l_elem l) _ He Hc) as [_ Hne]. by apply Hne. }
  split; [exact Hcl|]. split; [exact Hgone|].
  intros fuel s.
  apply (keeps_emit js _ _ (outside_kept (nodeIds elem) (undoSetup elem w)) fuel s).
  split; [exact Hgone|]. exists []. split; [by rewrite app_nil_r|].
  intros l s' v Hin. by apply not_elem_of_nil in Hin.
Qed.

End Teardown.

(** * Declarations *)

Lemma setAdd_new l ls : l ∈ setAdd l ls.
Proof.
  unfold setAdd. destruct (existsb _ _) eqn:E.
  - apply existsb_exists in E as (x & Hx & Hsame).
    unfold sameFunction in Hsame. apply bool_decide_eq_true in Hsame. subst x.
    by apply list_elem_of_In.
  - apply elem_of_app. right. by left.
Qed.

Lemma registered_elem s l w : s < length (signals w) → l ∈ sigListeners (registered s l w) s.
Proof.
  intros Hs.
  change (l ∈ sigListeners (withSignals (alter (setListeners (setAdd l)) s) w) s).
  rewrite sigListeners_setListeners by (by right). rewrite decide_True by done.
  apply setAdd_new.
Qed.




Lemma subscribeNew_Ret s elem c w w' :
  subscribeNew s elem c w = Ret () w' →
  ∃ sid, s = Some sid ∧
    w' = registered sid {| l_id := nextListener w; l_elem := elem; l_code := c |}
           (withNextListener (S (nextListener w)) w).
Proof. destruct s as [sid|]; simpl; [|done]. intros [= <-]. by exists sid. Qed.

Lemma evolves_registered s l w : evolves w (registered s l w).
Proof. apply evolves_addListener. Qed.

Section Runs.

Variable js : Host.

Lemma keepsE_emit w0 fuel s : keeps (evolves w0) (emit js fuel s).
Proof. apply keeps_emit with (okElem := λ _, True), evolves_kept. Qed.

Lemma keepsE_proxySet w0 fuel p key v : keeps (evolves w0) (proxySet (emit js fuel) p key v).
Proof.
  apply keeps_proxySet with (okElem := λ _, True); [apply evolves_kept|].
  intros s. apply keepsE_emit.
Qed.

Lemma keepsE_scopedEval w0 fuel this script :
  keeps (evolves w0) (scopedEval js (emit js fuel) this script).
Proof.
  apply keeps_scopedEval with (okElem := λ _, True); [apply evolves_kept| |].
  - intros s. apply keepsE_emit.
  - by destruct this.
Qed.

Lemma keepsE_subscribeNew w0 s elem c : keeps (evolves w0) (subscribeNew s elem c).
Proof.
  apply keeps_subscribeNew with (okElem := λ _, True);
    [apply evolves_kept|apply evolves_keptAttr|done].
Qed.

Lemma keepsE_setupAttribute w0 fuel elem attr parentstate state pstate :
  keeps (evolves w0) (setupAttribute js (emit js fuel) elem attr parentstate state pstate).
Proof.
  apply keeps_setupAttribute with (okElem := λ _, True);
    [apply evolves_kept|apply evolves_keptAttr| |done].
  intros s. apply keepsE_emit.
Qed.

(** A loop that returns has run its body to completion on every entry. *)
Lemma forEach_Ret {A} (body : A → M unit) (xs : list A) : ∀ w w',
  (∀ x w0, keeps (evolves w0) (body x)) →
  forEach body xs w = Ret () w' →
  evolves w w' ∧
  ∀ x, x ∈ xs → ∃ wa wb, evolves w wa ∧ body x wa = Ret () wb ∧ evolves wb w'.
Proof.
  induction xs as [|x0 r IH]; intros w w' Hk Hrun; simpl in Hrun.
  - injection Hrun as <-. split; [apply evolves_refl|].
    intros x Hx. by apply not_elem_of_nil in Hx.
  - apply bind_Ret in Hrun as ([] & w1 & H0 & Hrest).
    pose proof (run_evolves _ _ _ _ (Hk x0 w) H0) as Hev0.
    destruct (IH w1 w' Hk Hrest) as [Hev1 Hall]. split.
    + eapply evolves_trans; eassumption.
    + intros x Hx. apply elem_of_cons in Hx as [->|Hx].
      * exists w, w1. split; [apply evolves_refl|by split].
      * destruct (Hall x Hx) as (wa & wb & Ha & Hb & Hc).
        exists wa, wb. split; [|by split]. eapply evolves_trans; eassumption.
Qed.

(** The steps of a [#let] attribute that returns. *)
Lemma setupLet_Ret fuel elem attr parentstate state pstate w w' seg0 decl segs varName deps :
  splitChar ":" (a_name attr) = seg0 :: decl :: segs →
  splitChar "|" decl = varName :: deps →
  setupLet js (emit js fuel) elem attr parentstate state pstate w = Ret () w' →
  ∃ v w1 w2 w3 s,
    match storedValue w (readStore (a_name attr)) (kebabToCamelCase js varName) with
    | Some stored => v = VStr stored ∧ w1 = w
    | None =>
        scopedEval js (emit js fuel) (ThisState pstate) ("return " +:+ a_value attr) w
          = Ret v w1
    end ∧
    proxySet (emit js fuel) pstate (kebabToCamelCase js varName) v w1 = Ret () w2 ∧
    forEach (subscribeDependency elem parentstate state pstate (kebabToCamelCase js varName)
               (a_value attr)) deps w2 = Ret () w3 ∧
    lookupSignal w3 parentstate state (kebabToCamelCase js varName) = Some s ∧
    w' = registered s
           {| l_id := nextListener w3; l_elem := elem;
              l_code := writeThrough (a_name attr) (kebabToCamelCase js varName) |}
           (withNextListener (S (nextListener w3)) w3).
Proof.
  intros Hname Hdecl. unfold setupLet. rewrite Hname, Hdecl. intros Hrun.
  apply bind_Ret in Hrun as (value & w0 & Hget & Hrun). injection Hget as <- <-.
  apply bind_Ret in Hrun as (v & w1 & Hinit & Hrun).
  apply bind_Ret in Hrun as ([] & w2 & Hset & Hrun).
  apply bind_Ret in Hrun as ([] & w3 & Hdeps & Hrun).
  apply bind_Ret in Hrun as (s & w4 & Hget & Hrun). injection Hget as <- <-.
  apply subscribeNew_Ret in Hrun as (sid & Hs & ->).
  exists v, w1, w2, w3, sid. split; [|by repeat split].
  destruct (storedValue _ _ _) as [stored|]; [|exact Hinit].
  injection Hinit as <- <-. done.
Qed.

End Runs.


(** While listeners run no function object is created. *)
Lemma sameFunctions_kept n : Kept (λ w, nextListener w = n) (λ _, True).
Proof. split; try done. Qed.







Section Let.

Variable js : Host.

Lemma proxySet_nextListener fuel p key v w w' :
  proxySet (emit js fuel) p key v w = Ret () w' → nextListener w' = nextListener w.
Proof.
  intros Hrun.
  pose proof (keeps_proxySet (λ w0, nextListener w0 = nextListener w) (λ _, True)
                (sameFunctions_kept _) (emit js fuel)
                (λ s, keeps_emit js _ _ (sameFunctions_kept _) fuel s) p key v w eq_refl) as H.
  by rewrite Hrun in H.
Qed.

Lemma scopedEval_nextListener fuel p script v w w' :
  scopedEval js (emit js fuel) (ThisState p) script w = Ret v w' →
  nextListener w' = nextListener w.
Proof.
  intros Hrun.
  pose proof (keeps_scopedEval js (λ w0, nextListener w0 = nextListener w) (λ _, True)
                (sameFunctions_kept _) (emit js fuel)
                (λ s, keeps_emit js _ _ (sameFunctions_kept _) fuel s)
                (ThisState p) script Logic.I w eq_refl) as H.
  by rewrite Hrun in H.
Qed.










End Let.

(** * Persisted declarations *)


Section Persisted.

Variable js : Host.

(** The first write of a name that the scope does not have creates its
    Signal in the writing scope, assigns it and calls nobody. *)
Lemma proxySet_first fuel w t parent key v :
  t < length (targets w) →
  hasP w (Prox t parent) key = false →
  ∃ w1,
    proxySet (emit js (S fuel)) (Prox t parent) key v w = Ret () w1 ∧
    signals w1 = signals w ++ [{| value := v; listeners := [] |}] ∧
    own w1 t key = Some (length (signals w)) ∧
    (∀ t' k, (t', k) ≠ (t, key) → own w1 t' k = own w t' k) ∧
    t_old (targetAt w1 t) !! key = Some VUndef ∧
    stores w1 = stores w ∧
    trace w1 = trace w ++ [EvNewSignal t key (length (signals w)); EvAssign (length (signals w)) v].
Proof.
  intros Ht Hhas.
  simpl in Hhas. apply orb_false_iff in Hhas as [Hpar Hown].
  apply bool_decide_eq_false in Hown.
  assert (own w t key = None) as Hnone by (destruct (own w t key); [exfalso; eauto|done]).
  set (n := length (signals w)).
  set (wa := record (EvNewSignal t key n)
               (withTargets (alter (addSignal key n) t)
                  (withSignals (λ l, l ++ [newSignalObject]) w))).
  set (w1 := record (EvAssign n v)
               (withSignals (alter (setValue v) n)
                  (withTargets (alter (setOld key (sigValue wa n)) t) wa))).
  assert (signals w1 = signals w ++ [{| value := v; listeners := [] |}]) as Hsig.
  { unfold w1, wa. simpl. fold n. apply list_eq. intros i.
    destruct (decide (i = n)) as [->|Hne].
    - rewrite list_lookup_alter_eq. unfold n. rewrite !lookup_app_r by lia.
      by rewrite Nat.sub_diag.
    - rewrite list_lookup_alter_ne by done. destruct (decide (i < n)) as [Hlt|Hge].
      + by rewrite !lookup_app_l by (unfold n in Hlt; lia).
      + rewrite !lookup_ge_None_2; [done|..]; rewrite length_app; simpl; unfold n in *; lia. }
  assert (∀ t' k, own w1 t' k =
            if decide (t = t' ∧ key = k ∧ t < length (targets w)) then Some n else own w t' k)
    as Hown1.
  { intros t' k. unfold w1.
    transitivity (own wa t' k).
    - pose proof (own_setOld key (sigValue wa n) t t' k wa) as H. exact H.
    - exact (own_addSignal key n t t' k (withSignals (λ l, l ++ [newSignalObject]) w)). }
  exists w1. split.
  - cbn [proxySet]. rewrite Hpar. unfold assignLocal, ensureSignal. rewrite Hnone. fold n. fold wa.
    fold w1. unfold emit. cbn [emitFrom].
    assert (sigListeners w1 n = []) as ->; [|done].
    unfold sigListeners, sigAt. rewrite Hsig. unfold n. rewrite lookup_app_r by lia.
    by rewrite Nat.sub_diag.
  - split; [exact Hsig|].
    split; [rewrite Hown1; by rewrite decide_True|].
    split.
    { intros t' k Hne. rewrite Hown1. rewrite decide_False; [done|].
      intros (-> & -> & _). done. }
    split; [|split; [done|]].
    + unfold targetAt, w1, wa. simpl. rewrite list_lookup_alter_eq, list_lookup_alter_eq.
      apply lookup_lt_is_Some in Ht as [x ->]. simpl. rewrite lookup_insert_eq. f_equal.
      fold n. fold wa. unfold sigValue, sigAt, wa. simpl. unfold n.
      rewrite lookup_app_r by lia. by rewrite Nat.sub_diag.
    + unfold w1, wa. simpl. by rewrite <- app_assoc.
Qed.




End Persisted.

(** * Components *)

(** A constructor that returns has attached the shadow root and then
    run its loops. *)
Lemma construct_loops emit js c this w w' :
  construct js emit c this w = Ret () w' →
  constructLoops js emit c this (length (targets w))
    (Prox (length (targets w)) (Plain (Some this))) (constructed c this w) = Ret () w'.
Proof.
  unfold construct. intros Hrun. apply bind_Ret in Hrun as ([] & w1 & Hcall & Hrun).
  apply hostCall_Ret in Hcall as [_ ->]. exact Hrun.
Qed.

Lemma evolves_constructed c this w : evolves w (constructed c this w).
Proof.
  unfold constructed.
  eapply evolves_trans;
    [apply (evolves_plain (EvDom (DomAttachShadow this (n_content (c_elem c)))) w Logic.I)|].
  eapply evolves_trans; [apply evolves_newTarget|].
  eapply evolves_trans; [|apply evolves_setElement].
  by apply evolves_other.
Qed.

Lemma sameElemState_kept m : Kept (λ w, elemState w = m) (λ _, True).
Proof. split; try done. Qed.

Lemma sameElemState_keptAttr m : KeptAttr (λ w, elemState w = m).
Proof. split; try done. Qed.

Section Component.

Variable js : Host.

(** C8, as amended.  In a constructor run that returns, the default
    script of each declared external attribute is evaluated with [this]
    bound to the scope of the template element, [c_state c], which is
    chained to the document around the template declaration; the value
    obtained is set as the attribute of the instance and then written
    to the variable of that name through the instance's own scope. *)
Theorem C8_defaults_evaluated_in_template_scope
    (fuel : nat) (c : ComponentDef) (this : ElemId) (w w' : World) (attr : string) :
  construct js (emit js fuel) c this w = Ret () w' →
  attr ∈ c_attributes c →
  ∃ script wa wb wc v,
    attributeValue attr (n_attributes (c_elem c)) = Some script ∧
    evolves w wa ∧ evolves wc w' ∧
    scopedEval js (emit js fuel) (ThisState (c_state c)) ("return " +:+ script) wa
      = Ret v wb ∧
    proxySet (emit js fuel) (Prox (length (targets w)) (Plain (Some this))) attr v
      (record (EvDom (DomSetAttr this attr v false)) wb) = Ret () wc.
Proof.
  intros Hrun Hattr. apply construct_loops in Hrun. unfold constructLoops in Hrun.
  apply bind_Ret in Hrun as ([] & w1 & Hdefaults & Hrest).
  assert (evolves w1 w') as Hev1.
  { revert Hrest. apply run_evolves.
    apply keeps_bind.
    - apply keeps_forEach. intros a _. apply keepsE_setupAttribute.
    - intros _. apply keeps_forEach. intros child _.
      case_bool_decide; [|apply keeps_ret].
      destruct (hasAttribute _ _); [apply keeps_ret|].
      destruct (hasAttribute _ _); [apply keeps_ret|].
      apply keeps_bind; [apply keepsE_scopedEval|]. intros _. apply keeps_ret. }
  apply forEach_Ret in Hdefaults as [_ Hall].
  - destruct (Hall attr Hattr) as (wa & wb & Ha & Hbody & Hb).
    destruct (attributeValue attr _) as [script|]; [|done].
    apply bind_Ret in Hbody as (v & wv & Heval & Hbody).
    apply bind_Ret in Hbody as ([] & wr & Hrec & Hset).
    apply hostCall_Ret in Hrec as [_ ->].
    exists script, wa, wv, wb, v. split; [done|]. split.
    { eapply evolves_trans; [apply evolves_constructed|exact Ha]. }
    split; [eapply evolves_trans; eassumption|]. by split.
  - intros a w0. destruct (attributeValue a _); [|apply keeps_throw].
    apply keeps_bind; [apply keepsE_scopedEval|]. intros v.
    apply keeps_bind; [apply keeps_hostCall with (okElem := λ _, True), evolves_kept|].
    intros _. apply keepsE_proxySet.
Qed.

End Component.

(** * The claims on concrete documents *)

Module Examples.

Import Demo Docs MoreDocs.

(** Closed facts are settled by evaluation, one conjunct at a time. *)
Local Ltac evaluate :=
  repeat match goal with |- _ ∧ _ => split end; vm_compute; reflexivity.



(** ** A read of [constructor] through a root scope *)

(** The claim as stated fails at a name of [Object.prototype]: no scope
    declares [constructor], yet the first read creates no Signal and
    returns the function found in the plain object that ends the chain,
    not [undefined]. *)
Lemma C2_counterexample :
  declaredIn rootWorld rootScope "constructor" = false ∧
  proxyGet rootScope "constructor" rootWorld = Ret (VBuiltin "constructor") rootWorld ∧
  signals rootWorld = [].
Proof. evaluate. Qed.

(** ** Removing the input of
    [<div #let:var1="'hello'"><input :placeholder="var1"></div>] *)

Lemma c1_world_covered : covered c1_world.
Proof.
  pose proof (keeps_setup Demo.js covered (λ _, True) covered_kept covered_keptAttr
                covered_keptTree 3 c1_body (λ _, Logic.I) (PSnap ∅) (Plain None)
                emptyWorld covered_emptyWorld) as H.
  change (setup Demo.js 3 c1_body (PSnap ∅) (Plain None) emptyWorld)
    with (boot 3 c1_body emptyWorld) in H.
  rewrite c1_world_run in H. exact H.
Qed.

Lemma C3_witness :
  (∀ e c, e ∈ nodeIds c3_input → c ∈ default [] (cleanup c1_world !! e) →
     cleaned c1_world (undoSetup c3_input c1_world) c) ∧
  (∀ s l, l ∈ sigListeners (undoSetup c3_input c1_world) s → l_elem l ∉ nodeIds c3_input) ∧
  (∀ fuel s,
     after (λ _, outside (nodeIds c3_input) (undoSetup c3_input c1_world))
           (outside (nodeIds c3_input) (undoSetup c3_input c1_world))
           (emit Demo.js fuel s (undoSetup c3_input c1_world))).
Proof. apply (C3_teardown_unsubscribes Demo.js c3_input c1_world), c1_world_covered. Defined.

(** The input's setter is a listener of [var1] before the removal and
    not after it. *)
Example c3_before_and_after :
  length (sigListeners c1_world 0) = 2 ∧
  sigListeners (undoSetup c3_input c1_world) 0
    = [{| l_id := 0; l_elem := 1; l_code := CSession "var1" |}].
Proof. evaluate. Qed.

(** ** [#let-local:val="'saved'"] with an empty local store *)



(** A declaration that names a variable an ancestor has declared with a
    store writer: the initial assignment reaches the ancestor's Signal,
    whose writer stores the value while the inner declaration is being
    set up. *)
Example c5_nested_declaration_writes :
  ∃ w', boot 3 c5_nested_body emptyWorld = Ret () w' ∧
        localStorage w' !! "val" = Some "b" ∧
        trace w' = [EvEval "return 'a'"; EvNewSignal 0 "val" 0; EvAssign 0 (VStr "a");
                    EvEval "return 'b'"; EvAssign 0 (VStr "b");
                    EvCall {| l_id := 0; l_elem := 1; l_code := CLocal "val" |} 0 (VStr "b");
                    EvDom (DomSetItem false "val" "b")].
Proof. eexists. evaluate. Qed.

(** ** [#let:count="0"] and a later write *)

(** C6.  The code at the input [<div #let:count="0">]: the declaration
    is plain ([readStore] finds no store), yet the listener it registers
    on the variable's Signal is the session-store writer, and the write
    [this.count = 5] stores ["5"] under [count] in the session store,
    which was empty before. *)
Theorem C6_plain_let_writes_session_storage :
  boot 3 c6_body emptyWorld = Ret () c6_world ∧
  readStore "#let:count" = NoStore ∧
  sigListeners c6_world 0 = [{| l_id := 0; l_elem := 1; l_code := CSession "count" |}] ∧
  sessionStorage c6_world !! "count" = None ∧
  proxySet (emit Demo.js 3) rootScope "count" (VNum 5) c6_world = Ret () c6_after ∧
  sessionStorage c6_after !! "count" = Some "5".
Proof. evaluate. Qed.

(** ** [#let:var1="'hello'" #let:var2|var1="this.var1 + '!'"] *)



(** After the declaration a write to [var1] recomputes [var2]. *)
Example c7_recompute :
  ∃ w', proxySet (emit Demo.js 4) rootScope "var1" (VStr "yo") c7_after = Ret () w' ∧
        sigValue w' 1 = VStr "yo!".
Proof. eexists. evaluate. Qed.



(** The same happens to a declaration that the tree watcher sets up
    below a child of the element that declares the dependency: the
    watcher passes the state object of the parent element alone. *)
Example c7_dependency_of_grandparent :
  boot 3 c7_outer_body emptyWorld = Ret () c7_outer_world ∧
  own c7_outer_world 0 "v1" = Some 0 ∧
  ∃ w', onMutations Demo.js 3 [c7_added] c7_outer_world = Threw (TypeError "s is undefined") w' ∧
        own w' 2 "v2" = Some 1 ∧ sigValue w' 1 = VStr "hello!" ∧
        sigListeners w' 0 = [{| l_id := 0; l_elem := 1; l_code := CSession "v1" |}].
Proof. split; [vm_compute; reflexivity|]. split; [vm_compute; reflexivity|]. eexists. evaluate. Qed.

(** A dependency is looked up under the name as written, while the
    variable is declared under its camel-cased name. *)
Example c7_dependency_in_kebab_case :
  ∃ w', boot 3 (node 1 "DIV" [attr "#let:my-var" "'a'"; attr "#let:v2|my-var" "this.myVar"] [])
          emptyWorld = Threw (TypeError "s is undefined") w' ∧
        own w' 0 "myVar" = Some 0 ∧ own w' 0 "my-var" = None.
Proof. eexists. evaluate. Qed.

(** ** A template whose default reads a variable of the document
    around it *)

(** [setup] registers the component with the template's scope. *)
Example c8_defined :
  boot 3 c8_body emptyWorld = Ret () c8_world ∧
  last (trace c8_world) = Some (EvDom (DomDefine c8_def)).
Proof. evaluate. Qed.

(** The claim as stated fails here: in the instance's own scope the
    default script evaluates to [undefined], but the constructor sets
    the attribute and the variable to ['hi'], the value of the variable
    [greeting] of the document around the template. *)
Lemma C8_counterexample :
  construct Demo.js (emit Demo.js 3) c8_def 7 c8_world = Ret () c8_after ∧
  returned (scopedEval Demo.js (emit Demo.js 3) (ThisState (Prox 2 (Plain (Some 7))))
              "return this.greeting" (constructed c8_def 7 c8_world)) = Some VUndef ∧
  EvDom (DomSetAttr 7 "msg" (VStr "hi") false) ∈ trace c8_after ∧
  own c8_after 2 "msg" = Some 1 ∧
  sigValue c8_after 1 = VStr "hi".
Proof.
  split; [vm_compute; reflexivity|]. split; [vm_compute; reflexivity|].
  split; [|split; vm_compute; reflexivity].
  apply list_elem_of_In. vm_compute. tauto.
Qed.

Lemma C8_witness :
  ∃ script wa wb wc v,
    attributeValue "msg" (n_attributes c8_template) = Some script ∧
    scopedEval Demo.js (emit Demo.js 3) (ThisState (Prox 1 (Prox 0 (Plain None))))
      ("return " +:+ script) wa = Ret v wb ∧
    proxySet (emit Demo.js 3) (Prox 2 (Plain (Some 7))) "msg" v
      (record (EvDom (DomSetAttr 7 "msg" v false)) wb) = Ret () wc.
Proof.
  destruct (C8_defaults_evaluated_in_template_scope Demo.js 3 c8_def 7 c8_world c8_after "msg")
    as (script & wa & wb & wc & v & H1 & _ & _ & H4 & H5).
  - vm_compute. reflexivity.
  - by left.
  - by exists script, wa, wb, wc, v.
Defined.


(** ** A component instance that the tree watcher finds *)

(** C4.  The code at the input
    [<body #let:greeting="'hi'" #let:title="'doc'"><template
    #component="x-card" greeting="'inner'"></template></body>] with an
    [<x-card>] that is inserted into the body as markup.  The
    constructor attaches to the instance a scope that ends in the plain
    object [{ [component]: this }]: through it the document's [title]
    is not found, and [greeting] is the component's own, ['inner'].
    The instance is then connected, and the tree watcher finds it among
    the nodes added to the body and runs [setup] on it, which replaces
    [state] and [$state] of the instance by a new scope chained to the
    scope of the body.  From then on [this.$state] reads the document's
    [title] and [greeting], and a change of the instance's attribute,
    which the callback writes through [this.$state], overwrites the
    document's [greeting] and leaves the component's own unchanged. *)
Theorem C4_setup_replaces_component_scope :
  boot 3 c4_body emptyWorld = Ret () c4_world ∧
  last (trace c4_world) = Some (EvDom (DomDefine c4_def)) ∧
  own c4_world 0 "greeting" = Some 0 ∧
  construct Demo.js (emit Demo.js 3) c4_def 7 c4_world = Ret () c4_constructed ∧
  elemState c4_constructed !! 7 = Some (2, Prox 2 (Plain (Some 7))) ∧
  hasP c4_constructed (Prox 2 (Plain (Some 7))) "title" = false ∧
  own c4_constructed 2 "greeting" = Some 2 ∧
  proxyGet (Prox 2 (Plain (Some 7))) "greeting" c4_constructed
    = Ret (VStr "inner") c4_constructed ∧
  connectedCallback Demo.js 3 c4_def 7 [] c4_constructed = Ret () c4_constructed ∧
  onMutations Demo.js 3 [c4_added] c4_constructed = Ret () c4_watched ∧
  elemState c4_watched !! 7 = Some (3, Prox 3 (Prox 0 (Plain None))) ∧
  proxyGet (Prox 3 (Prox 0 (Plain None))) "title" c4_watched = Ret (VStr "doc") c4_watched ∧
  proxyGet (Prox 3 (Prox 0 (Plain None))) "greeting" c4_watched = Ret (VStr "hi") c4_watched ∧
  attributeChangedCallback Demo.js 3 7 "greeting" (VStr "x") c4_watched = Ret () c4_changed ∧
  sigValue c4_changed 0 = VStr "x" ∧
  sigValue c4_changed 2 = VStr "inner".
Proof. evaluate. Qed.

(** ** [<input :placeholder="var1">] with [var1] undeclared *)

Lemma C10_witness :
  ∃ w',
    setupAttribute Demo.js (emit Demo.js 3) 2 (attr ":placeholder" "var1") (PSnap ∅) 1
      (Prox 1 rootScope) c10_world = Threw (TypeError "s is undefined") w' ∧
    signals w' = signals c10_world ∧ targets w' = targets c10_world.
Proof.
  destruct (C10_binding_to_undeclared_name_faults Demo.js (emit Demo.js 3) 2
              (attr ":placeholder" "var1") (PSnap ∅) 1 rootScope c10_world)
    as (w' & H1 & H2 & H3 & _).
  - reflexivity.
  - reflexivity.
  - reflexivity.
  - intros key s Hs. simpl in Hs. by rewrite lookup_empty in Hs.
  - by exists w'.
Defined.

(** ** A fetch into [this] that succeeds *)

(** The README's example: the body [{"hello":"world"}] sets [hello]. *)
Example fetch_into_this :
  let res := {| status := 200; statusText := "OK"; body := λ _, Some (VStr "");
                jsonEntries := Some [("hello", VStr "world")] |} in
  ∃ w', fetchHandler Demo.js (emit Demo.js 3) "'data:...' -> this" rootScope None res rootWorld
          = Ret () w' ∧
        own w' 0 "hello" = Some 0 ∧ sigValue w' 0 = VStr "world".
Proof. intros res. eexists. evaluate. Qed.

(** The insertion point is compared before it is trimmed. *)
Example insert_after_end :
  ∃ w', insertAtTarget Demo.js "#hello -> afterEnd" "<p>x</p>" emptyWorld = Ret () w' ∧
        trace w' = [EvDom (DomInsertAdjacentHTML "#hello" "afterEnd" "<p>x</p>")].
Proof. eexists. evaluate. Qed.

(** ** A document whose binding names an undeclared variable *)

(** The whole [setup] of such a document faults in the same way. *)
Example c10_setup_faults :
  ∃ w', boot 3 (node 1 "DIV" [] [node 2 "INPUT" [attr ":placeholder" "var1"] []]) emptyWorld
          = Threw (TypeError "s is undefined") w' ∧ signals w' = [].
Proof. eexists. evaluate. Qed.

End Examples.

(** * Further properties: names and attribute syntax *)

(** X1. A name without a hyphen is its own camel case. *)
Theorem kebab_without_hyphen (js : Host) (str : string) :
  occurs "-" str = false → kebabToCamelCase js str = str.
Proof.
  induction str as [|c r IH]; simpl; [done|].
  intros H. apply orb_false_iff in H as [Hc Hr].
  apply bool_decide_eq_false in Hc.
  rewrite bool_decide_eq_false_2 by congruence. by rewrite IH.
Qed.

Lemma kebab_without_hyphen_witness : kebabToCamelCase Demo.js "placeholder" = "placeholder".
Proof. apply (kebab_without_hyphen Demo.js "placeholder"). reflexivity. Defined.

Lemma kebab_app js a b :
  occurs "-" a = false → kebabToCamelCase js (a +:+ b) = a +:+ kebabToCamelCase js b.
Proof.
  induction a as [|c r IH]; [done|]. cbn [occurs]. intros H.
  apply orb_false_iff in H as [Hc Hr]. apply bool_decide_eq_false in Hc.
  change (String c r +:+ b) with (String c (r +:+ b)). cbn [kebabToCamelCase].
  rewrite bool_decide_eq_false_2 by congruence. by rewrite IH.
Qed.

Lemma kebab_word js word rest :
  kebabWord word = true →
  kebabToCamelCase js ("-" +:+ word +:+ rest) = capitalize word +:+ kebabToCamelCase js rest.
Proof.
  destruct word as [|c r]; [done|]. cbn [kebabWord occurs]. intros H.
  apply andb_true_iff in H as [H Hh]. apply andb_true_iff in H as [Ha Hl].
  apply negb_true_iff in Hl, Hh. apply orb_false_iff in Hh as [Hc Hr].
  change ("-" +:+ String c r +:+ rest) with (String "-" (String c (r +:+ rest))).
  cbn [kebabToCamelCase]. rewrite bool_decide_eq_true_2 by done.
  rewrite Hl. apply bool_decide_eq_false in Hc.
  rewrite (bool_decide_eq_false_2 (c = "-"%char)) by congruence.
  rewrite Ha. cbn [capitalize]. change (String (toUpper c) r +:+ kebabToCamelCase js rest)
    with (String (toUpper c) (r +:+ kebabToCamelCase js rest)).
  by rewrite kebab_app.
Qed.

(** X2. The camel case of a name in kebab case: the hyphens are dropped
    and every word after a hyphen starts in upper case. *)
Theorem kebab_name_is_camel_cased (js : Host) (first : string) (words : list string) :
  occurs "-" first = false →
  Forall (λ word, kebabWord word = true) words →
  kebabToCamelCase js (kebabCase first words) = camelCase first words.
Proof.
  intros Hfirst Hwords. unfold kebabCase, camelCase. rewrite kebab_app by done. f_equal.
  induction Hwords as [|word rest Hword _ IH]; [done|].
  cbn [foldr]. rewrite kebab_word by done. by rewrite IH.
Qed.

Lemma kebab_name_is_camel_cased_witness :
  kebabToCamelCase Demo.js "border-top-color" = "borderTopColor".
Proof.
  apply (kebab_name_is_camel_cased Demo.js "border" ["top"; "color"]); [reflexivity|].
  repeat constructor.
Defined.

Lemma startsWith_arrow_cut c r a b :
  cutArrow r = (a, b) → startsWith "->" (String c r) = false →
  startsWith "->" (String c a) = false.
Proof.
  intros Hcut H. cbn [startsWith] in *.
  case_bool_decide as Ec; [|done]. simpl in *.
  destruct r as [|d r']; simpl in Hcut.
  - by injection Hcut as <- <-.
  - destruct (bool_decide ("-"%char = d) && _) eqn:E2.
    + by injection Hcut as <- <-.
    + destruct (cutArrow r') as [a' b']. injection Hcut as <- <-.
      simpl. simpl in H. by rewrite andb_true_r in *.
Qed.

Lemma cutArrow_spec s :
  s = (cutArrow s).1 +:+ match (cutArrow s).2 with Some r => "->" +:+ r | None => "" end
  ∧ hasArrow (cutArrow s).1 = false
  ∧ (hasArrow s = bool_decide (is_Some (cutArrow s).2)).
Proof.
  induction s as [|c r IH].
  - done.
  - cbn [cutArrow hasArrow]. destruct (startsWith "->" (String c r)) eqn:E.
    + simpl. repeat split.
      cbn [startsWith] in E. apply andb_true_iff in E as [E1 E2].
      apply bool_decide_eq_true in E1 as <-.
      destruct r as [|d r']; [done|]. simpl in E2. rewrite andb_true_r in E2.
      by apply bool_decide_eq_true in E2 as <-.
    + destruct (cutArrow r) as [a b] eqn:Hcut. simpl in *.
      destruct IH as (IH1 & IH2 & IH3). repeat split.
      * by rewrite IH1 at 1.
      * rewrite IH2, orb_false_r.
        pose proof (startsWith_arrow_cut c r a b Hcut E) as H. exact H.
      * exact IH3.
Qed.

Lemma append_empty (s : string) : s +:+ "" = s.
Proof.
  induction s as [|c r IH]; [done|]. change (String c (r +:+ "") = String c r). by rewrite IH.
Qed.

(** X3. The query of a fetch attribute is cut at its first arrow: with
    an arrow, the fetch arguments are the text before it, which holds no
    arrow, and the target is the text after it; without one, the query
    is all arguments and the target is empty. *)
Theorem fetch_query_splits_at_first_arrow (query : string) :
  if hasArrow query then
    query = beforeArrow query +:+ "->" +:+ afterArrow query ∧
    hasArrow (beforeArrow query) = false
  else beforeArrow query = query ∧ afterArrow query = "".
Proof.
  destruct (cutArrow_spec query) as (H1 & H2 & H3).
  unfold beforeArrow, afterArrow. rewrite H3.
  destruct (cutArrow query).2 as [r|]; simpl.
  - by split.
  - split; [|done]. pose proof (append_empty (cutArrow query).1) as E. congruence.
Qed.

Lemma argOf_fold rawArgs k : ∀ a,
  truthy (fold_left (λ a v, let '(k', x) := parseArg v in if bool_decide (k' = k) then x else a)
            rawArgs a)
  = existsb (λ v, bool_decide ((parseArg v).1 = k)) rawArgs
    || (truthy a && negb (existsb (λ v, bool_decide ((parseArg v).1 = k)) rawArgs)).
Proof.
  induction rawArgs as [|v r IH]; intros a; simpl.
  - by rewrite andb_true_r.
  - rewrite IH. destruct (parseArg v) as [k' x] eqn:E. simpl.
    case_bool_decide; simpl.
    + assert (truthy x = true) as ->.
      { unfold parseArg in E. destruct (splitChar ":" v) as [|? [|y ?]]; simplify_eq; try done.
        by case_bool_decide. }
      simpl. by destruct (existsb _ r).
    + done.
Qed.

(** X4. An event modifier is on exactly when the attribute name lists
    it: whatever value follows its colon, also [false] or [0], the
    modifier is on, and one that is not listed is off. *)
Theorem modifier_on_iff_listed (rawArgs : list string) (k : string) :
  truthy (argOf rawArgs k) = true ↔ k ∈ (λ v, (parseArg v).1) <$> rawArgs.
Proof.
  unfold argOf. rewrite argOf_fold. simpl. rewrite orb_false_r.
  rewrite existsb_exists, list_elem_of_fmap. split.
  - intros (v & Hin & Hk). apply bool_decide_eq_true in Hk.
    exists v. split; [done|]. by apply list_elem_of_In.
  - intros (v & -> & Hin). exists v. split; [by apply list_elem_of_In|].
    by apply bool_decide_eq_true.
Qed.

(** * Further properties: class Signal *)

Lemma setDelete_absent l ls : l ∉ ls → setDelete l ls = ls.
Proof.
  intros H. unfold setDelete. induction ls as [|x r IH]; simpl; [done|].
  apply not_elem_of_cons in H as [Hx Hr]. unfold sameFunction at 1.
  rewrite bool_decide_eq_false_2 by done. simpl. by rewrite IH.
Qed.

Lemma setDelete_setAdd l ls : l ∉ ls → setDelete l (setAdd l ls) = ls.
Proof.
  intros H. unfold setAdd.
  destruct (existsb (sameFunction l) ls) eqn:E.
  - by apply setDelete_absent.
  - unfold setDelete. rewrite List.filter_app. simpl. unfold sameFunction at 2.
    rewrite bool_decide_eq_true_2 by done. simpl. rewrite app_nil_r.
    by apply setDelete_absent.
Qed.

Lemma alter_listeners_id (f : list Listener → list Listener) s (sigs : list Signal) :
  (∀ x, sigs !! s = Some x → f (listeners x) = listeners x) →
  alter (setListeners f) s sigs = sigs.
Proof.
  intros H. apply list_eq. intros i.
  destruct (decide (i = s)) as [->|Hne].
  - rewrite list_lookup_alter_eq. destruct (sigs !! s) as [x|] eqn:E; [|done].
    simpl. f_equal. unfold setListeners. rewrite (H x eq_refl). by destruct x.
  - by rewrite list_lookup_alter_ne.
Qed.

(** X5. [removeListener] undoes [addListener]: removing a function that
    was not in the Set before it was added leaves every Signal as it
    was.  The cleanup thunk that [addListener] pushed stays on the
    element. *)
Theorem removeListener_undoes_addListener
    (s : SigId) (l : Listener) (elem : ElemId) (w : World) :
  l ∉ sigListeners w s →
  ∃ w1,
    addListener s l (Some elem) w = Ret () w1 ∧
    signals (removeListener s l w1) = signals w ∧
    default [] (cleanup (removeListener s l w1) !! elem)
      = default [] (cleanup w !! elem) ++ [{| cl_signal := s; cl_listener := l |}].
Proof.
  intros Hl. eexists. split; [reflexivity|]. split.
  - simpl. rewrite list_alter_alter_eq.
    apply (alter_listeners_id (setDelete l ∘ setAdd l)). intros x Hx. simpl.
    apply setDelete_setAdd. unfold sigListeners, sigAt in Hl. by rewrite Hx in Hl.
  - simpl. unfold pushCleanup. by rewrite lookup_insert_eq.
Qed.

Lemma removeListener_undoes_addListener_witness :
  ∃ w1,
    addListener 0 {| l_id := 7; l_elem := 1; l_code := CSession "x" |} (Some 1)
      (withSignals (λ _, [newSignalObject]) emptyWorld) = Ret () w1 ∧
    signals (removeListener 0 {| l_id := 7; l_elem := 1; l_code := CSession "x" |} w1)
      = [newSignalObject] ∧
    default [] (cleanup (removeListener 0 {| l_id := 7; l_elem := 1; l_code := CSession "x" |} w1)
                  !! 1)
      = [] ++ [{| cl_signal := 0;
                  cl_listener := {| l_id := 7; l_elem := 1; l_code := CSession "x" |} |}].
Proof.
  apply (removeListener_undoes_addListener 0 {| l_id := 7; l_elem := 1; l_code := CSession "x" |}
           1 (withSignals (λ _, [newSignalObject]) emptyWorld)).
  vm_compute. apply not_elem_of_nil.
Defined.

(** * Further properties: emit and the scope proxy *)

Section Order.

Variable js : Host.

Lemma callListener_leaf_exact emit l v w :
  hostReturns js l v →
  ∃ w', callListener js emit l v w = Ret () w' ∧
        signals w' = signals w ∧ targets w' = targets w ∧ cleanup w' = cleanup w ∧
        trace w' = trace w ++ opening js l v.
Proof.
  intros (op & Hop & Hret). unfold opening. rewrite Hop.
  unfold hostOp in Hop. unfold callListener, applySetter.
  destruct (l_code l) as [st|b|p var script|var|var|var]; try done; injection Hop as <-;
    unfold mbind, M_bind, modify;
    rewrite ?hostCall_returns by apply Hret; by eexists.
Qed.

Lemma emitFrom_leaf_exact s : ∀ fuel i w,
  (∀ l, l ∈ sigListeners w s → hostReturns js l (sigValue w s)) →
  length (sigListeners w s) - i < fuel →
  ∃ w', emitFrom js fuel s i w = Ret () w' ∧
        signals w' = signals w ∧ targets w' = targets w ∧ cleanup w' = cleanup w ∧
        trace w' = trace w ++
          concat ((λ l, EvCall l s (sigValue w s) :: opening js l (sigValue w s))
                    <$> drop i (sigListeners w s)).
Proof.
  induction fuel as [|fuel IH]; intros i w Hleaf Hlt; [lia|]. simpl.
  destruct (sigListeners w s !! i) as [l|] eqn:El.
  - assert (hostReturns js l (sigValue w s)) as Hl by (eapply Hleaf, list_elem_of_lookup_2, El).
    destruct (callListener_leaf_exact (λ s', emitFrom js fuel s' 0) l (sigValue w s)
                (record (EvCall l s (sigValue w s)) w) Hl)
      as (w2 & Hcall & Hsig & Htar & Hcl & Htr).
    unfold mbind, M_bind, modify. rewrite Hcall.
    assert (sigAt w2 s = sigAt w s) as Hsame by (unfold sigAt; by rewrite Hsig).
    assert (sigListeners w2 s = sigListeners w s) as HsameL by (unfold sigListeners; by rewrite Hsame).
    assert (sigValue w2 s = sigValue w s) as HsameV by (unfold sigValue; by rewrite Hsame).
    destruct (IH (S i) w2) as (w' & Hrun & Hsig' & Htar' & Hcl' & Htr').
    + rewrite HsameL, HsameV. exact Hleaf.
    + rewrite HsameL. apply lookup_lt_Some in El. lia.
    + exists w'. split; [exact Hrun|].
      split; [by rewrite Hsig', Hsig|]. split; [by rewrite Htar', Htar|].
      split; [by rewrite Hcl', Hcl|].
      rewrite Htr', Htr, HsameL, HsameV. simpl.
      rewrite (drop_S _ _ _ El). simpl. by rewrite <- !app_assoc.
  - eexists. split; [reflexivity|]. repeat split.
    apply lookup_ge_None in El. rewrite drop_ge by done. simpl. by rewrite app_nil_r.
Qed.

(** X6. [emit] calls the listeners of the Signal in the order in which
    they were added, each once and each with the value of the Signal:
    when none of them runs a script and their calls into the host
    return, the run returns, creates no Signal and records exactly
    these calls, each followed by the call into the host that its
    listener makes with that value. *)
Theorem emit_calls_in_registration_order (fuel : nat) (s : SigId) (w : World) :
  (∀ l, l ∈ sigListeners w s → hostReturns js l (sigValue w s)) →
  length (sigListeners w s) < fuel →
  ∃ w',
    emit js fuel s w = Ret () w' ∧
    signals w' = signals w ∧
    trace w' = trace w ++
      concat ((λ l, EvCall l s (sigValue w s) :: opening js l (sigValue w s))
                <$> sigListeners w s).
Proof.
  intros Hleaf Hfuel.
  destruct (emitFrom_leaf_exact s fuel 0 w Hleaf ltac:(lia)) as (w' & Hrun & Hsig & _ & _ & Htr).
  exists w'. by rewrite drop_0 in Htr.
Qed.

End Order.

Lemma outermost_declaredIn w p key :
  declaredIn w p key = match outermost w p key with Some _ => true | None => false end.
Proof.
  induction p as [c|t parent IH]; cbn [declaredIn outermost]; [done|].
  rewrite IH. destruct (outermost w parent key) as [r|]; [done|]. simpl.
  by destruct (own w t key) as [s|].
Qed.

Lemma resolve_Some w p key r :
  resolve w p key = Some r → inherited key = false ∧ outermost w p key = Some r.
Proof. unfold resolve. by destruct (inherited key). Qed.

Lemma resolve_outermost w p key : inherited key = false → resolve w p key = outermost w p key.
Proof. unfold resolve. by intros ->. Qed.

Lemma resolve_hasP w p key :
  inherited key = false →
  hasP w p key = match resolve w p key with Some _ => true | None => false end.
Proof.
  intros Hi. rewrite hasP_declaredIn, Hi, resolve_outermost by done. apply outermost_declaredIn.
Qed.

Lemma outermost_own w p key owner s :
  outermost w p key = Some (owner, s) → owner ∈ chainTargets p ∧ own w owner key = Some s.
Proof.
  induction p as [c|t parent IH]; simpl; [done|].
  destruct (outermost w parent key) as [r|].
  - intros [= ->]. destruct (IH eq_refl). split; [by right|done].
  - destruct (own w t key) as [s'|] eqn:E; [|done]. intros [= <- <-]. split; [left|done].
Qed.

Lemma resolve_own w p key owner s :
  resolve w p key = Some (owner, s) → owner ∈ chainTargets p ∧ own w owner key = Some s.
Proof. intros H. apply resolve_Some in H as [_ H]. by apply outermost_own. Qed.

Lemma resolve_ext w w' p key :
  (∀ t, own w' t key = own w t key) → resolve w' p key = resolve w p key.
Proof.
  intros H. unfold resolve. destruct (inherited key); [done|].
  induction p as [c|t parent IH]; simpl; [done|]. by rewrite IH, H.
Qed.

Lemma proxyGet_resolve w p key owner s :
  resolve w p key = Some (owner, s) → proxyGet p key w = Ret (sigValue w s) w.
Proof.
  intros H. apply resolve_Some in H as [Hi H]. revert H.
  induction p as [c|t parent IH]; simpl; [done|].
  rewrite hasP_declaredIn, Hi, outermost_declaredIn. simpl.
  destruct (outermost w parent key) as [r|].
  - intros [= ->]. by apply IH.
  - unfold ensureSignal. destruct (own w t key) as [s'|] eqn:E; [|done].
    by intros [= <- <-].
Qed.

Lemma proxySet_resolve emit w p key v owner s :
  resolve w p key = Some (owner, s) →
  proxySet emit p key v w = emit s (assigned owner key s v w).
Proof.
  intros H. apply resolve_Some in H as [Hi H]. revert H.
  induction p as [c|t parent IH]; simpl; [done|].
  rewrite hasP_declaredIn, Hi, outermost_declaredIn. simpl.
  destruct (outermost w parent key) as [r|].
  - intros [= ->]. by apply IH.
  - unfold assignLocal, ensureSignal. destruct (own w t key) as [s'|] eqn:E; [|done].
    by intros [= <- <-].
Qed.

Lemma own_valid w t key s : own w t key = Some s → t < length (targets w).
Proof.
  unfold own, targetAt. intros H. apply lookup_lt_is_Some.
  destruct (targets w !! t); [eauto|]. simpl in H. by rewrite lookup_empty in H.
Qed.

Lemma own_assigned w t key s v t' k : own (assigned t key s v w) t' k = own w t' k.
Proof. unfold assigned. by rewrite <- (own_setOld key (sigValue w s) t t' k w). Qed.

Section RoundTrip.

Variable js : Host.

(** X7. Write, then read.  When the listeners of the Signal a name
    resolves to run no script and their calls into the host with the
    written value return, a write through a scope returns, a read
    through the same scope then yields the written value and changes
    nothing, and the scope that owns the name, and no other, records
    the previous value under [old]. *)
Theorem write_then_read
    (fuel : nat) (p : Proxy) (key : string) (v : Value) (w : World)
    (owner : TargetId) (s : SigId) :
  wfNames w →
  resolve w p key = Some (owner, s) →
  (∀ l, l ∈ sigListeners w s → hostReturns js l v) →
  length (sigListeners w s) < fuel →
  ∃ w',
    proxySet (emit js fuel) p key v w = Ret () w' ∧
    proxyGet p key w' = Ret v w' ∧
    resolve w' p key = Some (owner, s) ∧
    t_old (targetAt w' owner) !! key = Some (sigValue w s) ∧
    ∀ t, t ≠ owner → t_old (targetAt w' t) = t_old (targetAt w t).
Proof.
  intros Hwf Hres Hleaf Hfuel.
  destruct (resolve_own _ _ _ _ _ Hres) as [Hin Hown].
  pose proof (own_valid _ _ _ _ Hown) as Hvalid.
  pose proof (Hwf _ _ _ Hown) as Hs.
  rewrite (proxySet_resolve _ _ _ _ _ _ _ Hres).
  set (w1 := assigned owner key s v w).
  assert (sigListeners w1 s = sigListeners w s) as HL.
  { unfold w1, assigned, sigListeners, sigAt. simpl. rewrite list_lookup_alter_eq.
    by destruct (signals w !! s). }
  assert (sigValue w1 s = v) as HV.
  { unfold w1, assigned, sigValue, sigAt. simpl. rewrite list_lookup_alter_eq.
    apply lookup_lt_is_Some in Hs as [x ->]. done. }
  destruct (emitFrom_leaf_exact js s fuel 0 w1) as (w' & Hrun & Hsig & Htar & _ & _).
  { by rewrite HL, HV. } { rewrite HL. lia. }
  exists w'. split; [exact Hrun|].
  assert (∀ t k, own w' t k = own w t k) as Hown'.
  { intros t k. transitivity (own w1 t k); [|apply own_assigned].
    unfold own, targetAt. by rewrite Htar. }
  assert (resolve w' p key = Some (owner, s)) as Hres'.
  { rewrite <- Hres. apply resolve_ext. intros t. apply Hown'. }
  split; [|split; [exact Hres'|]].
  - rewrite (proxyGet_resolve _ _ _ _ _ Hres'). do 2 f_equal.
    unfold sigValue, sigAt. rewrite Hsig. unfold w1, assigned. simpl.
    rewrite list_lookup_alter_eq. apply lookup_lt_is_Some in Hs as [x ->]. done.
  - unfold targetAt. rewrite Htar. unfold w1, assigned. simpl. split.
    + rewrite list_lookup_alter_eq. apply lookup_lt_is_Some in Hvalid as [x ->]. simpl.
      by rewrite lookup_insert_eq.
    + intros t Hne. by rewrite list_lookup_alter_ne.
Qed.

End RoundTrip.

Lemma proxyGet_fresh w t parent key :
  t < length (targets w) →
  hasP w (Prox t parent) key = false →
  let w1 := record (EvNewSignal t key (length (signals w)))
              (withTargets (alter (addSignal key (length (signals w))) t)
                 (withSignals (λ l, l ++ [newSignalObject]) w)) in
  proxyGet (Prox t parent) key w = Ret VUndef w1 ∧
  own w1 t key = Some (length (signals w)) ∧
  (∀ t' k, (t', k) ≠ (t, key) → own w1 t' k = own w t' k) ∧
  sigValue w1 (length (signals w)) = VUndef ∧
  ∀ s, sigValue w1 s = sigValue w s.
Proof.
  intros Ht Hhas w1. simpl in Hhas. apply orb_false_iff in Hhas as [Hpar Hown].
  apply bool_decide_eq_false in Hown.
  assert (own w t key = None) as Hnone by (destruct (own w t key); [exfalso; eauto|done]).
  assert (∀ t' k, own w1 t' k =
            if decide (t = t' ∧ key = k ∧ t < length (targets w)) then Some (length (signals w))
            else own w t' k) as Hown1.
  { intros t' k. unfold w1.
    pose proof (own_addSignal key (length (signals w)) t t' k
                  (withSignals (λ l, l ++ [newSignalObject]) w)) as H.
    exact H. }
  assert (∀ s, sigValue w1 s = sigValue w s) as Hval.
  { intros s. unfold sigValue. f_equal. apply (sigAt_new s w). }
  split; [|split; [|split; [|split]]].
  - simpl. rewrite Hpar. unfold ensureSignal. rewrite Hnone. do 2 f_equal.
    fold w1. rewrite Hval. unfold sigValue, sigAt. by rewrite lookup_ge_None_2.
  - rewrite Hown1. by rewrite decide_True.
  - intros t' k Hne. rewrite Hown1. rewrite decide_False; [done|].
    intros (-> & -> & _). done.
  - rewrite Hval. unfold sigValue, sigAt. by rewrite lookup_ge_None_2.
  - exact Hval.
Qed.

Lemma proxyGet_delegates w t parent key :
  hasP w parent key = true → proxyGet (Prox t parent) key w = proxyGet parent key w.
Proof. simpl. by intros ->. Qed.

Lemma proxySet_delegates emit w t parent key v :
  hasP w parent key = true → proxySet emit (Prox t parent) key v w = proxySet emit parent key v w.
Proof. simpl. by intros ->. Qed.

(** X8. A name that a parent scope comes to declare hides the variable
    of that name in a child scope.  Let a child scope own [key] while
    its parent chain does not have it.  Reading [key] through the parent
    creates the parent's Signal, and from then on reads through the
    child yield the parent's value ([undefined]) and writes through the
    child go to the parent's Signal, although the child's Signal still
    holds its value. *)
Theorem parent_read_hides_child_variable
    (w : World) (t t0 : TargetId) (gp : Proxy) (key : string) (s : SigId) :
  t0 < length (targets w) →
  hasP w (Prox t0 gp) key = false →
  own w t key = Some s →
  ∃ w1,
    proxyGet (Prox t (Prox t0 gp)) key w = Ret (sigValue w s) w ∧
    proxyGet (Prox t0 gp) key w = Ret VUndef w1 ∧
    own w1 t key = Some s ∧ sigValue w1 s = sigValue w s ∧
    proxyGet (Prox t (Prox t0 gp)) key w1 = Ret VUndef w1 ∧
    ∀ emit v,
      proxySet emit (Prox t (Prox t0 gp)) key v w1 = proxySet emit (Prox t0 gp) key v w1.
Proof.
  intros Ht0 Hhas Hown.
  destruct (proxyGet_fresh w t0 gp key Ht0 Hhas) as (Hget & Hnew & Hrest & Hundef & Hval).
  eexists. split; [|split; [exact Hget|]].
  - cbn [proxyGet]. rewrite Hhas. unfold ensureSignal. by rewrite Hown.
  - set (w1 := record _ _) in *.
    assert (t ≠ t0) as Hne.
    { intros ->. apply hasP_false with (t := t0) in Hhas; [|left]. congruence. }
    assert (hasP w1 (Prox t0 gp) key = true) as Hhas1.
    { apply hasP_true. exists t0, (length (signals w)). split; [left|exact Hnew]. }
    split; [|split; [apply Hval|split]].
    + rewrite Hrest; [done|]. congruence.
    + rewrite (proxyGet_delegates _ _ _ _ Hhas1).
      apply proxyGet_stable; [by eapply hasP_inherited|exact Hhas1|].
      intros t' s' Hin Hs'.
      destruct (decide (t' = t0)) as [->|Hne'].
      * rewrite Hnew in Hs'. injection Hs' as <-. exact Hundef.
      * rewrite Hrest in Hs' by congruence.
        apply hasP_false with (t := t') in Hhas; [|exact Hin]. congruence.
    + intros emit v. by apply proxySet_delegates.
Qed.

Section FirstWrite.

Variable js : Host.

(** X9. The first write of a name that no scope of the chain has
    declares it in the writing scope only: one Signal is created, it
    holds the written value and has no listener, the parent chain and
    every other scope still do not have the name, a read through the
    writing scope yields the value, and [old] holds [undefined]. *)
Theorem first_write_declares_locally
    (fuel : nat) (w : World) (t : TargetId) (parent : Proxy) (key : string) (v : Value) :
  t < length (targets w) →
  t ∉ chainTargets parent →
  hasP w (Prox t parent) key = false →
  ∃ w1,
    proxySet (emit js (S fuel)) (Prox t parent) key v w = Ret () w1 ∧
    signals w1 = signals w ++ [{| value := v; listeners := [] |}] ∧
    own w1 t key = Some (length (signals w)) ∧
    (∀ t' k, (t', k) ≠ (t, key) → own w1 t' k = own w t' k) ∧
    hasP w1 parent key = false ∧
    proxyGet (Prox t parent) key w1 = Ret v w1 ∧
    t_old (targetAt w1 t) !! key = Some VUndef ∧
    trace w1 = trace w ++ [EvNewSignal t key (length (signals w)); EvAssign (length (signals w)) v].
Proof.
  intros Ht Hnotin Hhas.
  destruct (proxySet_first js fuel w t parent key v Ht Hhas)
    as (w1 & Hrun & Hsig & Hown & Hrest & Hold & _ & Htr).
  pose proof Hhas as Hpar. simpl in Hpar. apply orb_false_iff in Hpar as [Hpar _].
  assert (hasP w1 parent key = false) as Hpar1.
  { apply hasP_fresh; [by eapply hasP_inherited|]. intros t' Hin. rewrite Hrest.
    - by apply (hasP_false w parent key Hpar).
    - intros [= -> ]. done. }
  exists w1. do 4 (split; [done|]). split; [exact Hpar1|]. split; [|by split].
  cbn [proxyGet]. rewrite Hpar1. unfold ensureSignal. rewrite Hown. do 2 f_equal.
  unfold sigValue, sigAt. rewrite Hsig. rewrite lookup_app_r by lia.
  by rewrite Nat.sub_diag.
Qed.

(** X10. [setup], the constructor of a component and the fetch handler
    only add: whether the run returns or throws, every trace, Set of
    listeners and cleanup array is extended at its end, every name
    keeps its Signal, and a Signal keeps its value unless the run
    records an assignment to it. *)
Theorem setup_only_adds
    (fuel : nat) (elem : Node) (parentstate : PState) (pparentstate : Proxy)
    (c : ComponentDef) (this : ElemId) (query : string) (pstate : Proxy)
    (datatype : option string) (res : Response) (w : World) :
  after (λ _, evolves w) (evolves w) (setup js fuel elem parentstate pparentstate w) ∧
  after (λ _, evolves w) (evolves w) (construct js (emit js fuel) c this w) ∧
  after (λ _, evolves w) (evolves w) (fetchHandler js (emit js fuel) query pstate datatype res w).
Proof.
  split; [|split].
  - apply (keeps_setup js (evolves w) (λ _, True) (evolves_kept w) (evolves_keptAttr w)
             (evolves_keptTree w) fuel elem ltac:(done)). apply evolves_refl.
  - apply (keeps_construct js (evolves w) (λ _, True) (evolves_kept w) (evolves_keptAttr w)
             (evolves_keptTree w) (emit js fuel)).
    + intros s. apply (keeps_emit js (evolves w) (λ _, True) (evolves_kept w)).
    + done.
    + apply evolves_refl.
  - apply (keeps_fetchHandler js (evolves w) (λ _, True) (evolves_kept w) (emit js fuel)).
    + intros s. apply (keeps_emit js (evolves w) (λ _, True) (evolves_kept w)).
    + apply evolves_refl.
Qed.

End FirstWrite.

(** * Further properties: bindings and declarations *)

Lemma hasP_evolves w w' p key : evolves w w' → hasP w p key = true → hasP w' p key = true.
Proof.
  intros Hev. rewrite !hasP_declaredIn. destruct (inherited key); [done|]. simpl.
  rewrite !declaredIn_true. intros (t & s & Hin & Hown).
  exists t, s. split; [done|]. by apply (ev_own _ _ Hev).
Qed.

Lemma hasP_ext w w' p key :
  (∀ t, own w' t key = own w t key) → hasP w' p key = hasP w p key.
Proof.
  intros H. induction p as [c|t parent IH]; simpl; [done|]. by rewrite IH, H.
Qed.

(** Once a read has returned, the name is settled: any world that shows
    the same Signals under the name, with the same values, answers the
    read with the same value and is not changed by it. *)
Lemma proxyGet_settled p key : ∀ w v wa,
  wfChain w p →
  proxyGet p key w = Ret v wa →
  ∀ w1, (∀ t, own w1 t key = own wa t key) → (∀ s, sigValue w1 s = sigValue wa s) →
  proxyGet p key w1 = Ret v w1.
Proof.
  induction p as [c|t parent IH]; intros w v wa Hwf Hget w1 Hown Hval.
  - simpl in *. by injection Hget as <- <-.
  - assert (t < length (targets w)) as Ht by (apply Hwf; left).
    assert (wfChain w parent) as Hwf' by (intros t' Hin; apply Hwf; by right).
    destruct (hasP w parent key) eqn:Hpar.
    + rewrite (proxyGet_delegates _ _ _ _ Hpar) in Hget.
      assert (hasP wa parent key = true) as Hpar_a.
      { assert (evolves w wa) as Hev.
        { eapply (run_evolves (proxyGet parent key)); [|exact Hget].
          apply keeps_proxyGet with (okElem := λ _, True). apply evolves_kept. }
        by eapply hasP_evolves. }
      assert (hasP w1 parent key = true) as Hpar1.
      { rewrite <- Hpar_a. by apply hasP_ext. }
      rewrite (proxyGet_delegates _ _ _ _ Hpar1). by eapply IH.
    + pose proof (hasP_inherited _ _ _ Hpar) as Hi.
      destruct (own w t key) as [s|] eqn:Et.
      * simpl in Hget. rewrite Hpar in Hget. unfold ensureSignal in Hget. rewrite Et in Hget.
        injection Hget as <- <-.
        assert (resolve w1 (Prox t parent) key = Some (t, s)) as Hres.
        { rewrite (resolve_ext w w1) by done. rewrite resolve_outermost by done. simpl.
          pose proof (outermost_declaredIn w parent key) as H.
          rewrite hasP_declaredIn, Hi in Hpar. simpl in Hpar. rewrite Hpar in H.
          destruct (outermost w parent key); [done|]. by rewrite Et. }
        rewrite (proxyGet_resolve _ _ _ _ _ Hres). by rewrite Hval.
      * assert (hasP w (Prox t parent) key = false) as Hhas.
        { simpl. rewrite Hpar. simpl. apply bool_decide_eq_false. rewrite Et. by intros [? ?]. }
        destruct (proxyGet_fresh w t parent key Ht Hhas) as (Hget' & Hnew & Hrest & Hundef & _).
        rewrite Hget in Hget'. injection Hget' as -> ->.
        set (wa := record _ _) in *.
        apply proxyGet_stable; [exact Hi| |].
        -- apply hasP_true. exists t, (length (signals w)). split; [left|]. by rewrite Hown.
        -- intros t' s' Hin Hs'. rewrite Hown in Hs'.
           destruct (decide (t' = t)) as [->|Hne].
           ++ rewrite Hnew in Hs'. injection Hs' as <-. by rewrite Hval.
           ++ rewrite Hrest in Hs' by congruence.
              apply hasP_false with (t := t') in Hhas; [congruence|exact Hin].
Qed.

(** X11. A template binding subscribes to each name once.  After a read
    of [key] through the [$dependencyScraper] has returned, a second
    read yields the same value and changes nothing: no listener is
    added and no cleanup thunk is pushed. *)
Theorem template_binding_subscribes_once
    (b : TemplateBinding) (setter : Listener) (key : string) (w w1 : World) (v : Value) :
  wfChain w (tb_state b) →
  tb_deps b < length (depsets w) →
  scraperGet b setter key w = Ret v w1 →
  key ∈ default [] (depsets w1 !! tb_deps b) ∧
  scraperGet b setter key w1 = Ret v w1.
Proof.
  intros Hwf Hdeps Hrun. unfold scraperGet in Hrun.
  apply bind_Ret in Hrun as (val & wa & Hget & Hrun).
  assert (depsets wa = depsets w) as Hd.
  { clear Hrun. revert w val wa Hwf Hdeps Hget.
    induction (tb_state b) as [c|t parent IH]; intros w val wa Hwf Hdeps Hget; simpl in Hget.
    - by injection Hget as <- <-.
    - destruct (hasP w parent key).
      + eapply IH; [|done|exact Hget]. intros t' Hin. apply Hwf. by right.
      + unfold ensureSignal in Hget. destruct (own w t key); by injection Hget as <- <-. }
  apply bind_Ret in Hrun as (deps & wb & Hg & Hrun). injection Hg as <- <-.
  case_bool_decide as Hin.
  - injection Hrun as <- <-. split; [exact Hin|].
    unfold scraperGet, mbind, M_bind.
    rewrite (proxyGet_settled _ _ _ _ _ Hwf Hget wa) by done.
    unfold gets. by rewrite bool_decide_eq_true_2.
  - apply bind_Ret in Hrun as (s & wb & Hg & Hrun). injection Hg as <- <-.
    apply bind_Ret in Hrun as ([] & wc & Hsub & Hrun).
    apply bind_Ret in Hrun as ([] & wd & Hmod & Hrun). injection Hrun as <- <-.
    injection Hmod as <-.
    destruct (lookupSignal wa (tb_parentstate b) (tb_own b) key) as [sid|]; [|done].
    simpl in Hsub. injection Hsub as <-.
    assert (key ∈ default [] (depsets (withDepsets (alter (λ d, d ++ [key]) (tb_deps b))
              (withCleanup (pushCleanup (l_elem setter) {| cl_signal := sid; cl_listener := setter |})
                 (withSignals (alter (setListeners (setAdd setter)) sid) wa))) !! tb_deps b)) as Hk.
    { simpl. rewrite list_lookup_alter_eq. rewrite Hd.
      apply lookup_lt_is_Some in Hdeps as [d ->]. simpl. apply elem_of_app. right. left. }
    split; [exact Hk|].
    unfold scraperGet, mbind, M_bind.
    rewrite (proxyGet_settled _ _ _ _ _ Hwf Hget _); [| done |].
    + unfold gets. by rewrite bool_decide_eq_true_2.
    + intros s. apply (sigValue_setListeners (setAdd setter) sid s wa).
Qed.

Lemma splitChar_absent c s : occurs c s = false → splitChar c s = [s].
Proof.
  induction s as [|d r IH]; simpl; [done|].
  intros H. apply orb_false_iff in H as [Hd Hr]. rewrite Hd. by rewrite IH.
Qed.

Section Declarations.

Variable js : Host.

(** X12. A [#let] attribute whose name has no colon faults: the name
    has no second segment, the engine throws a TypeError and the world
    is left as it was. *)
Theorem let_without_colon_faults
    (emit : SigId → M unit) (elem : ElemId) (attr : Attr) (parentstate : PState)
    (state : TargetId) (pstate : Proxy) (w : World) :
  startsWith "#let" (a_name attr) = true →
  occurs ":" (a_name attr) = false →
  setupAttribute js emit elem attr parentstate state pstate w
    = Threw (TypeError "attr.name.split(':')[1] is undefined") w.
Proof.
  intros Hlet Hcolon. unfold setupAttribute. rewrite Hlet.
  destruct (a_name attr) as [|c r] eqn:En; [done|].
  simpl in Hlet. apply andb_true_iff in Hlet as [Hc _]. apply bool_decide_eq_true in Hc as <-.
  simpl. unfold setupLet. rewrite En. by rewrite (splitChar_absent _ _ Hcolon).
Qed.

Lemma proxySet_declares fuel t parent key v w w' :
  t < length (targets w) →
  proxySet (emit js fuel) (Prox t parent) key v w = Ret () w' →
  hasP w' (Prox t parent) key = true.
Proof.
  intros Ht Hrun.
  destruct (hasP w (Prox t parent) key) eqn:Hhas.
  - eapply hasP_evolves; [|exact Hhas].
    eapply (run_evolves (proxySet (emit js fuel) (Prox t parent) key v)); [|exact Hrun].
    apply keepsE_proxySet.
  - pose proof Hhas as Hhas0. simpl in Hhas. apply orb_false_iff in Hhas as [Hpar Hown].
    simpl in Hrun. rewrite Hpar in Hrun.
    destruct (assignLocal t key v w) as [s wa] eqn:Ea.
    assert (own wa t key = Some s) as Hs.
    { unfold assignLocal, ensureSignal in Ea.
      apply bool_decide_eq_false in Hown.
      destruct (own w t key) eqn:Eo; [exfalso; eauto|]. injection Ea as <- <-.
      pose proof (own_setOld key
        (sigValue (record (EvNewSignal t key (length (signals w)))
                     (withTargets (alter (addSignal key (length (signals w))) t)
                        (withSignals (λ l, l ++ [newSignalObject]) w))) (length (signals w)))
        t t key
        (record (EvNewSignal t key (length (signals w)))
           (withTargets (alter (addSignal key (length (signals w))) t)
              (withSignals (λ l, l ++ [newSignalObject]) w)))) as H1.
      pose proof (own_addSignal key (length (signals w)) t t key
                    (withSignals (λ l, l ++ [newSignalObject]) w)) as H2.
      rewrite decide_True in H2 by done.
      unfold own, targetAt in *. simpl in *. by rewrite H1, H2. }
    assert (evolves wa w') as Hev.
    { eapply (run_evolves (emit js fuel s)); [|exact Hrun]. apply keepsE_emit. }
    apply hasP_true. exists t, s. split; [left|]. by apply (ev_own _ _ Hev).
Qed.

(** X13. A [#let] attribute that has been set up has declared its
    variable under the camel-cased name: the scope of the element has
    [myVar] after [#let:my-var]. *)
Theorem let_declares_camel_cased_name
    (fuel : nat) (elem : ElemId) (attr : Attr) (parentstate : PState) (state t : TargetId)
    (parent : Proxy) (w w' : World) (seg0 decl : string) (segs : list string)
    (varName : string) (deps : list string) :
  t < length (targets w) →
  splitChar ":" (a_name attr) = seg0 :: decl :: segs →
  splitChar "|" decl = varName :: deps →
  setupLet js (emit js fuel) elem attr parentstate state (Prox t parent) w = Ret () w' →
  hasP w' (Prox t parent) (kebabToCamelCase js varName) = true.
Proof.
  intros Ht Hname Hdecl Hrun.
  destruct (setupLet_Ret js fuel elem attr parentstate state (Prox t parent) w w'
              seg0 decl segs varName deps Hname Hdecl Hrun)
    as (v & w1 & w2 & w3 & s & Hinit & Hset & Hdeps & Hlook & ->).
  assert (evolves w w1) as Hev1.
  { destruct (storedValue _ _ _).
    - destruct Hinit as [_ ->]. apply evolves_refl.
    - eapply (run_evolves (scopedEval js (emit js fuel) (ThisState (Prox t parent)) _));
        [|exact Hinit]. apply keepsE_scopedEval. }
  assert (t < length (targets w1)) as Ht1.
  { pose proof (ev_targets _ _ Hev1). lia. }
  pose proof (proxySet_declares fuel t parent _ v w1 w2 Ht1 Hset) as Hhas.
  assert (evolves w2 w3) as Hev23.
  { refine (proj1 (forEach_Ret _ deps w2 w3 _ Hdeps)).
    intros x w0. unfold subscribeDependency.
    apply keeps_bind; [apply keeps_gets|]. intros sg. apply keepsE_subscribeNew. }
  eapply hasP_evolves; [|exact Hhas].
  eapply evolves_trans; [exact Hev23|].
  eapply evolves_trans; [apply evolves_nextListener|]. apply evolves_registered.
Qed.

(** X14. Setting up a template binding declares a variable named by the
    whole attribute value: after the listener is created the engine
    reads [$state[attr.value]], and the read creates the Signal when no
    scope has the name.  It is there whether the first evaluation of
    the template returns or throws. *)
Theorem template_binding_declares_its_text
    (fuel : nat) (elem : ElemId) (attr : Attr) (parentstate : PState) (state t : TargetId)
    (parent : Proxy) (w : World) :
  isTemplateLiteral (a_value attr) = true →
  t < length (targets w) →
  after (λ _ w', hasP w' (Prox t parent) (a_value attr) = true)
        (λ w', hasP w' (Prox t parent) (a_value attr) = true)
        (setupBinding js (emit js fuel) elem attr parentstate state (Prox t parent) w).
Proof.
  intros Htpl Ht. unfold setupBinding. rewrite Htpl.
  eapply after_bind with (P := λ _ w1, t < length (targets w1)).
  { simpl. exact Ht. }
  intros setter w1 Ht1.
  destruct (proxyGet (Prox t parent) (a_value attr) w1) as [| |e wa|v wa] eqn:Hget.
  { unfold mbind, M_bind. by rewrite Hget. }
  { unfold mbind, M_bind. by rewrite Hget. }
  { exfalso. revert Hget. generalize (Prox t parent). intros p. revert w1 Ht1.
    induction p as [c|t' parent' IH]; intros w1 Ht1; simpl; [done|].
    destruct (hasP w1 parent' (a_value attr)); [by apply IH|].
    by destruct (ensureSignal _ _ _). }
  assert (hasP wa (Prox t parent) (a_value attr) = true) as Hhas.
  { destruct (hasP w1 (Prox t parent) (a_value attr)) eqn:Hh.
    - eapply hasP_evolves; [|exact Hh].
      eapply (run_evolves (proxyGet (Prox t parent) (a_value attr))); [|exact Hget].
      apply keeps_proxyGet with (okElem := λ _, True). apply evolves_kept.
    - destruct (proxyGet_fresh w1 t parent _ Ht1 Hh) as (Hget' & Hnew & _).
      rewrite Hget in Hget'. injection Hget' as -> ->.
      apply hasP_true. eexists t, _. split; [left|exact Hnew]. }
  unfold mbind at 1, M_bind at 1. rewrite Hget.
  eapply after_weaken.
  - apply (keeps_callListener js (evolves wa) (λ _, True) (evolves_kept wa) (emit js fuel)).
    + intros s. apply (keepsE_emit js wa).
    + done.
    + apply evolves_refl.
  - intros u w' Hev. simpl in Hev. by eapply hasP_evolves.
  - intros w' Hev. by eapply hasP_evolves.
Qed.

(** X15. A binding to a declared name subscribes and renders at once:
    the setter is added to the Signal found under the name, with its
    cleanup thunk on the element, and is called once with the value the
    name has in the scope of the element.  When that call into the host
    returns, so does the setup, and the call is all it records. *)
Theorem binding_subscribes_and_renders
    (emit : SigId → M unit) (elem : ElemId) (attr : Attr) (parentstate : PState)
    (state : TargetId) (pstate : Proxy) (w : World) (sid : SigId) (owner : TargetId) (s : SigId) :
  isTemplateLiteral (a_value attr) = false →
  lookupSignal w parentstate state (a_value attr) = Some sid →
  sid < length (signals w) →
  resolve w pstate (a_value attr) = Some (owner, s) →
  let setter := createSetter js (dropFirst (a_name attr)) elem in
  let l := {| l_id := nextListener w; l_elem := elem; l_code := CSetter setter |} in
  answer js (trace w) (setterOp setter (sigValue w s)) = Returns →
  ∃ w',
    setupBinding js emit elem attr parentstate state pstate w = Ret () w' ∧
    l ∈ sigListeners w' sid ∧
    {| cl_signal := sid; cl_listener := l |} ∈ default [] (cleanup w' !! elem) ∧
    trace w' = trace w ++ [EvDom (setterOp setter (sigValue w s))].
Proof.
  intros Htpl Hlook Hsid Hres setter l Hret. unfold setupBinding. rewrite Htpl.
  set (w1 := withNextListener (S (nextListener w)) w).
  set (w2 := registered sid l w1).
  assert (resolve w2 pstate (a_value attr) = Some (owner, s)) as Hres2.
  { rewrite <- Hres. by apply resolve_ext. }
  assert (sigValue w2 s = sigValue w s) as Hval.
  { apply (sigValue_setListeners (setAdd l) sid s w1). }
  exists (record (EvDom (setterOp setter (sigValue w s))) w2). split.
  - assert (lookupSignal w1 parentstate state (a_value attr) = Some sid) as Hlook1 by exact Hlook.
    unfold mbind, M_bind, newListener, gets. fold setter. fold w1. fold l. rewrite Hlook1.
    unfold subscribe, addListener, mbind, M_bind, modify, mret, M_ret.
    change (withCleanup _ (withSignals _ w1)) with w2.
    rewrite (proxyGet_resolve _ _ _ _ _ Hres2). rewrite Hval.
    unfold callListener, applySetter. cbn [l_code l].
    by apply hostCall_returns.
  - split; [|split].
    + apply (registered_elem sid l w1). exact Hsid.
    + unfold w2, registered. simpl. apply pushCleanup_new.
    + done.
Qed.

End Declarations.

(** * Further properties: fetch targets and insertion *)

Lemma cutArrow_app a r : hasArrow a = false → cutArrow (a +:+ "->" +:+ r) = (a, Some r).
Proof.
  induction a as [|c a' IH]; [done|].
  cbn [hasArrow]. intros H. apply orb_false_iff in H as [Hc Ha].
  change (String c a' +:+ "->" +:+ r) with (String c (a' +:+ "->" +:+ r)).
  cbn [cutArrow].
  assert (startsWith "->" (String c (a' +:+ "->" +:+ r)) = false) as ->.
  { cbn [startsWith] in *. destruct (bool_decide ("-"%char = c)); [|done]. simpl in *.
    destruct a' as [|d a'']; [done|]. exact Hc. }
  by rewrite (IH Ha).
Qed.

Lemma cutArrow_none a : hasArrow a = false → cutArrow a = (a, None).
Proof.
  induction a as [|c a' IH]; [done|].
  cbn [hasArrow cutArrow]. intros H. apply orb_false_iff in H as [Hc Ha].
  rewrite Hc. by rewrite (IH Ha).
Qed.

Lemma splitArrow2_two a b : hasArrow a = false → hasArrow b = false →
  splitArrow2 (a +:+ "->" +:+ b) = (a, Some b).
Proof.
  intros Ha Hb. unfold splitArrow2, beforeArrow.
  by rewrite (cutArrow_app a b Ha), (cutArrow_none b Hb).
Qed.

Lemma splitArrow2_three a b rest : hasArrow a = false → hasArrow b = false →
  splitArrow2 (a +:+ "->" +:+ b +:+ "->" +:+ rest) = (a, Some b).
Proof.
  intros Ha Hb. unfold splitArrow2, beforeArrow.
  by rewrite (cutArrow_app a _ Ha), (cutArrow_app b rest Hb).
Qed.

Section FetchTargets.

Variable js : Host.

(** X17. [insertAtTarget] reads two segments of its target: whatever
    follows a second arrow is ignored. *)
Theorem insertAtTarget_ignores_third_segment
    (selector point rest content : string) (w : World) :
  hasArrow selector = false →
  hasArrow point = false →
  insertAtTarget js (selector +:+ "->" +:+ point +:+ "->" +:+ rest) content w
    = insertAtTarget js (selector +:+ "->" +:+ point) content w.
Proof.
  intros Ha Hb. unfold insertAtTarget.
  by rewrite (splitArrow2_three _ _ rest Ha Hb), (splitArrow2_two _ _ Ha Hb).
Qed.

(** X18. The insertion point is compared before it is trimmed.  Unless
    the text after the arrow is exactly [outerHTML] or [textContent] (or
    empty), it is trimmed and handed to [insertAdjacentHTML], and the
    outcome of the insertion is the outcome of that call: so are the two
    keywords when white space follows the arrow. *)
Theorem insertAtTarget_compares_untrimmed
    (selector point content : string) (w : World) :
  hasArrow selector = false →
  hasArrow point = false →
  point ≠ "outerHTML" → point ≠ "textContent" → point ≠ "" →
  insertAtTarget js (selector +:+ "->" +:+ point) content w
    = hostCall js (DomInsertAdjacentHTML (trim selector) (trim point) content) w.
Proof.
  intros Ha Hb H1 H2 H3. unfold insertAtTarget.
  rewrite (splitArrow2_two _ _ Ha Hb).
  by rewrite !bool_decide_eq_false_2 by done.
Qed.

(** X16. A fetch whose target is neither [this], [console] nor a name
    that the scope has when the response arrives does not declare the
    name: the target is taken as a selector, the body is read as text
    whatever datatype the modifier names, and the handler ends as the
    one call into the document that inserts it. *)
Theorem fetch_to_undeclared_name_inserts
    (emit : SigId → M unit) (query : string) (pstate : Proxy) (datatype : option string)
    (res : Response) (w w1 : World) (request content : Value) :
  ok res = true →
  scopedEval js emit (ThisState pstate) ("return fetch(" +:+ beforeArrow query +:+ ")") w
    = Ret request w1 →
  trim (afterArrow query) ≠ "this" →
  trim (afterArrow query) ≠ "console" →
  hasP w1 pstate (trim (afterArrow query)) = false →
  body res "text" = Some content →
  fetchHandler js emit query pstate datatype res w
    = insertAtTarget js (trim (afterArrow query)) (toStr js content) w1 ∧
  ∃ op, insertAtTarget js (trim (afterArrow query)) (toStr js content) w1 = hostCall js op w1.
Proof.
  intros Hok Heval Hthis Hconsole Hhas Hbody.
  unfold fetchHandler.
  set (m := scopedEval js emit (ThisState pstate) _) in *.
  unfold mbind, M_bind. rewrite Heval, Hok. simpl negb. cbv iota.
  rewrite !bool_decide_eq_false_2 by done.
  unfold gets. cbn [negb]. cbv beta iota. rewrite Hhas.
  assert (readBody res None = mret content) as -> by (unfold readBody; simpl; by rewrite Hbody).
  unfold mret, M_ret. split; [reflexivity|].
  unfold insertAtTarget. destruct (splitArrow2 _) as [targetQuery insertionPoint]. eauto.
Qed.

End FetchTargets.

Lemma insertAtTarget_ignores_third_segment_witness :
  insertAtTarget Demo.js ("#list" +:+ "->" +:+ "beforeEnd" +:+ "->" +:+ "x") "<li></li>" emptyWorld
    = insertAtTarget Demo.js ("#list" +:+ "->" +:+ "beforeEnd") "<li></li>" emptyWorld.
Proof.
  apply (insertAtTarget_ignores_third_segment Demo.js "#list" "beforeEnd" "x"); reflexivity.
Defined.

Lemma insertAtTarget_compares_untrimmed_witness :
  insertAtTarget MoreDocs.strict ("#id1 " +:+ "->" +:+ " outerHTML") "<p></p>" emptyWorld
    = hostCall MoreDocs.strict
        (DomInsertAdjacentHTML (trim "#id1 ") (trim " outerHTML") "<p></p>") emptyWorld.
Proof.
  apply (insertAtTarget_compares_untrimmed MoreDocs.strict "#id1 " " outerHTML");
    [reflexivity|reflexivity|..]; intros H; discriminate H.
Defined.

(** With a space after the arrow [outerHTML] is no keyword: it is the
    position of an [insertAdjacentHTML], which a host that checks the
    position refuses. *)
Example outerHTML_after_space_faults :
  insertAtTarget MoreDocs.strict "#id1 -> outerHTML" "<p></p>" emptyWorld
    = Threw (HostError "SyntaxError") emptyWorld ∧
  insertAtTarget MoreDocs.strict "#id1 ->outerHTML" "<p></p>" emptyWorld
    = Ret () (record (EvDom (DomSetOuterHTML "#id1" "<p></p>")) emptyWorld).
Proof. split; vm_compute; reflexivity. Qed.

(** * Further properties: components and the scope of an element *)

Lemma attributeValue_Some name attrs :
  plainName name →
  is_Some (attributeValue name attrs) ↔ name ∈ a_name <$> attrs.
Proof.
  intros (Hi & Hm & Hp & Hu). unfold attributeValue. rewrite Hi, Hp, Hu.
  rewrite bool_decide_eq_false_2 by done. simpl.
  rewrite fmap_is_Some. induction attrs as [|a r IH]; simpl.
  - split; [by intros [? ?]|]. intros H. by apply elem_of_nil in H.
  - case_bool_decide as E.
    + split; [|by eauto]. intros _. rewrite E. left.
    + rewrite IH. rewrite elem_of_cons. split; [by right|]. intros [->|H]; done.
Qed.

Section Observed.

Variable js : Host.

(** X19. The attributes a component observes are exactly the attributes
    of its template whose name starts with none of [#], [:] and [@].
    The template has a default script for each of them that the
    collection of attributes answers by name: for those the constructor
    never finds an observed attribute missing. *)
Theorem observed_attributes_have_defaults
    (elem : Node) (pstate : Proxy) (w w' : World) :
  setupComponent js elem pstate w = Ret () w' →
  ∃ c,
    w' = record (EvDom (DomDefine c)) w ∧
    c_elem c = elem ∧ c_state c = pstate ∧
    attributeValue "#component" (n_attributes elem) = Some (c_name c) ∧
    (∀ attr, attr ∈ c_attributes c ↔
       isExternal attr = true ∧ attr ∈ a_name <$> n_attributes elem) ∧
    ∀ attr, attr ∈ c_attributes c → plainName attr →
      is_Some (attributeValue attr (n_attributes elem)).
Proof.
  unfold setupComponent. destruct (attributeValue "#component" _) as [componentName|]; [|done].
  intros Hrun. apply hostCall_Ret in Hrun as [_ ->]. eexists. split; [reflexivity|]. simpl.
  split; [done|]. split; [done|]. split; [done|]. split.
  - intros attr. split.
    + intros Hin. apply list_elem_of_In, filter_In in Hin as [Hin Hext]. split; [exact Hext|].
      by apply list_elem_of_In.
    + intros [Hext Hval]. apply list_elem_of_In, filter_In. split; [|exact Hext].
      by apply list_elem_of_In.
  - intros attr Hin Hplain. apply attributeValue_Some; [done|].
    apply list_elem_of_In, filter_In in Hin as [Hin _]. by apply list_elem_of_In.
Qed.

End Observed.

Lemma elem_of_concat {A} (x : A) (ls : list (list A)) :
  x ∈ concat ls ↔ ∃ l, l ∈ ls ∧ x ∈ l.
Proof.
  rewrite list_elem_of_In, in_concat. split; intros (l & H1 & H2); exists l;
    by rewrite ?list_elem_of_In in *.
Qed.

Section Scopes.

Variable js : Host.

Lemma keptOutside_kept ids m : Kept (keptOutside ids m) (λ _, True).
Proof. split; try done. Qed.

Lemma keptOutside_keptAttr ids m : KeptAttr (keptOutside ids m).
Proof. split; try done. Qed.

Lemma setup_keptOutside fuel elem : ∀ ids m parentstate pparentstate,
  (∀ e, e ∈ nodeIds elem → e ∈ ids) →
  keeps (keptOutside ids m) (setup js fuel elem parentstate pparentstate).
Proof.
  induction elem as [id tagName attributes textContent children content IH]
    using Node_children_ind.
  intros ids m parentstate pparentstate Hids. cbn [setup].
  assert (id ∈ ids) as Hid by (apply Hids; cbn [nodeIds]; left).
  apply keeps_bind; [by intros w Hw|]. intros [state pstate].
  apply keeps_bind.
  { apply keeps_modify. intros w Hw e He. simpl. rewrite lookup_insert_ne; [by apply Hw|].
    intros ->. done. }
  intros _. apply keeps_bind; [apply keeps_modify; by intros w Hw|]. intros _.
  destruct (_ && _).
  { apply (keeps_setupComponent js _ (λ _, True) (keptOutside_kept ids m)). }
  apply keeps_bind.
  { apply keeps_forEach. intros attr _.
    apply (keeps_setupAttribute js _ (λ _, True) (keptOutside_kept ids m)
             (keptOutside_keptAttr ids m)); [|done].
    intros s. apply (keeps_emit js _ (λ _, True) (keptOutside_kept ids m)). }
  intros _. apply keeps_bind; [apply keeps_gets|]. intros merged.
  assert (∀ child e, child ∈ children → e ∈ nodeIds child → e ∈ ids) as Hsub.
  { intros child e Hc He. apply Hids. cbn [nodeIds]. right.
    clear -Hc He. induction children as [|c r IHc]; [by apply elem_of_nil in Hc|].
    apply elem_of_app. apply elem_of_cons in Hc as [->|Hc]; [by left|right; by apply IHc]. }
  clear Hids. induction IH as [|child rest Hchild _ IHrest]; [apply keeps_ret|].
  apply keeps_bind.
  - apply Hchild. intros e He. eapply Hsub; [left|exact He].
  - intros _. apply IHrest. intros c e Hc. apply Hsub. by right.
Qed.

(** X20. A [setup] that returns, the host not having called back into
    the engine on the way, has attached a fresh scope, chained to the
    scope it is given, to the element, replacing whatever scope the
    element carried (also one that a component constructor attached),
    and has changed the scope of no element outside the tree. *)
Theorem setup_attaches_fresh_scope
    (fuel : nat) (id : ElemId) (tagName : string) (attributes : list Attr) (textContent : string)
    (children content : list Node) (parentstate : PState) (pparentstate : Proxy) (w w' : World) :
  setup js fuel (MkNode id tagName attributes textContent children content)
    parentstate pparentstate w = Ret () w' →
  (∀ child, child ∈ children → id ∉ nodeIds child) →
  elemState w' !! id = Some (length (targets w), Prox (length (targets w)) pparentstate) ∧
  ∀ e, e ∉ nodeIds (MkNode id tagName attributes textContent children content) →
    elemState w' !! e = elemState w !! e.
Proof.
  intros Hrun Hfresh. split.
  - set (m := <[id := (length (targets w), Prox (length (targets w)) pparentstate)]> (elemState w)).
    set (ids := concat (nodeIds <$> children)).
    assert (id ∉ ids) as Hid.
    { unfold ids. intros Hin. apply elem_of_concat in Hin as (l & Hl & Hin).
      apply list_elem_of_fmap in Hl as (child & -> & Hc). by apply (Hfresh child). }
    enough (keptOutside ids m w') as H by (rewrite (H id Hid); apply lookup_insert_eq).
    cbn [setup] in Hrun.
    apply bind_Ret in Hrun as ([state pstate] & w1 & Hc & Hrun). injection Hc as <- <- <-.
    apply bind_Ret in Hrun as ([] & w2 & Hm & Hrun). injection Hm as <-.
    apply bind_Ret in Hrun as ([] & w3 & Hm & Hrun). injection Hm as <-.
    match type of Hrun with ?rest ?w3 = _ =>
      assert (keeps (keptOutside ids m) rest) as Hkeeps; [|
        assert (keptOutside ids m w3) as Hw3 by (by intros e He);
        specialize (Hkeeps w3 Hw3); by rewrite Hrun in Hkeeps]
    end.
    destruct (_ && _).
    { apply (keeps_setupComponent js _ (λ _, True) (keptOutside_kept ids m)). }
    apply keeps_bind.
    { apply keeps_forEach. intros attr _.
      apply (keeps_setupAttribute js _ (λ _, True) (keptOutside_kept ids m)
               (keptOutside_keptAttr ids m)); [|done].
      intros s. apply (keeps_emit js _ (λ _, True) (keptOutside_kept ids m)). }
    intros _. apply keeps_bind; [apply keeps_gets|]. intros merged.
    assert (∀ child e, child ∈ children → e ∈ nodeIds child → e ∈ ids) as Hsub.
    { intros child e Hc He. unfold ids. apply elem_of_concat.
      exists (nodeIds child). split; [|done]. apply list_elem_of_fmap. eauto. }
    clearbody ids. clear -Hsub. induction children as [|child rest IH]; [apply keeps_ret|].
    apply keeps_bind.
    + apply setup_keptOutside. intros e He. eapply Hsub; [left|exact He].
    + intros _. apply IH. intros c e Hc. apply Hsub. by right.
  - pose proof (setup_keptOutside fuel (MkNode id tagName attributes textContent children content)
                  (nodeIds (MkNode id tagName attributes textContent children content))
                  (elemState w) parentstate pparentstate ltac:(done) w ltac:(done)) as H.
    rewrite Hrun in H. exact H.
Qed.

(** X21. The template of a component is defined, not set up: when the
    registration of the definition with the host returns, [setup] of a
    [TEMPLATE] element with a [#component] attribute returns after it
    has attached the scope and registered the definition.  No attribute
    of the template is evaluated, no child is visited, no Signal is
    created and no listener is registered. *)
Theorem template_is_defined_not_set_up
    (fuel : nat) (id : ElemId) (attributes : list Attr) (textContent : string)
    (children content : list Node) (parentstate : PState) (pparentstate : Proxy) (w : World)
    (componentName : string) :
  hasAttribute "#component" attributes = true →
  attributeValue "#component" attributes = Some componentName →
  let definition :=
    {| c_name := componentName;
       c_elem := MkNode id "TEMPLATE" attributes textContent children content;
       c_attributes := List.filter isExternal (a_name <$> attributes);
       c_state := Prox (length (targets w)) pparentstate |} in
  answer js (trace w) (DomDefine definition) = Returns →
  ∃ w',
    setup js fuel (MkNode id "TEMPLATE" attributes textContent children content)
      parentstate pparentstate w = Ret () w' ∧
    signals w' = signals w ∧ cleanup w' = cleanup w ∧ nextListener w' = nextListener w ∧
    trace w' = trace w ++ [EvDom (DomDefine definition)].
Proof.
  intros Hhas Hname definition Hret.
  eexists. split.
  - cbn [setup]. unfold mbind, M_bind, createStateSignals, modify.
    rewrite Hhas. rewrite bool_decide_eq_true_2 by done. cbn [andb].
    unfold setupComponent. cbn [n_attributes]. rewrite Hname.
    apply hostCall_returns. exact Hret.
  - done.
Qed.

(** X22. A change of an observed attribute of a freshly constructed
    instance is a write through the scope of the component: the scope
    that the constructor attached is still the one the element
    carries. *)
Theorem attribute_change_writes_component_scope
    (fuel : nat) (c : ComponentDef) (this : ElemId) (name : string) (newValue : Value)
    (w w' : World) :
  construct js (emit js fuel) c this w = Ret () w' →
  attributeChangedCallback js fuel this name newValue w'
    = proxySet (emit js fuel) (Prox (length (targets w)) (Plain (Some this))) name newValue w'.
Proof.
  intros Hrun. apply construct_loops in Hrun.
  pose proof (keeps_constructLoops js (λ w0, elemState w0 = elemState (constructed c this w))
                (λ _, True) (sameElemState_kept _) (sameElemState_keptAttr _)
                (emit js fuel) (λ s, keeps_emit js _ _ (sameElemState_kept _) fuel s)
                c this (length (targets w)) (Prox (length (targets w)) (Plain (Some this)))
                Logic.I _ eq_refl) as H.
  rewrite Hrun in H. simpl in H.
  unfold attributeChangedCallback, mbind, M_bind, gets. rewrite H.
  by rewrite lookup_insert_eq.
Qed.

Lemma undoSetup_elemState_None elem : ∀ w e,
  elemState w !! e = None → elemState (undoSetup elem w) !! e = None.
Proof.
  induction elem as [id tagName attributes textContent children content IH]
    using Node_children_ind.
  intros w e He. cbn [undoSetup].
  set (undoChildren := fix undoChildren (cs : list Node) (w : World) : World :=
         match cs with
         | [] => w
         | child :: rest => undoChildren rest (undoSetup child w)
         end).
  assert (elemState (undoChildren children w) !! e = None) as H1.
  { clear -IH He. revert w He. induction IH as [|child rest Hchild _ IHrest]; intros w He; simpl;
      [done|]. apply IHrest. by apply Hchild. }
  set (w1 := undoChildren children w) in *.
  assert (∀ cs w0, elemState (fold_left (λ w c, runCleanup c w) cs w0) = elemState w0) as H2.
  { induction cs as [|c r IHc]; intros w0; simpl; [done|]. by rewrite IHc. }
  simpl. rewrite H2. destruct (decide (id = e)) as [->|Hne].
  - apply lookup_delete_eq.
  - by rewrite lookup_delete_ne.
Qed.

(** X23. After [disconnectedCallback] the instance carries no scope.  A
    later change of an observed attribute throws a TypeError and changes
    nothing, and a later [connectedCallback] sets the children of the
    shadow root up as roots, with the default arguments of [setup]: their
    scope chains no longer lead to the scope of the component. *)
Theorem disconnected_instance_has_no_scope
    (fuel : nat) (c : ComponentDef) (this : ElemId) (shadow : list Node) (w w' : World) :
  disconnectedCallback js fuel c this shadow w = Ret () w' →
  elemState w' !! this = None ∧
  (∀ name newValue,
     attributeChangedCallback js fuel this name newValue w'
       = Threw (TypeError "this.$state is undefined") w') ∧
  ∀ c' shadow',
    connectedCallback js fuel c' this shadow' w'
      = (_ ← forEach (λ child, setup js fuel child (PSnap ∅) (Plain None)) shadow';
         forEach (evalInstance js (emit js fuel) this) (onConnectedScripts c')) w'.
Proof.
  intros Hrun. unfold disconnectedCallback in Hrun.
  apply bind_Ret in Hrun as ([] & w1 & _ & Hrun).
  apply bind_Ret in Hrun as ([] & w2 & Hdel & Hrun). injection Hdel as <-.
  assert (elemState w' !! this = None) as Hnone.
  { assert (elemState (withElemState (delete this) w1) !! this = None) as H0
      by apply lookup_delete_eq.
    revert Hrun H0. generalize (withElemState (delete this) w1). clear.
    induction shadow as [|child rest IH]; intros w0 Hrun H0; simpl in Hrun.
    - by injection Hrun as <-.
    - apply (IH (undoSetup child w0)); [exact Hrun|]. by apply undoSetup_elemState_None. }
  split; [exact Hnone|]. split.
  - intros name newValue. unfold attributeChangedCallback, mbind, M_bind, gets. by rewrite Hnone.
  - intros c' shadow'. unfold connectedCallback.
    unfold mbind at 1, M_bind at 1, gets at 1. by rewrite Hnone.
Qed.

End Scopes.

(** * Further properties: teardown *)

Lemma runCleanups_signals cs : ∀ w,
  signals (fold_left (λ w c, runCleanup c w) cs w) = removeAll cs (signals w) ∧
  cleanup (fold_left (λ w c, runCleanup c w) cs w) = cleanup w ∧
  targets (fold_left (λ w c, runCleanup c w) cs w) = targets w ∧
  stores (fold_left (λ w c, runCleanup c w) cs w) = stores w ∧
  elemState (fold_left (λ w c, runCleanup c w) cs w) = elemState w.
Proof.
  induction cs as [|c r IH]; intros w; simpl; [done|].
  destruct (IH (runCleanup c w)) as (H1 & H2 & H3 & H4 & H5).
  rewrite H1, H2, H3, H4, H5. done.
Qed.

(** What [undoSetup] does to the Signals is to run the thunks of the
    elements of the tree. *)
Lemma undoSetup_thunks elem : ∀ w,
  ∃ cs,
    signals (undoSetup elem w) = removeAll cs (signals w) ∧
    (∀ c, c ∈ cs ↔ ∃ e, e ∈ nodeIds elem ∧ c ∈ default [] (cleanup w !! e)) ∧
    cleanup (undoSetup elem w) = cleanup w ∧
    targets (undoSetup elem w) = targets w ∧
    stores (undoSetup elem w) = stores w ∧
    (∀ e, e ∉ nodeIds elem → elemState (undoSetup elem w) !! e = elemState w !! e) ∧
    (∀ e, e ∈ nodeIds elem → elemState (undoSetup elem w) !! e = None).
Proof.
  induction elem as [id tagName attributes textContent children content IH]
    using Node_children_ind.
  intros w. cbn [undoSetup nodeIds].
  set (undoChildren := fix undoChildren (cs : list Node) (w : World) : World :=
         match cs with
         | [] => w
         | child :: rest => undoChildren rest (undoSetup child w)
         end).
  set (ids := fix ids (cs : list Node) : list ElemId :=
         match cs with
         | [] => []
         | child :: rest => nodeIds child ++ ids rest
         end).
  assert (∀ w, ∃ cs,
            signals (undoChildren children w) = removeAll cs (signals w) ∧
            (∀ c, c ∈ cs ↔ ∃ e, e ∈ ids children ∧ c ∈ default [] (cleanup w !! e)) ∧
            cleanup (undoChildren children w) = cleanup w ∧
            targets (undoChildren children w) = targets w ∧
            stores (undoChildren children w) = stores w ∧
            (∀ e, e ∉ ids children → elemState (undoChildren children w) !! e = elemState w !! e) ∧
            (∀ e, elemState w !! e = None → elemState (undoChildren children w) !! e = None) ∧
            (∀ e, e ∈ ids children → elemState (undoChildren children w) !! e = None))
    as Hchildren.
  { clear w. induction IH as [|child rest Hchild _ IHrest]; intros w; simpl.
    - exists []. repeat split; try done.
      + intros Hc. by apply elem_of_nil in Hc.
      + intros (e & He & _). by apply elem_of_nil in He.
      + intros e He. by apply elem_of_nil in He.
    - destruct (Hchild w) as (cs1 & S1 & M1 & C1 & T1 & St1 & E1 & N1).
      destruct (IHrest (undoSetup child w)) as (cs2 & S2 & M2 & C2 & T2 & St2 & E2 & K2 & N2).
      exists (cs1 ++ cs2). split; [|split; [|split; [|split; [|split; [|split; [|split]]]]]].
      + rewrite S2, S1. unfold removeAll. by rewrite fold_left_app.
      + intros c. rewrite elem_of_app, M1, M2. rewrite C1. split.
        * intros [(e & He & Hc)|(e & He & Hc)]; exists e; (split; [|done]);
            apply elem_of_app; [by left|by right].
        * intros (e & He & Hc). apply elem_of_app in He as [He|He]; [left|right]; eauto.
      + by rewrite C2, C1.
      + by rewrite T2, T1.
      + by rewrite St2, St1.
      + intros e He. apply not_elem_of_app in He as [He1 He2]. rewrite E2 by done. by apply E1.
      + intros e He. apply K2. by apply undoSetup_elemState_None.
      + intros e He. apply elem_of_app in He as [He|He].
        * apply K2. by apply N1.
        * by apply N2. }
  destruct (Hchildren w) as (cs1 & S1 & M1 & C1 & T1 & St1 & E1 & K1 & N1).
  set (w1 := undoChildren children w) in *.
  destruct (runCleanups_signals (default [] (cleanup w1 !! id)) w1) as (S2 & C2 & T2 & St2 & E2).
  exists (cs1 ++ default [] (cleanup w !! id)).
  split; [|split; [|split; [|split; [|split; [|split]]]]].
  - simpl. rewrite S2, S1, C1. unfold removeAll. by rewrite fold_left_app.
  - intros c. rewrite elem_of_app, M1. split.
    + intros [(e & He & Hc)|Hc]; [exists e|exists id]; (split; [|done]); [by right|left].
    + intros (e & He & Hc). apply elem_of_cons in He as [->|He]; [by right|left; eauto].
  - simpl. by rewrite C2.
  - simpl. by rewrite T2.
  - unfold stores in *. simpl. exact (eq_trans St2 St1).
  - intros e He. apply not_elem_of_cons in He as [Hne He]. simpl.
    rewrite lookup_delete_ne by done. rewrite E2. by apply E1.
  - intros e He. simpl. destruct (decide (id = e)) as [->|Hne]; [apply lookup_delete_eq|].
    rewrite lookup_delete_ne by done. rewrite E2. apply N1.
    apply elem_of_cons in He as [->|He]; done.
Qed.

Lemma removeAll_listeners cs : ∀ sigs s,
  listeners (default newSignalObject (removeAll cs sigs !! s))
  = List.filter (λ x, forallb (λ c, negb (bool_decide (cl_signal c = s ∧ cl_listener c = x))) cs)
      (listeners (default newSignalObject (sigs !! s))).
Proof.
  induction cs as [|c r IH]; intros sigs s; simpl.
  - induction (listeners _) as [|x xs IHx]; simpl; [done|]. by rewrite <- IHx.
  - unfold removeAll in *. rewrite IH.
    destruct (decide (cl_signal c = s)) as [<-|Hne].
    + rewrite list_lookup_alter_eq.
      assert (listeners (default newSignalObject
                (setListeners (setDelete (cl_listener c)) <$> sigs !! cl_signal c))
              = setDelete (cl_listener c) (listeners (default newSignalObject (sigs !! cl_signal c))))
        as -> by (by destruct (sigs !! cl_signal c)).
      unfold setDelete. induction (listeners _) as [|x xs IHx]; simpl; [done|].
      unfold sameFunction at 1 3.
      destruct (decide (cl_listener c = x)) as [E|E].
      * rewrite (bool_decide_eq_true_2 (cl_listener c = x)) by done. simpl.
        rewrite (bool_decide_eq_true_2 (_ ∧ _)) by done. simpl. exact IHx.
      * rewrite (bool_decide_eq_false_2 (cl_listener c = x)) by done. simpl.
        rewrite (bool_decide_eq_false_2 (_ ∧ _)) by (by intros [_ ?]). simpl.
        destruct (forallb _ r); [by f_equal|exact IHx].
    + rewrite list_lookup_alter_ne by done.
      apply filter_ext. intros x.
      rewrite (bool_decide_eq_false_2 (_ ∧ _)) by (by intros [? _]). done.
Qed.

(** X24. Teardown removes exactly the listeners of the tree.  When the
    listeners and the cleanup thunks correspond, the Set of every Signal
    after [undoSetup] holds the listeners that were registered on
    behalf of elements outside the tree, in their order, and no
    other. *)
Theorem teardown_removes_exactly_the_tree (elem : Node) (w : World) (s : SigId) :
  covered w →
  tidy w →
  sigListeners (undoSetup elem w) s
    = List.filter (λ l, bool_decide (l_elem l ∉ nodeIds elem)) (sigListeners w s).
Proof.
  intros Hcov Htidy.
  destruct (undoSetup_thunks elem w) as (cs & Hsig & Hmem & _).
  unfold sigListeners, sigAt at 1. rewrite Hsig, removeAll_listeners.
  apply filter_ext_in. intros x Hx. apply list_elem_of_In in Hx.
  destruct (decide (l_elem x ∈ nodeIds elem)) as [Hin|Hout].
  - rewrite (bool_decide_eq_false_2 (_ ∉ _)) by (intros H; by apply H).
    apply not_true_is_false. intros Hall. rewrite forallb_forall in Hall.
    specialize (Hall {| cl_signal := s; cl_listener := x |}).
    rewrite bool_decide_eq_true_2 in Hall by done.
    assert (true = false → False) as Hd by done. apply Hd. symmetry. apply Hall.
    apply list_elem_of_In, Hmem. exists (l_elem x). split; [exact Hin|]. by apply Hcov.
  - rewrite (bool_decide_eq_true_2 (_ ∉ _)) by done.
    apply forallb_forall. intros c Hc. apply list_elem_of_In, Hmem in Hc as (e & He & Hc).
    apply negb_true_iff, bool_decide_eq_false. intros [_ <-].
    apply Htidy in Hc. congruence.
Qed.

(** X25. Teardown changes no variable: [undoSetup] leaves the value of
    every Signal, every scope object and the three stores as they are.
    It does not clear the cleanup arrays either; the elements of the
    tree lose their scope and no other element does. *)
Theorem teardown_changes_no_variable (elem : Node) (w : World) :
  (∀ s, sigValue (undoSetup elem w) s = sigValue w s) ∧
  length (signals (undoSetup elem w)) = length (signals w) ∧
  targets (undoSetup elem w) = targets w ∧
  stores (undoSetup elem w) = stores w ∧
  cleanup (undoSetup elem w) = cleanup w ∧
  (∀ e, e ∈ nodeIds elem → elemState (undoSetup elem w) !! e = None) ∧
  (∀ e, e ∉ nodeIds elem → elemState (undoSetup elem w) !! e = elemState w !! e).
Proof.
  destruct (undoSetup_thunks elem w) as (cs & Hsig & _ & Hcl & Htar & Hst & Hout & Hin).
  assert (∀ sigs, length (removeAll cs sigs) = length sigs ∧
            ∀ s, value (default newSignalObject (removeAll cs sigs !! s))
                 = value (default newSignalObject (sigs !! s))) as Hval.
  { clear. induction cs as [|c r IH]; intros sigs; simpl; [done|].
    unfold removeAll in *. simpl. destruct (IH (alter (setListeners (setDelete (cl_listener c)))
                                                  (cl_signal c) sigs)) as [Hl Hv].
    split; [by rewrite Hl, length_alter|]. intros s. rewrite Hv.
    destruct (decide (cl_signal c = s)) as [<-|Hne].
    - rewrite list_lookup_alter_eq. by destruct (sigs !! cl_signal c).
    - by rewrite list_lookup_alter_ne. }
  destruct (Hval (signals w)) as [Hlen Hv].
  split; [|split; [|by repeat split]].
  - intros s. unfold sigValue, sigAt. rewrite Hsig. apply Hv.
  - by rewrite Hsig.
Qed.

Lemma tidy_kept : Kept tidy (λ _, True).
Proof.
  split; try done.
  intros s l w _ Hw e c. simpl. unfold pushCleanup.
  destruct (decide (l_elem l = e)) as [<-|Hne].
  - rewrite lookup_insert_eq. simpl. intros Hc. apply elem_of_app in Hc as [Hc|Hc].
    + by apply Hw.
    + apply list_elem_of_singleton in Hc as ->. done.
  - rewrite lookup_insert_ne by done. apply Hw.
Qed.

Lemma tidy_keptAttr : KeptAttr tidy.
Proof. split; try done. Qed.

Lemma tidy_keptTree : KeptTree tidy.
Proof. split; try done. Qed.

Lemma tidy_undoSetup elem w : tidy w → tidy (undoSetup elem w).
Proof.
  intros Hw e c. destruct (undoSetup_thunks elem w) as (cs & _ & _ & Hcl & _).
  rewrite Hcl. apply Hw.
Qed.

Lemma keeps_and (I1 I2 : World → Prop) {A} (m : M A) :
  keeps I1 m → keeps I2 m → keeps (λ w, I1 w ∧ I2 w) m.
Proof.
  intros H1 H2 w [Hw1 Hw2]. specialize (H1 w Hw1). specialize (H2 w Hw2).
  destruct (m w); simpl in *; done.
Qed.

Section Correspond.

Variable js : Host.

Lemma tidy_onMutations fuel mutations : keeps tidy (onMutations js fuel mutations).
Proof.
  assert (∀ elem ps pp, keeps tidy (setup js fuel elem ps pp)) as Hsetup.
  { intros elem ps pp.
    by apply (keeps_setup js tidy (λ _, True) tidy_kept tidy_keptAttr tidy_keptTree). }
  apply keeps_forEach. intros mutation _. apply keeps_bind.
  - apply keeps_forEach. intros [parent added] _. unfold setupAdded; simpl.
    destruct parent as [parent|]; [|apply keeps_throw].
    apply keeps_bind; [apply keeps_gets|]. intros [[state pstate]|]; apply Hsetup.
  - intros _. apply keeps_forEach. intros removed _.
    apply keeps_modify. intros w. apply tidy_undoSetup.
Qed.

(** X26. Listeners and cleanup thunks correspond.  In the empty world,
    and after any run of [setup], of the component constructor, of the
    fetch handler or of the tree watcher's callback from a world where
    it holds, whether the run returns or throws: every listener of every
    Signal has its cleanup thunk on the element it was registered for,
    and every thunk of an element removes a listener of that
    element. *)
Theorem listeners_and_thunks_correspond
    (fuel : nat) (elem : Node) (parentstate : PState) (pparentstate : Proxy)
    (c : ComponentDef) (this : ElemId) (query : string) (pstate : Proxy)
    (datatype : option string) (res : Response) (mutations : list Mutation) :
  (covered emptyWorld ∧ tidy emptyWorld) ∧
  keeps (λ w, covered w ∧ tidy w) (setup js fuel elem parentstate pparentstate) ∧
  keeps (λ w, covered w ∧ tidy w) (construct js (emit js fuel) c this) ∧
  keeps (λ w, covered w ∧ tidy w) (fetchHandler js (emit js fuel) query pstate datatype res) ∧
  keeps (λ w, covered w ∧ tidy w) (onMutations js fuel mutations).
Proof.
  split; [|split; [|split; [|split]]].
  - split; [apply covered_emptyWorld|]. intros e c0 Hc. simpl in Hc.
    rewrite lookup_empty in Hc. by apply elem_of_nil in Hc.
  - apply keeps_and.
    + by apply (keeps_setup js covered (λ _, True) covered_kept covered_keptAttr covered_keptTree).
    + by apply (keeps_setup js tidy (λ _, True) tidy_kept tidy_keptAttr tidy_keptTree).
  - apply keeps_and.
    + apply (keeps_construct js covered (λ _, True) covered_kept covered_keptAttr covered_keptTree);
        [|done]. intros s. apply (keeps_emit js covered (λ _, True) covered_kept).
    + apply (keeps_construct js tidy (λ _, True) tidy_kept tidy_keptAttr tidy_keptTree);
        [|done]. intros s. apply (keeps_emit js tidy (λ _, True) tidy_kept).
  - apply keeps_and.
    + apply (keeps_fetchHandler js covered (λ _, True) covered_kept).
      intros s. apply (keeps_emit js covered (λ _, True) covered_kept).
    + apply (keeps_fetchHandler js tidy (λ _, True) tidy_kept).
      intros s. apply (keeps_emit js tidy (λ _, True) tidy_kept).
  - apply keeps_and; [apply covered_onMutations|apply tidy_onMutations].
Qed.

End Correspond.

(** * Further properties: throttled events *)

Section ThrottleFacts.

Variable Ev : Type.

Lemma throttle_dispatches (throws : Ev → bool) (b : list Ev) : ∀ pending steps,
  throttle throws pending ((Dispatch <$> b) ++ steps)
    = throttle throws (match last b with Some e => Some e | None => pending end) steps.
Proof.
  induction b as [|e b' IH]; intros pending steps; [done|].
  cbn [fmap list_fmap app throttle throttleStep]. rewrite IH.
  destruct (throttle throws _ steps) as [later final] eqn:E.
  simpl. rewrite last_cons. destruct (last b'); by rewrite E.
Qed.

(** X29. Throttling hands on the last event of every interval, once.
    When the handler does not throw, a run of the host in which the
    events [b1] are dispatched before the first tick, [b2] between the
    first and the second, and so on, hands to the handler the last
    event of each non-empty block, in order; events dispatched after the
    last tick leave their last one pending. *)
Theorem throttle_hands_on_last_event_per_interval (blocks : list (list Ev)) (rest : list Ev) :
  throttle (λ _, false) None
      (concat ((λ b, (Dispatch <$> b) ++ [Interval]) <$> blocks) ++ (Dispatch <$> rest))
    = (omap last blocks, last rest).
Proof.
  induction blocks as [|b r IH].
  - simpl. rewrite <- (app_nil_r (Dispatch <$> rest)).
    rewrite throttle_dispatches. simpl. by destruct (last rest).
  - cbn [fmap list_fmap concat omap list_omap].
    rewrite <- !app_assoc. rewrite throttle_dispatches.
    cbn [app throttle throttleStep].
    destruct (last b) as [e|]; rewrite IH; done.
Qed.

(** X30. An event whose handling throws stays pending: the statement
    that resets [pending] is not reached, so the same event is handed
    to the handler again at every later tick, until another event is
    dispatched. *)
Theorem throttle_retries_event_that_throws (throws : Ev → bool) (e : Ev) (n : nat) :
  throws e = true →
  throttle throws (Some e) (replicate n Interval) = (replicate n e, Some e).
Proof.
  intros He. induction n as [|n IH]; [done|].
  cbn [replicate throttle throttleStep]. rewrite He, IH. done.
Qed.

End ThrottleFacts.

(** * The further properties on the examples *)

Module MoreExamples.

Import Demo Docs MoreDocs.

Lemma all_return (ls : list Listener) (v : Value) :
  forallb leafb ls = true → ∀ l, l ∈ ls → hostReturns Demo.js l v.
Proof.
  intros H l Hl. rewrite forallb_forall in H. apply list_elem_of_In, H in Hl.
  unfold leafb in Hl. unfold hostReturns, hostOp.
  destruct (l_code l); try done; eexists; (split; [reflexivity|done]).
Qed.

Lemma emit_calls_in_registration_order_witness :
  ∃ w',
    emit Demo.js 3 0 c1_world = Ret () w' ∧
    signals w' = signals c1_world ∧
    trace w' = trace c1_world ++
      concat ((λ l, EvCall l 0 (sigValue c1_world 0) :: opening Demo.js l (sigValue c1_world 0))
                <$> sigListeners c1_world 0).
Proof.
  apply (emit_calls_in_registration_order Demo.js 3 0 c1_world).
  - apply all_return. vm_compute. reflexivity.
  - vm_compute. lia.
Defined.

(** The two listeners of [var1] in [c1_world], in the order of their
    registration, and what each call records. *)
Example emit_order_on_c1 :
  ∃ w',
    emit Demo.js 3 0 c1_world = Ret () w' ∧
    trace w' = trace c1_world ++
      [EvCall {| l_id := 0; l_elem := 1; l_code := CSession "var1" |} 0 (VStr "hello");
       EvDom (DomSetItem true "var1" "hello");
       EvCall {| l_id := 1; l_elem := 2; l_code := CSetter (SetAttr 2 "placeholder" false) |}
         0 (VStr "hello");
       EvDom (DomSetAttr 2 "placeholder" (VStr "hello") false)].
Proof. eexists. split; vm_compute; reflexivity. Qed.

Lemma write_then_read_witness :
  ∃ w',
    proxySet (emit Demo.js 3) (Prox 1 rootScope) "var1" (VStr "yo") c1_world = Ret () w' ∧
    proxyGet (Prox 1 rootScope) "var1" w' = Ret (VStr "yo") w' ∧
    resolve w' (Prox 1 rootScope) "var1" = Some (0, 0) ∧
    t_old (targetAt w' 0) !! "var1" = Some (sigValue c1_world 0) ∧
    ∀ t, t ≠ 0 → t_old (targetAt w' t) = t_old (targetAt c1_world t).
Proof.
  apply (write_then_read Demo.js 3 (Prox 1 rootScope) "var1" (VStr "yo") c1_world 0 0).
  - exact c1_world_wf.
  - vm_compute. reflexivity.
  - apply all_return. vm_compute. reflexivity.
  - vm_compute. lia.
Defined.

Lemma parent_read_hides_child_variable_witness :
  ∃ w1,
    proxyGet (Prox 1 rootScope) "x" nested_world = Ret (sigValue nested_world 0) nested_world ∧
    proxyGet rootScope "x" nested_world = Ret VUndef w1 ∧
    own w1 1 "x" = Some 0 ∧ sigValue w1 0 = sigValue nested_world 0 ∧
    proxyGet (Prox 1 rootScope) "x" w1 = Ret VUndef w1 ∧
    ∀ emit v, proxySet emit (Prox 1 rootScope) "x" v w1 = proxySet emit rootScope "x" v w1.
Proof.
  apply (parent_read_hides_child_variable nested_world 1 0 (Plain None) "x" 0).
  - vm_compute. lia.
  - vm_compute. reflexivity.
  - vm_compute. reflexivity.
Defined.

Lemma first_write_declares_locally_witness :
  ∃ w1,
    proxySet (emit Demo.js 1) (Prox 1 rootScope) "x" (VNum 1) c10_world = Ret () w1 ∧
    signals w1 = signals c10_world ++ [{| value := VNum 1; listeners := [] |}] ∧
    own w1 1 "x" = Some (length (signals c10_world)) ∧
    (∀ t' k, (t', k) ≠ (1, "x") → own w1 t' k = own c10_world t' k) ∧
    hasP w1 rootScope "x" = false ∧
    proxyGet (Prox 1 rootScope) "x" w1 = Ret (VNum 1) w1 ∧
    t_old (targetAt w1 1) !! "x" = Some VUndef ∧
    trace w1 = trace c10_world ++
      [EvNewSignal 1 "x" (length (signals c10_world));
       EvAssign (length (signals c10_world)) (VNum 1)].
Proof.
  apply (first_write_declares_locally Demo.js 0 c10_world 1 rootScope "x" (VNum 1)).
  - vm_compute. lia.
  - intros H. apply list_elem_of_singleton in H. discriminate H.
  - vm_compute. reflexivity.
Defined.

Lemma rootScope_wf w : 0 < length (targets w) → wfChain w rootScope.
Proof. intros H t Ht. apply list_elem_of_singleton in Ht as ->. exact H. Qed.

Lemma template_binding_subscribes_once_witness :
  "var1" ∈ default [] (depsets scraper_after !! tb_deps scraper_binding) ∧
  scraperGet scraper_binding scraper_setter "var1" scraper_after
    = Ret (VStr "hello") scraper_after.
Proof.
  apply (template_binding_subscribes_once scraper_binding scraper_setter "var1"
           scraper_world scraper_after (VStr "hello")).
  - apply rootScope_wf. vm_compute. lia.
  - vm_compute. lia.
  - vm_compute. reflexivity.
Defined.

Lemma let_without_colon_faults_witness :
  setupAttribute Demo.js (emit Demo.js 3) 1 (attr "#let" "1") (PSnap ∅) 0 rootScope rootWorld
    = Threw (TypeError "attr.name.split(':')[1] is undefined") rootWorld.
Proof.
  apply (let_without_colon_faults Demo.js (emit Demo.js 3) 1 (attr "#let" "1")); reflexivity.
Defined.

Lemma let_declares_camel_cased_name_witness :
  hasP hyphen_after rootScope (kebabToCamelCase Demo.js "my-var") = true.
Proof.
  apply (let_declares_camel_cased_name Demo.js 3 1 hyphen_attr (PSnap ∅) 0 0 (Plain None)
           rootWorld hyphen_after "#let" "my-var" [] "my-var" []).
  - vm_compute. lia.
  - reflexivity.
  - reflexivity.
  - vm_compute. reflexivity.
Defined.

(** After [#let:my-var] the scope has [myVar] and not [my-var]. *)
Example let_my_var :
  kebabToCamelCase Demo.js "my-var" = "myVar" ∧
  hasP hyphen_after rootScope "myVar" = true ∧
  hasP hyphen_after rootScope "my-var" = false ∧
  proxyGet rootScope "myVar" hyphen_after = Ret (VStr "a") hyphen_after.
Proof. repeat split; vm_compute; reflexivity. Qed.

Lemma template_binding_declares_its_text_witness :
  after (λ _ w', hasP w' rootScope "${this.var1}" = true)
        (λ w', hasP w' rootScope "${this.var1}" = true)
        (setupBinding Demo.js (emit Demo.js 3) 1 (attr ":title" "${this.var1}") (PSnap ∅) 0
           rootScope c7_world).
Proof.
  apply (template_binding_declares_its_text Demo.js 3 1 (attr ":title" "${this.var1}")
           (PSnap ∅) 0 0 (Plain None) c7_world).
  - reflexivity.
  - vm_compute. lia.
Defined.

Lemma binding_subscribes_and_renders_witness :
  let setter := createSetter Demo.js (dropFirst ":title") 1 in
  let l := {| l_id := nextListener c7_world; l_elem := 1; l_code := CSetter setter |} in
  ∃ w',
    setupBinding Demo.js (emit Demo.js 3) 1 (attr ":title" "var1") (PSnap ∅) 0 rootScope c7_world
      = Ret () w' ∧
    l ∈ sigListeners w' 0 ∧
    {| cl_signal := 0; cl_listener := l |} ∈ default [] (cleanup w' !! 1) ∧
    trace w' = trace c7_world ++ [EvDom (setterOp setter (sigValue c7_world 0))].
Proof.
  apply (binding_subscribes_and_renders Demo.js (emit Demo.js 3) 1 (attr ":title" "var1")
           (PSnap ∅) 0 rootScope c7_world 0 0 0).
  - reflexivity.
  - vm_compute. reflexivity.
  - vm_compute. lia.
  - vm_compute. reflexivity.
  - reflexivity.
Defined.

Lemma fetch_to_undeclared_name_inserts_witness :
  fetchHandler Demo.js (emit Demo.js 3) "'/api' -> #list" rootScope (Some "json") fetch_res
    rootWorld
    = insertAtTarget Demo.js (trim (afterArrow "'/api' -> #list"))
        (toStr Demo.js (VStr "<li></li>")) (record (EvEval "return fetch('/api' )") rootWorld) ∧
  ∃ op,
    insertAtTarget Demo.js (trim (afterArrow "'/api' -> #list"))
      (toStr Demo.js (VStr "<li></li>")) (record (EvEval "return fetch('/api' )") rootWorld)
    = hostCall Demo.js op (record (EvEval "return fetch('/api' )") rootWorld).
Proof.
  apply (fetch_to_undeclared_name_inserts Demo.js (emit Demo.js 3) "'/api' -> #list" rootScope
           (Some "json") fetch_res rootWorld (record (EvEval "return fetch('/api' )") rootWorld)
           (VObj 0) (VStr "<li></li>")).
  - reflexivity.
  - vm_compute. reflexivity.
  - intros H. vm_compute in H. discriminate H.
  - intros H. vm_compute in H. discriminate H.
  - vm_compute. reflexivity.
  - reflexivity.
Defined.

(** A name of [Object.prototype] is in every scope: a fetch into
    [toString] takes the variable branch, which assigns to the plain
    object that ends the chain. *)
Example fetch_to_inherited_name :
  hasP rootWorld rootScope "toString" = true ∧
  fetchHandler Demo.js (emit Demo.js 3) "'/api' -> toString" rootScope None fetch_res rootWorld
    = Beyond.
Proof. split; vm_compute; reflexivity. Qed.

Lemma observed_attributes_have_defaults_witness :
  ∃ c,
    worldAfter (setupComponent Demo.js c8_template rootScope emptyWorld)
      = record (EvDom (DomDefine c)) emptyWorld ∧
    c_elem c = c8_template ∧ c_state c = rootScope ∧
    attributeValue "#component" (n_attributes c8_template) = Some (c_name c) ∧
    (∀ attr, attr ∈ c_attributes c ↔
       isExternal attr = true ∧ attr ∈ a_name <$> n_attributes c8_template) ∧
    ∀ attr, attr ∈ c_attributes c → plainName attr →
      is_Some (attributeValue attr (n_attributes c8_template)).
Proof.
  apply (observed_attributes_have_defaults Demo.js c8_template rootScope emptyWorld
           (worldAfter (setupComponent Demo.js c8_template rootScope emptyWorld))).
  reflexivity.
Defined.

(** An observed attribute whose name is a number is looked up by
    position: the constructor of a component whose template has the
    attributes [#component] and [5] finds none at position 5 and
    faults. *)
Example observed_index_attribute_faults :
  let template := MkNode 2 "TEMPLATE" [attr "#component" "x-five"; attr "5" "1"] "" [] [] in
  let definition := {| c_name := "x-five"; c_elem := template; c_attributes := ["5"];
                       c_state := rootScope |} in
  attributeValue "5" (n_attributes template) = None ∧
  ∃ w', construct Demo.js (emit Demo.js 3) definition 7 rootWorld
          = Threw (TypeError "elem.attributes[attr] is undefined") w'.
Proof. split; [reflexivity|]. eexists. vm_compute. reflexivity. Qed.

Lemma setup_attaches_fresh_scope_witness :
  elemState c1_world !! 1 = Some (length (targets emptyWorld),
                                  Prox (length (targets emptyWorld)) (Plain None)) ∧
  ∀ e, e ∉ nodeIds c1_body → elemState c1_world !! e = elemState emptyWorld !! e.
Proof.
  apply (setup_attaches_fresh_scope Demo.js 3 1 "DIV" [attr "#let:var1" "'hello'"] ""
           [node 2 "INPUT" [attr ":placeholder" "var1"] []] [] (PSnap ∅) (Plain None)
           emptyWorld c1_world).
  - vm_compute. reflexivity.
  - intros child Hc. apply list_elem_of_singleton in Hc as ->.
    intros H. apply list_elem_of_singleton in H. discriminate H.
Defined.

Lemma template_is_defined_not_set_up_witness :
  let template :=
    MkNode 2 "TEMPLATE" [attr "#component" "x-card"; attr "msg" "this.greeting"] "" [] [] in
  let definition :=
    {| c_name := "x-card"; c_elem := template;
       c_attributes :=
         List.filter isExternal
           (a_name <$> [attr "#component" "x-card"; attr "msg" "this.greeting"]);
       c_state := Prox (length (targets emptyWorld)) (Plain None) |} in
  ∃ w',
    setup Demo.js 3 template (PSnap ∅) (Plain None) emptyWorld = Ret () w' ∧
    signals w' = signals emptyWorld ∧ cleanup w' = cleanup emptyWorld ∧
    nextListener w' = nextListener emptyWorld ∧
    trace w' = trace emptyWorld ++ [EvDom (DomDefine definition)].
Proof.
  apply (template_is_defined_not_set_up Demo.js 3 2
           [attr "#component" "x-card"; attr "msg" "this.greeting"] "" [] [] (PSnap ∅)
           (Plain None) emptyWorld "x-card"); reflexivity.
Defined.

Lemma attribute_change_writes_component_scope_witness :
  attributeChangedCallback Demo.js 3 7 "msg" (VStr "ho") c8_after
    = proxySet (emit Demo.js 3) (Prox (length (targets c8_world)) (Plain (Some 7))) "msg"
        (VStr "ho") c8_after.
Proof.
  apply (attribute_change_writes_component_scope Demo.js 3 c8_def 7 "msg" (VStr "ho")
           c8_world c8_after).
  vm_compute. reflexivity.
Defined.

Lemma disconnected_instance_has_no_scope_witness :
  elemState c8_disconnected !! 7 = None ∧
  (∀ name newValue,
     attributeChangedCallback Demo.js 3 7 name newValue c8_disconnected
       = Threw (TypeError "this.$state is undefined") c8_disconnected) ∧
  ∀ c' shadow',
    connectedCallback Demo.js 3 c' 7 shadow' c8_disconnected
      = (_ ← forEach (λ child, setup Demo.js 3 child (PSnap ∅) (Plain None)) shadow';
         forEach (evalInstance Demo.js (emit Demo.js 3) 7) (onConnectedScripts c'))
          c8_disconnected.
Proof.
  apply (disconnected_instance_has_no_scope Demo.js 3 c8_def 7 [] c8_after c8_disconnected).
  vm_compute. reflexivity.
Defined.

Lemma c1_world_tidy : tidy c1_world.
Proof.
  pose proof (keeps_setup Demo.js tidy (λ _, True) tidy_kept tidy_keptAttr tidy_keptTree
                3 c1_body ltac:(done) (PSnap ∅) (Plain None) emptyWorld) as H.
  change (setup Demo.js 3 c1_body (PSnap ∅) (Plain None) emptyWorld)
    with (Demo.boot 3 c1_body emptyWorld) in H.
  rewrite c1_world_run in H. apply H.
  intros e c Hc. simpl in Hc. rewrite lookup_empty in Hc. by apply elem_of_nil in Hc.
Qed.

Lemma teardown_removes_exactly_the_tree_witness :
  sigListeners (undoSetup c3_input c1_world) 0
    = List.filter (λ l, bool_decide (l_elem l ∉ nodeIds c3_input)) (sigListeners c1_world 0).
Proof.
  apply (teardown_removes_exactly_the_tree c3_input c1_world 0).
  - exact Examples.c1_world_covered.
  - exact c1_world_tidy.
Defined.

Lemma throttle_retries_event_that_throws_witness :
  throttle (λ _ : nat, true) (Some 5) (replicate 3 Interval) = (replicate 3 5, Some 5).
Proof.
  apply (throttle_retries_event_that_throws nat (λ _, true) 5 3). reflexivity.
Defined.

Example throttle_three_intervals :
  throttle (λ _ : nat, false) None
    [Dispatch 1; Dispatch 2; Interval; Interval; Dispatch 3; Interval; Dispatch 4]
  = ([2; 3], Some 4).
Proof. reflexivity. Qed.

End MoreExamples.
